(** * makepkg: a verification development for the package build orchestrator

    The Go sources are embedded shallowly: every Go function that a
    property talks about becomes a Rocq function of the same name, Go
    maps become [gmap]s, Go slices become lists, and the file system
    and the process environment become explicit state.

    Layout:
    - [Config]     : pkg/config (Package, Toolchain, Config,
                     MergeToolchainConfig)
    - [Cache]      : pkg/cache  (Read, WriteBuild, WriteInstall, NeedsRebuild,
                     NeedsReinstall, Invalidate, InvalidateDependents,
                     findDependents)
    - [Build]      : pkg/build  (GetBuildOrder)
    - [Validation] : pkg/config (Validate, validateDependencies,
                     detectCircularDependencies)
    - [Builder]    : pkg/build  (the package filter and the cache calls of
                     Builder)
    - [Strings], [Filepath] : the Go standard-library functions the code calls
    - [Env]        : pkg/env    (Manager, mergedEnv, Subst, toolchain binding) *)

From Stdlib Require Import ZArith Lia Ascii String.
From stdpp Require Import gmap strings list fin_maps relations sorting pretty.

Local Open Scope string_scope.
Local Open Scope list_scope.
Local Open Scope Z_scope.

(** ** pkg/config *)

Module Config.

(** [config.Package].  [Native] is read by the builder
    ([if !pkg.Native]). *)
Record Package := mkPackage {
  Name : string;
  URL : string;
  Build : string;
  Install : string;
  Clean : string;
  Env : list string;
  DependsOn : list string;
  PackagesFile : string;
  Native : bool
}.

(** [config.Toolchain] *)
Record Toolchain := mkToolchain {
  FilePath : string;
  Arch : string;
  Bin : string;
  THost : string;
  CrossPrefix : string;
  ExtraPrograms : list string
}.

(** [config.Config]; [CfgFilePath] is the Go field [FilePath]. *)
Record Config := mkConfig {
  CfgFilePath : string;
  CfgToolchain : Toolchain;
  Packages : list Package
}.

(** [Config.GetPackageByName]: first package with that name. *)
Fixpoint GetPackageByName_in (ps : list Package) (name : string) : option Package :=
  match ps with
  | [] => None
  | p :: ps' => if decide (Name p = name) then Some p else GetPackageByName_in ps' name
  end.

Definition GetPackageByName (c : Config) (name : string) : option Package :=
  GetPackageByName_in (Packages c) name.

(** The catalog's names, in declaration order. *)
Definition names (c : Config) : list string := Name <$> Packages c.

(** [d] directly depends on [n]: some package called [d] lists [n] in
    its [depends_on].  This is the edge relation of the
    reverse-dependency graph (from a package to its dependents). *)
Definition dependent_of (c : Config) (n d : string) : Prop :=
  ∃ p, p ∈ Packages c ∧ Name p = d ∧ n ∈ DependsOn p.

(** Data-model invariants of a catalog that the resolver relies on. *)
Definition deps_defined (c : Config) : Prop :=
  ∀ p d, p ∈ Packages c → d ∈ DependsOn p → d ∈ names c.

(** No package reaches itself through one or more dependency edges. *)
Definition acyclic (c : Config) : Prop :=
  ∀ n, ¬ tc (dependent_of c) n n.

(** A checkable certificate of acyclicity: an ordering of names in
    which every package comes after all of its dependencies. *)
Fixpoint position (order : list string) (n : string) : nat :=
  match order with
  | [] => O
  | x :: rest => if decide (x = n) then O else S (position rest n)
  end.

Definition ordered_by (order : list string) (c : Config) : bool :=
  forallb (λ p,
    forallb (λ d, bool_decide (position order d < position order (Name p))%nat)
            (DependsOn p))
    (Packages c).

(** [deps_defined] as a decidable check. *)
Definition deps_definedb (c : Config) : bool :=
  forallb (λ p, forallb (λ d, bool_decide (d ∈ names c)) (DependsOn p)) (Packages c).

(** A package with only the fields the resolver and the cache read. *)
Definition simple_package (name url build install : string) (deps : list string)
  : Package :=
  mkPackage name url build install "" [] deps "" false.

(** The chain used as a running example: [b] depends on [a], [c] on [b]. *)
Definition chain_catalog : Config :=
  mkConfig "" (mkToolchain "" "" "" "" "" [])
    [ simple_package "a" "http://a" "make" "make install" [];
      simple_package "b" "http://b" "make" "make install" ["a"];
      simple_package "c" "http://c" "make" "make install" ["b"] ].

(** [MergeToolchainConfig]: the result starts as a copy of [base], so
    it keeps the [FilePath] of [base]. *)
Definition MergeToolchainConfig (base override : Toolchain) : Toolchain :=
  mkToolchain
    (FilePath base)
    (if decide (Arch override ≠ "") then Arch override else Arch base)
    (if decide (Bin override ≠ "") then Bin override else Bin base)
    (if decide (THost override ≠ "") then THost override else THost base)
    (if decide (CrossPrefix override ≠ "") then CrossPrefix override else CrossPrefix base)
    (if decide (0 < length (ExtraPrograms override))%nat
     then ExtraPrograms override else ExtraPrograms base).

End Config.

(** ** pkg/cache *)

Module Cache.
Import Config.

(** [cache.Info], the record persisted as [makepkg.json]. *)
Record Info := mkInfo {
  IURL : string;
  IBuild : string;
  IInstall : string;
  IEnv : list string;
  IHost : string;
  ISysroot : string
}.

(** [&Info{}] *)
Definition Info_zero : Info := mkInfo "" "" "" [] "" "".

(** What is found at [<buildDir>/<pkg>/makepkg.json] when the file
    exists: either bytes that [json.Unmarshal] decodes to a record, or
    bytes that cannot be read or decoded.  The JSON encoding itself
    is taken to be lossless. *)
Inductive CacheFile :=
| Parsed (i : Info)
| Corrupt.

(** The part of the build directory the cache looks at, keyed by
    package name: the cache files, the unpacked source trees (as the
    list of their entries) and the package directories that refuse
    modification (where [os.Remove], [os.MkdirAll] and [os.WriteFile]
    fail with a permission error). *)
Record FS := mkFS {
  cache_files : gmap string CacheFile;
  source_trees : gmap string (list string);
  readonly : gset string
}.

(** Go [error] values produced by this package. *)
Inductive error :=
| ErrReadCache                      (* "failed to read cache" / "failed to parse cache" *)
| ErrReadExisting (e : error)       (* "failed to read existing cache: %w" *)
| ErrWriteCache                     (* "failed to write cache" *)
| ErrRemoveCache                    (* "failed to remove cache: %w" *)
| ErrInvalidate (dep : string) (e : error). (* "failed to invalidate %s: %w" *)

(** [Read]: [(nil, nil)] when the file does not exist. *)
Definition Read (fs : FS) (pkgName : string) : option Info * option error :=
  match cache_files fs !! pkgName with
  | None => (None, None)
  | Some Corrupt => (None, Some ErrReadCache)
  | Some (Parsed i) => (Some i, None)
  end.

(** [write] *)
Definition write (fs : FS) (pkgName : string) (i : Info) : FS * option error :=
  if decide (pkgName ∈ readonly fs) then (fs, Some ErrWriteCache)
  else (mkFS (<[pkgName := Parsed i]> (cache_files fs)) (source_trees fs) (readonly fs), None).

(** [WriteBuild] *)
Definition WriteBuild (fs : FS) (pkgName sysroot host : string) (pkg : Package)
  : FS * option error :=
  match Read fs pkgName with
  | (_, Some e) => (fs, Some (ErrReadExisting e))
  | (c, None) =>
      let cache := default Info_zero c in
      let cache := mkInfo (URL pkg) (Build pkg) (IInstall cache) (Env pkg) host sysroot in
      write fs pkgName cache
  end.

(** [WriteInstall] *)
Definition WriteInstall (fs : FS) (pkgName sysroot host : string) (pkg : Package)
  : FS * option error :=
  match Read fs pkgName with
  | (_, Some e) => (fs, Some (ErrReadExisting e))
  | (c, None) =>
      let cache := default Info_zero c in
      let cache := mkInfo (IURL cache) (IBuild cache) (Install pkg) (Env pkg) host sysroot in
      write fs pkgName cache
  end.

(** [stringSlicesEqual]: lengths first, then element by element. *)
Fixpoint slices_eq_from (a b : list string) : bool :=
  match a, b with
  | x :: a', y :: b' => if decide (x = y) then slices_eq_from a' b' else false
  | _, _ => true
  end.

Definition stringSlicesEqual (a b : list string) : bool :=
  if decide (length a ≠ length b) then false else slices_eq_from a b.

Section Reasons.
(** [%q] of [fmt.Sprintf] ([strconv.Quote]); its exact output does
    not matter here. *)
Variable quote : string → string.

Definition changed_from (what old new : string) : string :=
  what +:+ " changed from " +:+ quote old +:+ " to " +:+ quote new.

(** [checkCommonCacheChanges] *)
Definition checkCommonCacheChanges (cache : Info) (pkg : Package) (sysroot host : string)
  : bool * string :=
  if negb (stringSlicesEqual (IEnv cache) (Env pkg)) then (true, "env vars changed")
  else if decide (IHost cache ≠ host) then (true, changed_from "host" (IHost cache) host)
  else if decide (ISysroot cache ≠ sysroot) then
    (true, changed_from "sysroot" (ISysroot cache) sysroot)
  else (false, "").

(** [os.Stat(srcDir)] followed by [os.IsNotExist(err)] *)
Definition source_missing (fs : FS) (pkgName : string) : bool :=
  bool_decide (source_trees fs !! pkgName = None).

(** [needsRebuildWithReason] *)
Definition needsRebuildWithReason (fs : FS) (pkg : Package) (sysroot host : string)
  : bool * string * option error :=
  match Read fs (Name pkg) with
  | (_, Some e) => (false, "", Some e)
  | (None, None) => (true, "no cache exists", None)
  | (Some cache, None) =>
      if decide (IURL cache ≠ URL pkg) then
        (true, changed_from "URL" (IURL cache) (URL pkg), None)
      else if decide (IBuild cache ≠ Build pkg) then
        (true, "build script changed", None)
      else
        match checkCommonCacheChanges cache pkg sysroot host with
        | (true, reason) => (true, reason, None)
        | (false, _) =>
            if source_missing fs (Name pkg) then
              (true, "source directory doesn't exist", None)
            else (false, "", None)
        end
  end.

(** [NeedsRebuild] *)
Definition NeedsRebuild (fs : FS) (pkg : Package) (sysroot host : string)
  : bool * option error :=
  let '(needs, _, err) := needsRebuildWithReason fs pkg sysroot host in (needs, err).

(** [needsReinstallWithReason] *)
Definition needsReinstallWithReason (fs : FS) (pkg : Package) (sysroot host : string)
  : bool * string * option error :=
  match Read fs (Name pkg) with
  | (_, Some e) => (false, "", Some e)
  | (None, None) => (true, "no cache exists", None)
  | (Some cache, None) =>
      if decide (IInstall cache ≠ Install pkg) then
        (true, "install script changed", None)
      else
        match checkCommonCacheChanges cache pkg sysroot host with
        | (true, reason) => (true, reason, None)
        | (false, _) => (false, "", None)
        end
  end.
End Reasons.

(** [Invalidate]: a missing cache file is not an error. *)
Definition Invalidate (fs : FS) (pkgName : string) : FS * option error :=
  match cache_files fs !! pkgName with
  | None => (fs, None)
  | Some _ =>
      if decide (pkgName ∈ readonly fs) then (fs, Some ErrRemoveCache)
      else (mkFS (delete pkgName (cache_files fs)) (source_trees fs) (readonly fs), None)
  end.

(** [directDependents[dep] = append(directDependents[dep], pkg.Name)] *)
Definition add_dependent (name : string) (m : gmap string (list string)) (dep : string)
  : gmap string (list string) :=
  <[dep := (m !!! dep) ++ [name]]> m.

Definition directDependents (cfg : Config) : gmap string (list string) :=
  foldl (λ m pkg, foldl (add_dependent (Name pkg)) m (DependsOn pkg)) ∅ (Packages cfg).

(** The inner loop of the search: dependents of [current] that are
    not yet visited go to the back of the queue and of the result. *)
Definition enqueue (visited : gset string) (qr : list string * list string) (dep : string)
  : list string * list string :=
  if decide (dep ∈ visited) then qr else (qr.1 ++ [dep], qr.2 ++ [dep]).

(** The [for len(queue) > 0] loop of [findDependents]; [None] when
    the iteration budget runs out.  The Go map [visited] only ever
    stores [true], so it is a set. *)
Fixpoint bfs (fuel : nat) (dd : gmap string (list string)) (visited : gset string)
    (queue result : list string) : option (list string) :=
  match queue with
  | [] => Some result
  | current :: queue' =>
      match fuel with
      | O => None
      | S fuel' =>
          if decide (current ∈ visited) then bfs fuel' dd visited queue' result
          else
            let visited' := {[current]} ∪ visited in
            let qr := foldl (enqueue visited') (queue', result) (dd !!! current) in
            bfs fuel' dd visited' qr.1 qr.2
      end
  end.

(** Total number of entries of the reverse adjacency. *)
Definition edges (dd : gmap string (list string)) : nat :=
  map_fold (λ _ l acc, (length l + acc)%nat) 0%nat dd.

(** An iteration budget that the loop never exhausts
    (see [bfs_terminates]). *)
Definition bfs_budget (dd : gmap string (list string)) : nat := S (edges dd).

(** [findDependents] *)
Definition findDependents (pkgName : string) (cfg : Config) : list string :=
  let dd := directDependents cfg in
  default [] (bfs (bfs_budget dd) dd ∅ [pkgName] []).

(** The [for _, dep := range dependents] loop of
    [InvalidateDependents], returning at the first failure. *)
Fixpoint invalidate_each (fs : FS) (dependents : list string) : FS * option error :=
  match dependents with
  | [] => (fs, None)
  | dep :: rest =>
      match Invalidate fs dep with
      | (fs', Some e) => (fs', Some (ErrInvalidate dep e))
      | (fs', None) => invalidate_each fs' rest
      end
  end.

(** [InvalidateDependents] *)
Definition InvalidateDependents (fs : FS) (pkgName : string) (cfg : Config)
  : FS * option error :=
  invalidate_each fs (findDependents pkgName cfg).

End Cache.

(** ** pkg/build: dependency resolution *)

Module Build.
Import Config.

(** The two errors of [GetBuildOrder]. *)
Inductive error :=
| MissingDependency (pkg dep : string) (* "package %s depends on non-existent package %s" *)
| CircularDependency.                  (* "circular dependency detected" *)

(** [pkgMap[cfg.Packages[i].Name] = &cfg.Packages[i]] *)
Definition pkgMap (cfg : Config) : gmap string Package :=
  foldl (λ m p, <[Name p := p]> m) ∅ (Packages cfg).

(** The validation loop: the first [(pkg, dep)], in declaration order,
    whose [dep] is not a key of [pkgMap]. *)
Fixpoint find_missing (pm : gmap string Package) (pkgs : list Package)
  : option (string * string) :=
  match pkgs with
  | [] => None
  | p :: rest =>
      match list_find (λ d, pm !! d = None) (DependsOn p) with
      | Some (_, d) => Some (Name p, d)
      | None => find_missing pm rest
      end
  end.

(** One iteration of the loop that fills [reverseGraph] and
    [reverseInDegree].  The append to [reverseGraph[dep]] is the same
    statement as in the cache's [findDependents]. *)
Definition add_edges (st : gmap string (list string) * gmap string Z) (pkg : Package)
  : gmap string (list string) * gmap string Z :=
  (foldl (Cache.add_dependent (Name pkg)) st.1 (DependsOn pkg),
   <[Name pkg := Z.of_nat (length (DependsOn pkg))]> st.2).

(** [reverseInDegree[dependent]--] followed by the zero test. *)
Definition relax (st : gmap string Z * list string) (dependent : string)
  : gmap string Z * list string :=
  let deg := <[dependent := (st.1 !!! dependent) - 1]> st.1 in
  if decide (deg !!! dependent = 0) then (deg, st.2 ++ [dependent]) else (deg, st.2).

(** Body of [for _, name := range queue]. *)
Definition visit (rg : gmap string (list string))
    (st : gmap string Z * list string * Z) (name : string)
  : gmap string Z * list string * Z :=
  let r := foldl relax (st.1.1, st.1.2) (rg !!! name) in
  (r.1, r.2, st.2 + 1).

(** The [for len(queue) > 0] loop; [None] when the iteration budget
    runs out. *)
Fixpoint levels_loop (fuel : nat) (rg : gmap string (list string)) (deg : gmap string Z)
    (queue : list string) (result : list (list string)) (processed : Z)
  : option (list (list string) * Z) :=
  match queue with
  | [] => Some (result, processed)
  | _ :: _ =>
      match fuel with
      | O => None
      | S fuel' =>
          let st := foldl (visit rg) (deg, [], processed) queue in
          levels_loop fuel' rg st.1.1 st.1.2 (result ++ [queue]) st.2
      end
  end.

Section Resolver.
(** The order in which Go's [range] enumerates a map is unspecified;
    it is a parameter of the model. *)
Variable range_keys : gmap string Z → list (string * Z).

(** [GetBuildOrder].  The budget of the loop is never exhausted
    (see [levels_loop_terminates]). *)
Definition GetBuildOrder (cfg : Config) : option (list (list string)) * option error :=
  match find_missing (pkgMap cfg) (Packages cfg) with
  | Some (p, d) => (None, Some (MissingDependency p d))
  | None =>
      let g := foldl add_edges (∅, ∅) (Packages cfg) in
      let queue := (filter (λ kv, kv.2 = 0) (range_keys g.2)).*1 in
      match levels_loop (S (length (Packages cfg))) g.1 g.2 queue [] 0 with
      | Some (result, processed) =>
          if decide (processed ≠ Z.of_nat (length (Packages cfg)))
          then (None, Some CircularDependency)
          else (Some result, None)
      | None => (None, None)
      end
  end.
End Resolver.

End Build.

(** ** pkg/config: validation *)

Module Validation.
Import Config.

(** The errors of [Config.Validate]. *)
Inductive error :=
| ErrNoPackages                              (* "no packages defined" *)
| ErrMissingName (i : nat)                   (* "package at index %d missing name" *)
| ErrDuplicateName (name : string)           (* "duplicate package name: %s" *)
| ErrMissingURL (name : string)              (* "package %s missing URL" *)
| ErrMissingBuild (name : string)            (* "package %s missing build command" *)
| ErrMissingInstall (name : string)          (* "package %s missing install command" *)
| ErrSelfDependency (name : string)          (* "package %s depends on itself" *)
| ErrNonExistent (pkg dep : string)          (* "package %s depends on non-existent package %s" *)
| ErrCircular (pkgName dep : string).        (* "circular dependency detected: %s -> %s" *)

(** The first loop of [Validate]; [i] is the index of the head of
    [pkgs] and [pkgNames] the names seen before it. *)
Fixpoint check_packages (i : nat) (pkgNames : gset string) (pkgs : list Package)
  : option error :=
  match pkgs with
  | [] => None
  | pkg :: rest =>
      if decide (Name pkg = "") then Some (ErrMissingName i)
      else if decide (Name pkg ∈ pkgNames) then Some (ErrDuplicateName (Name pkg))
      else if decide (URL pkg = "") then Some (ErrMissingURL (Name pkg))
      else if decide (Build pkg = "") then Some (ErrMissingBuild (Name pkg))
      else if decide (Install pkg = "") then Some (ErrMissingInstall (Name pkg))
      else if decide (Name pkg ∈ DependsOn pkg) then Some (ErrSelfDependency (Name pkg))
      else check_packages (S i) ({[Name pkg]} ∪ pkgNames) rest
  end.

(** The maps [visited] and [recStack] of [detectCircularDependencies],
    as the sets of the names they map to [true]. *)
Notation marks := (gset string * gset string)%type.

(** The loop over [pkg.DependsOn] inside the closure [visit]; [visit]
    is the closure itself, for the recursive call.  [None] stands for
    a recursion that went deeper than the bound of [visit]. *)
Fixpoint visit_deps (visit : string → marks → option (marks * option error))
    (pkgName : string) (deps : list string) (st : marks)
  : option (marks * option error) :=
  match deps with
  | [] => Some (st, None)
  | dep :: rest =>
      if decide (dep ∉ st.1) then
        match visit dep st with
        | None => None
        | Some (st', Some e) => Some (st', Some e)
        | Some (st', None) => visit_deps visit pkgName rest st'
        end
      else if decide (dep ∈ st.2) then Some (st, Some (ErrCircular pkgName dep))
      else visit_deps visit pkgName rest st
  end.

(** The closure [visit]; [depth] bounds the depth of the recursion.
    A name without package returns early and stays on [recStack]. *)
Fixpoint visit (depth : nat) (c : Config) (pkgName : string) (st : marks)
  : option (marks * option error) :=
  match depth with
  | O => None
  | S depth' =>
      let st := ({[pkgName]} ∪ st.1, {[pkgName]} ∪ st.2) in
      match GetPackageByName c pkgName with
      | None => Some (st, None)
      | Some pkg =>
          match visit_deps (visit depth' c) pkgName (DependsOn pkg) st with
          | Some (st', None) => Some ((st'.1, st'.2 ∖ {[pkgName]}), None)
          | r => r
          end
      end
  end.

(** The loop over [c.Packages] at the end of
    [detectCircularDependencies]. *)
Fixpoint visit_all (depth : nat) (c : Config) (pkgs : list Package) (st : marks)
  : option (option error) :=
  match pkgs with
  | [] => Some None
  | pkg :: rest =>
      if decide (Name pkg ∉ st.1) then
        match visit depth c (Name pkg) st with
        | None => None
        | Some (_, Some e) => Some (Some e)
        | Some (st', None) => visit_all depth c rest st'
        end
      else visit_all depth c rest st
  end.

(** A recursion depth that [visit] never reaches: every nested call
    marks a name that was not visited, and only package names and
    dependency names are ever visited (see [visit_total]). *)
Definition depth_bound (c : Config) : nat :=
  S (length (Packages c) + length (concat (DependsOn <$> Packages c))).

(** [Config.detectCircularDependencies]; the outer [option] is [None]
    only if the depth bound is hit, the inner one is Go's [error]. *)
Definition detectCircularDependencies (c : Config) : option (option error) :=
  visit_all (depth_bound c) c (Packages c) (∅, ∅).

(** [Config.validateDependencies]; its existence loop is the one of
    [GetBuildOrder]. *)
Definition validateDependencies (c : Config) : option (option error) :=
  match Build.find_missing (Build.pkgMap c) (Packages c) with
  | Some (pkg, dep) => Some (Some (ErrNonExistent pkg dep))
  | None => detectCircularDependencies c
  end.

(** [Config.Validate] *)
Definition Validate (c : Config) : option (option error) :=
  if decide (length (Packages c) = 0%nat) then Some (Some ErrNoPackages)
  else match check_packages 0 ∅ (Packages c) with
       | Some e => Some (Some e)
       | None => validateDependencies c
       end.

End Validation.

(** ** pkg/build: the package filter of the builder *)

Module Builder.
Import Config.

(** [Builder.filterPackages] *)
Definition filterPackages (packages : list string) (filterSet : gset string) : list string :=
  filter (λ pkgName, pkgName ∈ filterSet) packages.

(** The loop over [pkg.DependsOn] in [addDependenciesToFilter]; [add]
    is the function itself, for the recursive call. *)
Fixpoint add_deps (add : string → gset string → option (gset string))
    (deps : list string) (filterSet : gset string) : option (gset string) :=
  match deps with
  | [] => Some filterSet
  | dep :: rest =>
      if decide (dep ∈ filterSet) then add_deps add rest filterSet
      else match add dep ({[dep]} ∪ filterSet) with
           | Some filterSet' => add_deps add rest filterSet'
           | None => None
           end
  end.

(** [Builder.addDependenciesToFilter]: a depth-first walk over
    [depends_on] that adds every dependency not yet in the set.
    [depth] bounds the depth of the recursion; [None] stands for a
    recursion that went deeper.  The Go map only stores [true], so it
    is a set. *)
Fixpoint addDependenciesToFilter (depth : nat) (cfg : Config) (pkgName : string)
    (filterSet : gset string) : option (gset string) :=
  match depth with
  | O => None
  | S depth' =>
      match GetPackageByName cfg pkgName with
      | None => Some filterSet
      | Some pkg => add_deps (addDependenciesToFilter depth' cfg) (DependsOn pkg) filterSet
      end
  end.

(** The second loop over [packageFilter] in [Builder.Build]. *)
Fixpoint add_requested (depth : nat) (cfg : Config) (requested : list string)
    (filterSet : gset string) : option (gset string) :=
  match requested with
  | [] => Some filterSet
  | pkgName :: rest =>
      match addDependenciesToFilter depth cfg pkgName filterSet with
      | Some filterSet' => add_requested depth cfg rest filterSet'
      | None => None
      end
  end.

(** The filter set that [Builder.Build] computes from [packageFilter]:
    the requested names first, then their dependencies.  The depth
    bound is never reached (see [filterSet_total]). *)
Definition filterSet (cfg : Config) (packageFilter : list string) : option (gset string) :=
  add_requested (Validation.depth_bound cfg) cfg packageFilter (list_to_set packageFilter).

(** What [Builder.Build] passes to [buildLevel] for one level. *)
Definition filteredLevel (level : list string) (filterSet : gset string) : list string :=
  if decide (filterSet ≠ ∅) then filterPackages level filterSet else level.

(** [Builder.buildRequiredByMap], starting from the empty map. *)
Definition buildRequiredByMap (cfg : Config) (filterSet : gset string)
  : gmap string (list string) :=
  foldl (λ m pkg,
           if decide (filterSet ≠ ∅ ∧ Name pkg ∉ filterSet) then m
           else foldl (λ m dep,
                         if decide (filterSet = ∅ ∨ dep ∈ filterSet)
                         then Cache.add_dependent (Name pkg) m dep
                         else m)
                      m (DependsOn pkg))
        ∅ (Packages cfg).




End Builder.

(** ** The Go standard-library functions the code calls

    Go strings are byte sequences; a Rocq [string] is read as the same
    sequence of bytes. *)

Module Strings.

(** [strings.SplitN(s, sep, 2)] for a one-byte separator: the text
    before and after the first separator, or [None] when there is
    none (Go then returns the single part [s]). *)
Fixpoint cut (sep : ascii) (s : string) : option (string * string) :=
  match s with
  | EmptyString => None
  | String c s' =>
      if decide (c = sep) then Some (EmptyString, s')
      else match cut sep s' with
           | Some (a, b) => Some (String c a, b)
           | None => None
           end
  end.

(** [strings.ReplaceAll(s, old, new)] for one-byte [old] and [new]. *)
Fixpoint replace_byte (old new : ascii) (s : string) : string :=
  match s with
  | EmptyString => EmptyString
  | String c s' => String (if decide (c = old) then new else c) (replace_byte old new s')
  end.

(** An ASCII lower-case letter. *)
Definition is_lower (c : ascii) : bool :=
  bool_decide (97 ≤ nat_of_ascii c ≤ 122)%nat.

(** [strings.ToUpper] on its ASCII fragment: letters [a-z] are
    upper-cased, every other byte is kept.  On strings with bytes above
    127 Go applies Unicode case mapping, which is outside this model;
    statements that depend on it are restricted to ASCII names. *)
Fixpoint ToUpper (s : string) : string :=
  match s with
  | EmptyString => EmptyString
  | String c s' =>
      String (if is_lower c then ascii_of_nat (nat_of_ascii c - 32) else c) (ToUpper s')
  end.

Definition is_ascii (s : string) : Prop :=
  Forall (λ c, nat_of_ascii c < 128)%nat (list_ascii_of_string s).

Definition bytes (l : list nat) : string :=
  string_of_list_ascii (ascii_of_nat <$> l).

(** UTF-8 encodings of the runes for which [unicode.IsSpace] holds:
    U+0009..U+000D, U+0020, U+0085, U+00A0, U+1680, U+2000..U+200A,
    U+2028, U+2029, U+202F, U+205F, U+3000. *)
Definition space_runes : list string :=
  bytes <$> [ [9]; [10]; [11]; [12]; [13]; [32]; [194; 133]; [194; 160];
              [225; 154; 128];
              [226; 128; 128]; [226; 128; 129]; [226; 128; 130]; [226; 128; 131];
              [226; 128; 132]; [226; 128; 133]; [226; 128; 134]; [226; 128; 135];
              [226; 128; 136]; [226; 128; 137]; [226; 128; 138];
              [226; 128; 168]; [226; 128; 169]; [226; 128; 175];
              [226; 129; 159]; [227; 128; 128] ]%nat.

(** [s] without the prefix [pre], if it has it. *)
Fixpoint strip_prefix (pre s : string) : option string :=
  match pre, s with
  | EmptyString, _ => Some s
  | String a pre', String b s' => if decide (a = b) then strip_prefix pre' s' else None
  | String _ _, EmptyString => None
  end.

(** [s] without one leading white-space rune, if it starts with one. *)
Definition strip_space (runes : list string) (s : string) : option string :=
  match list_find (λ r, is_Some (strip_prefix r s)) runes with
  | Some (_, r) => strip_prefix r s
  | None => None
  end.

(** Drop leading white-space runes; each round removes at least one
    byte, so [String.length s] rounds are enough. *)
Fixpoint trim_left (rounds : nat) (runes : list string) (s : string) : string :=
  match rounds with
  | O => s
  | S rounds' =>
      match strip_space runes s with
      | Some rest => trim_left rounds' runes rest
      | None => s
      end
  end.

(** [strings.TrimSpace]: leading, then trailing white space is cut;
    the trailing cut is the leading cut on the reversed bytes. *)
Definition TrimSpace (s : string) : string :=
  let s1 := trim_left (String.length s) space_runes s in
  String.rev
    (trim_left (String.length s1) (String.rev <$> space_runes) (String.rev s1)).

(** The longest prefix of [s] free of the closing brace, and what
    follows the brace; [None] when [s] has no closing brace. *)
Fixpoint until_close (s : string) : option (string * string) :=
  match s with
  | EmptyString => None
  | String c s' =>
      if decide (c = "}"%char) then Some (EmptyString, s')
      else match until_close s' with
           | Some (name, rest) => Some (String c name, rest)
           | None => None
           end
  end.

(** A match of the regular expression [\$\{([^}]+)}] anchored at the
    start of [s]: the captured name and the text after the match. *)
Definition match_head (s : string) : option (string * string) :=
  match s with
  | String "$" (String "{" s') =>
      match until_close s' with
      | Some (name, rest) => if decide (name = EmptyString) then None else Some (name, rest)
      | None => None
      end
  | _ => None
  end.

(** [reSubst.ReplaceAllStringFunc(s, f)] for that expression, with the
    state [S] that the callback may update (Go closures write to
    captured variables).  The scan goes left to right; at a match the
    callback's text replaces it and the next [skip] bytes, the rest of
    the match, are passed over; elsewhere the byte is copied. *)
Fixpoint replace_scan {S : Type} (f : string → S → string * S) (skip : nat)
    (s : string) (st : S) : string * S :=
  match s with
  | EmptyString => (EmptyString, st)
  | String c s' =>
      match skip with
      | Datatypes.S k => replace_scan f k s' st
      | O =>
          match match_head s with
          | Some (name, _) =>
              let r := f ("${" +:+ name +:+ "}") st in
              let r' := replace_scan f (2 + String.length name) s' r.2 in
              (r.1 +:+ r'.1, r'.2)
          | None =>
              let r' := replace_scan f 0 s' st in
              (String c r'.1, r'.2)
          end
      end
  end.

Definition ReplaceAllStringFunc {S : Type} (f : string → S → string * S)
    (s : string) (st : S) : string * S :=
  replace_scan f 0 s st.

(** [match[2 : len(match)-1]] *)
Definition varName (m : string) : string :=
  substring 2 (String.length m - 3) m.

End Strings.

(** [path/filepath] on Unix, written over path elements. *)

Module Filepath.

(** [strings.Split(s, sep)] for a one-byte separator. *)
Fixpoint split_go (sep : ascii) (cur : string) (s : string) : list string :=
  match s with
  | EmptyString => [String.rev cur]
  | String c s' =>
      if decide (c = sep) then String.rev cur :: split_go sep EmptyString s'
      else split_go sep (String c cur) s'
  end.

Definition split (sep : ascii) (s : string) : list string := split_go sep EmptyString s.

(** [strings.Join(elems, sep)] *)
Fixpoint join_with (sep : string) (elems : list string) : string :=
  match elems with
  | [] => EmptyString
  | [e] => e
  | e :: rest => e +:+ sep +:+ join_with sep rest
  end.

(** One path element of [Clean]; [stack] holds the elements kept so
    far, last one first.  Empty and [.] elements vanish; [..] removes
    the last real element, is dropped at the root, and is kept at the
    front of a relative path. *)
Definition clean_step (rooted : bool) (stack : list string) (elem : string) : list string :=
  if decide (elem = "" ∨ elem = ".") then stack
  else if decide (elem = "..") then
    match stack with
    | top :: rest => if decide (top = "..") then ".." :: stack else rest
    | [] => if rooted then [] else [".."]
    end
  else elem :: stack.

Definition IsAbs (path : string) : bool :=
  match path with
  | String "/" _ => true
  | _ => false
  end.

(** [filepath.Clean] *)
Definition Clean (path : string) : string :=
  if decide (path = "") then "."
  else
    let rooted := IsAbs path in
    let stack := foldl (clean_step rooted) [] (split "/" path) in
    let out := (if rooted then "/" else "") +:+ join_with "/" (reverse stack) in
    if decide (out = "") then "." else out.

(** [filepath.Join]: leading empty elements are skipped, the rest is
    joined with slashes and cleaned; all empty gives the empty string. *)
Fixpoint Join (elem : list string) : string :=
  match elem with
  | [] => ""
  | e :: rest => if decide (e = "") then Join rest else Clean (join_with "/" (e :: rest))
  end.

(** The text up to and including the last slash. *)
Fixpoint upto_last_slash (s : string) : string :=
  match s with
  | EmptyString => EmptyString
  | String c s' =>
      let r := upto_last_slash s' in
      if decide (r = EmptyString) then (if decide (c = "/"%char) then "/" else "")
      else String c r
  end.

(** [filepath.Dir] *)
Definition Dir (path : string) : string := Clean (upto_last_slash path).

(** [filepath.Abs]; [wd] is the result of [os.Getwd], [None] when that
    call fails. *)
Definition Abs (wd : option string) (path : string) : option string :=
  if IsAbs path then Some (Clean path)
  else match wd with
       | Some d => Some (Join [d; path])
       | None => None
       end.

End Filepath.

(** ** pkg/env *)

Module Env.
Import Config Strings Filepath.

(** [Manager]: its only field is the map [baseEnv]. *)
Notation Manager := (gmap string string).

(** [os.Getenv] on a process environment. *)
Definition Getenv (penv : gmap string string) (key : string) : string :=
  default "" (penv !! key).

(** [NewManager] *)
Definition NewManager (penv : gmap string string) : Manager :=
  <["PATH" := Getenv penv "PATH"]> ∅.

(** [Manager.Set] *)
Definition SetVar (key value : string) (e : Manager) : Manager := <[key := value]> e.

(** [Manager.Get]: [None] is Go's [("", false)]. *)
Definition Get (e : Manager) (key : string) : option string := e !! key.

(** [Manager.PrependToVar] *)
Definition PrependToVar (key value sep : string) (e : Manager) : Manager :=
  match e !! key with
  | Some existing =>
      if decide (TrimSpace existing ≠ "") then <[key := value +:+ sep +:+ existing]> e
      else <[key := value]> e
  | None => <[key := value]> e
  end.

(** The callback of [Subst]: the value of the variable, or the match
    itself when the variable is not defined. *)
Definition subst_var (get : string → option string) (m : string) (st : unit)
  : string * unit :=
  match get (varName m) with
  | Some val => (val, st)
  | None => (m, st)
  end.

(** The callback of [SubstWarnUndefined], which also appends the name
    of every undefined variable to [undefined]. *)
Definition subst_var_warn (get : string → option string) (m : string)
    (undefined : list string) : string * list string :=
  match get (varName m) with
  | Some val => (val, undefined)
  | None => (m, undefined ++ [varName m])
  end.

(** [Manager.Subst] *)
Definition Subst (e : Manager) (s : string) : string :=
  (ReplaceAllStringFunc (subst_var (Get e)) s tt).1.

(** [Manager.SubstWarnUndefined] *)
Definition SubstWarnUndefined (e : Manager) (s : string) : string * list string :=
  ReplaceAllStringFunc (subst_var_warn (Get e)) s [].

(** One [KEY=VALUE] element of a package's [env] list, as handled by
    [Manager.EnvironmentForPackage]: the value is substituted in the
    environment built so far; an element without [=] is skipped. *)
Definition apply_pkg_env (env : Manager) (envVar : string) : Manager :=
  match cut "=" envVar with
  | Some (key, value) => SetVar key (Subst env value) env
  | None => env
  end.

Section MapOrder.
(** The order in which [range] enumerates a [map[string]string]. *)
Variable range_env : gmap string string → list (string * string).

(** [Manager.AddToEnv(other)]: [other.Set(key, value)] for every entry;
    [set] is the [Set] method of [other]. *)
Definition AddToEnv {O : Type} (set : string → string → O → O) (m : Manager) (other : O) : O :=
  foldl (λ o kv, set kv.1 kv.2 o) other (range_env m).

(** [Manager.ToSlice] *)
Definition ToSlice (e : Manager) : list string :=
  (λ kv, kv.1 +:+ "=" +:+ kv.2) <$> range_env e.

(** [Manager.Clone] *)
Definition Clone (e : Manager) : Manager :=
  foldl (λ c kv, <[kv.1 := kv.2]> c) ∅ (range_env e).

(** [Manager.EnvironmentForPackage] *)
Definition EnvironmentForPackage (e : Manager) (pkgName : string) (pkgEnv : list string)
    (sysroot : string) (makeJobs : Z) : Manager :=
  let env := Clone e in
  let env := SetVar "PKG_NAME" pkgName env in
  let env := if decide (0 < makeJobs) then SetVar "MAKEFLAGS" ("-j" +:+ pretty makeJobs) env
             else env in
  let env :=
    if decide (sysroot ≠ "") then
      let env := PrependToVar "PKG_CONFIG_PATH" (Join [sysroot; "usr"; "lib"; "pkgconfig"]) ":" env in
      let env := SetVar "PKG_CONFIG_SYSROOT_DIR" sysroot env in
      let env := PrependToVar "CFLAGS" ("-I" +:+ sysroot +:+ "/usr/include") " " env in
      let env := PrependToVar "CXXFLAGS" ("-I" +:+ sysroot +:+ "/usr/include") " " env in
      let env := PrependToVar "LDFLAGS"
                   ("-L" +:+ sysroot +:+ "/usr/lib -L" +:+ sysroot +:+ "/lib") " " env in
      let env := PrependToVar "LIBRARY_PATH" (Join [sysroot; "usr"; "lib"]) ":" env in
      let env := PrependToVar "LIBRARY_PATH" (Join [sysroot; "lib"]) ":" env in
      let env := PrependToVar "LD_LIBRARY_PATH" (Join [sysroot; "usr"; "lib"]) ":" env in
      PrependToVar "LD_LIBRARY_PATH" (Join [sysroot; "lib"]) ":" env
    else env in
  foldl apply_pkg_env env pkgEnv.

(** *** mergedEnv: a stack of environments, [envs[0]] on top.  The
    layers are [Manager]s, the other implementation of [Env]. *)

(** [mergedEnv.Get]: the first layer that has the key. *)
Fixpoint MergedGet (envs : list Manager) (key : string) : option string :=
  match envs with
  | [] => None
  | env :: rest =>
      match Get env key with
      | Some val => Some val
      | None => MergedGet rest key
      end
  end.

(** [mergedEnv.Set]: nothing happens without layers. *)
Definition MergedSet (key value : string) (envs : list Manager) : list Manager :=
  match envs with
  | [] => []
  | top :: rest => SetVar key value top :: rest
  end.

(** [mergedEnv.PrependToVar] *)
Definition MergedPrependToVar (key value sep : string) (envs : list Manager)
  : list Manager :=
  match envs with
  | [] => []
  | top :: rest => PrependToVar key value sep top :: rest
  end.

(** [mergedEnv.AddToEnv]: layers are poured into [other] from the last
    to the first. *)
Definition MergedAddToEnv {O : Type} (set : string → string → O → O)
    (envs : list Manager) (other : O) : O :=
  foldl (λ o env, AddToEnv set env o) other (reverse envs).

(** [mergedEnv.Subst] *)
Definition MergedSubst (envs : list Manager) (s : string) : string :=
  (ReplaceAllStringFunc (subst_var (MergedGet envs)) s tt).1.

(** [mergedEnv.SubstWarnUndefined] *)
Definition MergedSubstWarnUndefined (envs : list Manager) (s : string)
  : string * list string :=
  ReplaceAllStringFunc (subst_var_warn (MergedGet envs)) s [].

(** The inner loop body of [mergedEnv.ToSlice]. *)
Definition merge_entry (st : list string * gset string) (kv : string)
  : list string * gset string :=
  match cut "=" kv with
  | Some (key, _) => if decide (key ∈ st.2) then st else (st.1 ++ [kv], {[key]} ∪ st.2)
  | None => st
  end.

(** [mergedEnv.ToSlice]: layers are visited from the last to the
    first, an entry is kept when its key has not been seen, and the
    kept entries are reversed at the end. *)
Definition MergedToSlice (envs : list Manager) : list string :=
  reverse (foldl (λ st env, foldl merge_entry st (ToSlice env)) ([], ∅) (reverse envs)).1.

(** [mergedEnv.Clone] *)
Definition MergedClone (envs : list Manager) : list Manager := Clone <$> envs.

(** The element handling of [mergedEnv.EnvironmentForPackage]: no
    substitution here. *)
Definition apply_pkg_env_raw (env : Manager) (kv : string) : Manager :=
  match cut "=" kv with
  | Some (key, value) => SetVar key value env
  | None => env
  end.

(** [mergedEnv.EnvironmentForPackage]; [penv] is the process
    environment that [NewManager] reads. *)
Definition MergedEnvironmentForPackage (penv : gmap string string) (envs : list Manager)
    (pkgName : string) (pkgEnv : list string) (sysroot : string) (makeJobs : Z) : Manager :=
  let newEnv := MergedAddToEnv SetVar envs (NewManager penv) in
  let newEnv := foldl apply_pkg_env_raw newEnv pkgEnv in
  let newEnv := SetVar "PKG_NAME" pkgName newEnv in
  let newEnv := if decide (sysroot ≠ "") then SetVar "SYSROOT" sysroot newEnv else newEnv in
  if decide (0 < makeJobs) then SetVar "MAKEJOBS" (pretty makeJobs) newEnv else newEnv.
End MapOrder.

(** *** Toolchain binding *)

Definition crossPrefixPrograms : list string :=
  [ "ar"; "as"; "ld"; "nm"; "objcopy"; "objdump"; "ranlib"; "strip";
    "addr2line"; "c++filt"; "dlltool"; "elfedit"; "gprof"; "readelf";
    "size"; "strings"; "gcc"; "g++" ].

(** [programAliases]; the two entries write different variables and
    read variables that neither writes, so the order in which Go
    enumerates this map does not matter. *)
Definition programAliases : list (string * string) :=
  [ ("cc", "gcc"); ("c++", "g++") ].

(** [toolToEnvVar] *)
Definition toolToEnvVar (name : string) : string :=
  replace_byte "+" "X" (replace_byte "-" "_" (ToUpper name)).

Inductive error :=
| ErrAbs. (* "failed to resolve absolute path for toolchain bin: %w" *)

(** [UpdateEnvForToolchain]; [wd] is what [os.Getwd] returns. *)
Definition UpdateEnvForToolchain (wd : option string) (env : Manager) (toolchain : Toolchain)
  : Manager * option error :=
  let env := SetVar "FILE_DIR" (Dir (FilePath toolchain)) env in
  let bin :=
    if decide (Bin toolchain ≠ "") then Abs wd (Subst env (Bin toolchain)) else Some "" in
  match bin with
  | None => (env, Some ErrAbs)
  | Some binPath =>
      let crossPrefixPath := Join [binPath; Subst env (CrossPrefix toolchain)] in
      let env :=
        if decide (CrossPrefix toolchain ≠ "")
        then SetVar "CROSS_PREFIX" (Subst env (CrossPrefix toolchain)) env
        else env in
      let env :=
        foldl (λ e prog, SetVar (toolToEnvVar prog) (crossPrefixPath +:+ prog) e)
              env crossPrefixPrograms in
      let env :=
        foldl (λ e at_, match Get e (toolToEnvVar at_.2) with
                        | Some targetPath => SetVar (toolToEnvVar at_.1) targetPath e
                        | None => e
                        end)
              env programAliases in
      let env :=
        foldl (λ e prog, SetVar (toolToEnvVar prog) (Join [binPath; prog]) e)
              env (ExtraPrograms toolchain) in
      (env, None)
  end.

(** [config.Package.Subst]: the substitution pass over a package. *)
Section PackageSubst.
Variable range_env : gmap string string → list (string * string).

Definition PackageSubst (env : Manager) (p : Package) : Package :=
  let env := Clone range_env env in
  let env := SetVar "PKG_NAME" (Name p) env in
  let env := SetVar "PKG_URL" (URL p) env in
  let env := SetVar "FILE_DIR" (Dir (PackagesFile p)) env in
  mkPackage (Name p) (Subst env (URL p)) (Subst env (Build p)) (Subst env (Install p))
            (Subst env (Config.Clean p)) (Subst env <$> Config.Env p) (DependsOn p)
            (PackagesFile p)
            (Native p).
End PackageSubst.

End Env.

(** * Part II: properties *)

(** ** Facts about catalogs *)

Module ConfigFacts.
Import Config.

Lemma ordered_by_acyclic order c : ordered_by order c = true → acyclic c.
Proof.
  intros Hord.
  assert (∀ n d, dependent_of c n d → (position order n < position order d)%nat)
    as Hstep.
  { intros n d (p & Hp & <- & Hn). unfold ordered_by in Hord.
    rewrite forallb_forall in Hord. apply list_elem_of_In in Hp.
    specialize (Hord p Hp). rewrite forallb_forall in Hord.
    apply list_elem_of_In in Hn. specialize (Hord n Hn).
    by apply bool_decide_eq_true in Hord. }
  assert (∀ n d, tc (dependent_of c) n d → (position order n < position order d)%nat)
    as Htc.
  { intros n d H. induction H as [x y Hxy|x y z Hxy _ IH].
    - by apply Hstep.
    - apply Hstep in Hxy. lia. }
  intros n Hn. apply Htc in Hn. lia.
Qed.

Lemma deps_definedb_true c : deps_definedb c = true ↔ deps_defined c.
Proof.
  unfold deps_definedb, deps_defined. rewrite forallb_forall. split.
  - intros H p d Hp Hd. apply list_elem_of_In in Hp. specialize (H p Hp).
    rewrite forallb_forall in H. apply list_elem_of_In in Hd.
    specialize (H d Hd). by apply bool_decide_eq_true in H.
  - intros H p Hp. apply forallb_forall. intros d Hd.
    apply bool_decide_eq_true. apply (H p d); by apply list_elem_of_In.
Qed.

Lemma chain_catalog_acyclic : acyclic chain_catalog.
Proof. apply (ordered_by_acyclic ["a"; "b"; "c"]). reflexivity. Qed.

End ConfigFacts.

(** ** Facts about the fingerprint cache *)

Module CacheFacts.
Import Config Cache.

(** *** String-slice comparison *)

Lemma slices_eq_from_true (a b : list string) :
  length a = length b → slices_eq_from a b = true ↔ a = b.
Proof.
  revert b. induction a as [|x a IH]; intros [|y b] Hlen; simpl in *; try done.
  case_decide as Hxy.
  - subst y. rewrite IH by lia. split; [by intros ->|]. by intros [= ->].
  - split; [done|]. by intros [= ? ?].
Qed.

Lemma stringSlicesEqual_true (a b : list string) :
  stringSlicesEqual a b = true ↔ a = b.
Proof.
  unfold stringSlicesEqual. case_decide as Hlen.
  - split; [done|]. intros ->. by destruct Hlen.
  - apply slices_eq_from_true. by destruct (decide (length a = length b)).
Qed.

(** The two sequences differ in length or in some element. *)
Definition env_differs (a b : list string) : Prop :=
  length a ≠ length b ∨ ∃ i x y, a !! i = Some x ∧ b !! i = Some y ∧ x ≠ y.

Lemma env_differs_ne (a b : list string) : env_differs a b ↔ a ≠ b.
Proof.
  split.
  - intros [Hlen | (i & x & y & Ha & Hb & Hxy)] ->; [done|]. congruence.
  - intros Hne. destruct (decide (length a = length b)) as [Hlen|]; [|by left].
    right. revert b Hne Hlen.
    induction a as [|x a IH]; intros [|y b] Hne Hlen; simpl in *; try done.
    destruct (decide (x = y)) as [->|Hxy].
    + destruct (IH b) as (i & x' & y' & ? & ? & ?); [congruence|lia|].
      by exists (S i), x', y'.
    + by exists 0%nat, x, y.
Qed.

Lemma stringSlicesEqual_false (a b : list string) :
  stringSlicesEqual a b = false ↔ env_differs a b.
Proof.
  rewrite env_differs_ne, <- stringSlicesEqual_true.
  by destruct (stringSlicesEqual a b).
Qed.

(** *** The rebuild decision *)

Section Rebuild.
Variable quote : string → string.

(** The shared env/host/sysroot comparison reports a change exactly
    when one of the three differs, naming the first that does. *)
Lemma checkCommonCacheChanges_spec cache pkg sysroot host :
  let r := checkCommonCacheChanges quote cache pkg sysroot host in
  (r.1 = true ↔
     env_differs (IEnv cache) (Env pkg) ∨ IHost cache ≠ host ∨ ISysroot cache ≠ sysroot)
  ∧ (env_differs (IEnv cache) (Env pkg) → r.2 = "env vars changed")
  ∧ (¬ env_differs (IEnv cache) (Env pkg) → IHost cache ≠ host →
       r.2 = changed_from quote "host" (IHost cache) host)
  ∧ (¬ env_differs (IEnv cache) (Env pkg) → IHost cache = host →
       ISysroot cache ≠ sysroot →
       r.2 = changed_from quote "sysroot" (ISysroot cache) sysroot).
Proof.
  unfold checkCommonCacheChanges.
  destruct (stringSlicesEqual (IEnv cache) (Env pkg)) eqn:Heq; simpl.
  - apply stringSlicesEqual_true in Heq.
    assert (¬ env_differs (IEnv cache) (Env pkg)) as Hnd
      by (rewrite env_differs_ne; tauto).
    repeat case_decide; simpl; intuition congruence.
  - apply stringSlicesEqual_false in Heq. intuition.
Qed.

End Rebuild.

(** *** Writing the record *)





(** *** The reverse-dependency map *)

Lemma elem_of_concat {A} (x : A) (ls : list (list A)) :
  x ∈ concat ls ↔ ∃ l, x ∈ l ∧ l ∈ ls.
Proof.
  induction ls as [|l ls IH]; simpl.
  - split; [by intros ?%elem_of_nil|]. by intros (l & _ & ?%elem_of_nil).
  - rewrite elem_of_app, IH. split.
    + intros [?|(l' & ? & ?)]; [exists l; split; [done|by left]|].
      exists l'. split; [done|by right].
    + intros (l' & Hx & [->|?]%elem_of_cons); [by left|]. right. by exists l'.
Qed.

(** Number of occurrences of [n] in [l]. *)
Definition occurrences (n : string) (l : list string) : nat :=
  length (filter (λ d, d = n) l).

Lemma occurrences_pos n l : (0 < occurrences n l)%nat ↔ n ∈ l.
Proof.
  unfold occurrences. induction l as [|x l IH]; simpl.
  - split; [lia|]. by intros ?%elem_of_nil.
  - rewrite filter_cons, elem_of_cons. case_decide as Hx; simpl.
    + split; [intros _; by left|lia].
    + rewrite IH. split; [by right|]. by intros [?|?].
Qed.

Lemma add_dependent_lookup name m dep n :
  add_dependent name m dep !!! n =
    if decide (dep = n) then (m !!! n) ++ [name] else m !!! n.
Proof.
  unfold add_dependent. case_decide as Hd.
  - subst. by rewrite lookup_total_insert_eq.
  - by rewrite lookup_total_insert_ne.
Qed.

Lemma add_dependents_lookup name deps m n :
  foldl (add_dependent name) m deps !!! n =
    (m !!! n) ++ replicate (occurrences n deps) name.
Proof.
  unfold occurrences. revert m. induction deps as [|d deps IH]; intros m; simpl.
  - by rewrite app_nil_r.
  - rewrite IH, add_dependent_lookup, filter_cons.
    case_decide; simpl; [|done]. by rewrite <- app_assoc.
Qed.

Lemma directDependents_from_lookup pkgs m n :
  foldl (λ m pkg, foldl (add_dependent (Name pkg)) m (DependsOn pkg)) m pkgs !!! n =
    (m !!! n)
    ++ concat ((λ p, replicate (occurrences n (DependsOn p)) (Name p)) <$> pkgs).
Proof.
  revert m. induction pkgs as [|p pkgs IH]; intros m; simpl.
  - by rewrite app_nil_r.
  - by rewrite IH, add_dependents_lookup, <- app_assoc.
Qed.

Lemma directDependents_lookup cfg n :
  directDependents cfg !!! n =
    concat ((λ p, replicate (occurrences n (DependsOn p)) (Name p)) <$> Packages cfg).
Proof.
  unfold directDependents. rewrite directDependents_from_lookup.
  by rewrite lookup_total_empty.
Qed.

(** The map holds exactly the edges of the reverse-dependency graph. *)
Lemma elem_of_directDependents cfg n d :
  d ∈ directDependents cfg !!! n ↔ dependent_of cfg n d.
Proof.
  rewrite directDependents_lookup. unfold dependent_of.
  rewrite elem_of_concat. split.
  - intros (l & Hd & Hl). apply list_elem_of_fmap in Hl as (p & -> & Hp).
    apply elem_of_replicate in Hd as [-> Hocc].
    exists p. repeat split; [done|]. apply occurrences_pos. lia.
  - intros (p & Hp & <- & Hn). eexists. split; [|apply list_elem_of_fmap; eauto].
    apply elem_of_replicate. split; [done|]. apply occurrences_pos in Hn. lia.
Qed.

(** *** Breadth-first search for dependents *)

Lemma enqueue_all visited deps q r :
  foldl (enqueue visited) (q, r) deps =
    (q ++ filter (λ d, d ∉ visited) deps, r ++ filter (λ d, d ∉ visited) deps).
Proof.
  revert q r. induction deps as [|d deps IH]; intros q r; simpl.
  - by rewrite !app_nil_r.
  - rewrite filter_cons. unfold enqueue at 2. simpl.
    destruct (decide (d ∈ visited)).
    + rewrite decide_False by tauto. apply IH.
    + rewrite decide_True by done. rewrite IH. by rewrite <- !app_assoc.
Qed.

Lemma edges_delete (dd : gmap string (list string)) k l :
  dd !! k = Some l → edges dd = (length l + edges (delete k dd))%nat.
Proof.
  intros Hk. unfold edges.
  apply (map_fold_delete_L (λ _ l acc, (length l + acc)%nat)); [|done].
  intros. lia.
Qed.

(** Termination: with [unvisited] the adjacency restricted to the
    nodes not yet visited, every iteration lowers
    [length queue + edges unvisited]. *)
Lemma bfs_terminates_from dd fuel unvisited visited queue result :
  (∀ n, unvisited !! n = if decide (n ∈ visited) then None else dd !! n) →
  (length queue + edges unvisited ≤ fuel)%nat →
  is_Some (bfs fuel dd visited queue result).
Proof.
  revert unvisited visited queue result.
  induction fuel as [|fuel IH]; intros unvisited visited queue result Hun Hfuel.
  - destruct queue; simpl in *; [by eexists|lia].
  - destruct queue as [|current queue]; simpl in *; [by eexists|].
    case_decide as Hvis.
    + apply (IH unvisited); [done|lia].
    + rewrite enqueue_all. simpl.
      apply (IH (delete current unvisited)).
      * intros n. rewrite lookup_delete. case_decide as Hn.
        -- subst. rewrite decide_True by set_solver. done.
        -- rewrite Hun. repeat case_decide; set_solver.
      * rewrite length_app.
        pose proof (length_filter (λ d, d ∉ {[current]} ∪ visited) (dd !!! current)).
        specialize (Hun current) as Hcur. rewrite decide_False in Hcur by done.
        destruct (dd !! current) as [l|] eqn:Hdd.
        -- rewrite (edges_delete unvisited current l) in Hfuel by done.
           rewrite (lookup_total_correct _ _ _ Hdd) in *. lia.
        -- rewrite delete_id by done.
           rewrite lookup_total_alt, Hdd in *. simpl in *. lia.
Qed.

Lemma bfs_terminates cfg pkgName :
  bfs (bfs_budget (directDependents cfg)) (directDependents cfg) ∅ [pkgName] []
  = Some (findDependents pkgName cfg).
Proof.
  unfold findDependents.
  destruct (bfs_terminates_from (directDependents cfg)
              (bfs_budget (directDependents cfg)) (directDependents cfg) ∅ [pkgName] [])
    as [r Hr].
  - intros n. by rewrite decide_False by set_solver.
  - unfold bfs_budget. simpl. lia.
  - by rewrite Hr.
Qed.

Section Search.
Variable dd : gmap string (list string).
Variable root : string.

(** Edge relation read off the adjacency map. *)
Definition edge (n d : string) : Prop := d ∈ dd !!! n.

(** Soundness: whatever the search reports is a proper transitive
    dependent of the root and is not the root. *)
Lemma bfs_sound fuel visited queue result out :
  bfs fuel dd visited queue result = Some out →
  (∀ x, x ∈ queue → rtc edge root x) →
  (∀ x, x ∈ result → tc edge root x ∧ x ≠ root) →
  (root ∈ visited ∨ ∃ queue', queue = root :: queue') →
  ∀ x, x ∈ out → tc edge root x ∧ x ≠ root.
Proof.
  revert visited queue result.
  induction fuel as [|fuel IH]; intros visited queue result Hrun Hq Hr Hroot;
    destruct queue as [|current queue]; simpl in Hrun; try done.
  - by injection Hrun as <-.
  - by injection Hrun as <-.
  - case_decide as Hvis.
    + apply (IH _ _ _ Hrun); [set_solver|done|].
      left. destruct Hroot as [|(? & [= <- _])]; done.
    + rewrite enqueue_all in Hrun. simpl in Hrun.
      assert (root ∈ ({[current]} ∪ visited : gset string)) as Hroot'.
      { destruct Hroot as [|(? & [= <- _])]; set_solver. }
      assert (∀ d, d ∈ filter (λ d, d ∉ {[current]} ∪ visited) (dd !!! current) →
                   tc edge root d ∧ d ≠ root) as Hnew.
      { intros d [Hd1 Hd2]%list_elem_of_filter. split; [|set_solver].
        eapply tc_rtc_l; [apply Hq; left|]. by apply tc_once. }
      apply (IH _ _ _ Hrun).
      * intros x [?|?]%elem_of_app; [apply Hq; by right|].
        apply tc_rtc. by apply Hnew.
      * intros x [?|?]%elem_of_app; auto.
      * by left.
Qed.

(** A set that contains [x] and is closed under edges contains
    everything reachable from [x]. *)
Lemma closed_reach (V : gset string) x d :
  (∀ n d, n ∈ V → edge n d → d ∈ V) → x ∈ V → rtc edge x d → d ∈ V.
Proof.
  intros Hc Hx Hd. induction Hd as [|x y z Hxy _ IH]; [done|].
  apply IH. by apply (Hc x).
Qed.

Lemma bfs_complete_done (visited : gset string) (result : list string) :
  (∀ n d, n ∈ visited → edge n d → d ∈ visited ∨ d ∈ ([] : list string)) →
  (∀ x, x ∈ visited ∨ x ∈ ([] : list string) → x = root ∨ x ∈ result) →
  (root ∈ visited ∨ root ∈ ([] : list string)) →
  ∀ d, rtc edge root d → d = root ∨ d ∈ result.
Proof.
  intros Hclosed Hseen Hroot d Hd. apply Hseen. left.
  apply (closed_reach visited root d); [|by destruct Hroot as [|?%elem_of_nil]|done].
  intros n d' Hn Hnd. by destruct (Hclosed n d' Hn Hnd) as [|?%elem_of_nil].
Qed.

(** Completeness: the search misses no transitive dependent. *)
Lemma bfs_complete fuel visited queue result out :
  bfs fuel dd visited queue result = Some out →
  (∀ n d, n ∈ visited → edge n d → d ∈ visited ∨ d ∈ queue) →
  (∀ x, x ∈ visited ∨ x ∈ queue → x = root ∨ x ∈ result) →
  (root ∈ visited ∨ root ∈ queue) →
  ∀ d, rtc edge root d → d = root ∨ d ∈ out.
Proof.
  revert visited queue result.
  induction fuel as [|fuel IH]; intros visited queue result Hrun Hclosed Hseen Hroot;
    destruct queue as [|current queue]; simpl in Hrun; try done.
  1,2: injection Hrun as <-; by eapply bfs_complete_done.
  case_decide as Hvis.
  - apply (IH _ _ _ Hrun).
    + intros n d Hn Hnd. destruct (Hclosed n d Hn Hnd) as [|Hd]; [by left|].
      apply elem_of_cons in Hd as [->|]; auto.
    + intros x [?|?]; apply Hseen; [by left|right; by right].
    + destruct Hroot as [|[->|]%elem_of_cons]; auto.
  - rewrite enqueue_all in Hrun. simpl in Hrun.
    apply (IH _ _ _ Hrun).
    + intros n d Hn Hnd.
      destruct (decide (d ∈ ({[current]} ∪ visited : gset string))) as [|Hnew];
        [by left|].
      right. apply elem_of_app.
      apply elem_of_union in Hn as [->%elem_of_singleton|Hn].
      * right. by apply list_elem_of_filter.
      * destruct (Hclosed n d Hn Hnd) as [Hd|Hd].
        -- destruct Hnew. apply elem_of_union. by right.
        -- apply elem_of_cons in Hd as [->|Hd]; [|by left].
           destruct Hnew. apply elem_of_union. left. by apply elem_of_singleton.
    + intros x Hx. rewrite elem_of_app. destruct Hx as [Hx|Hx].
      * apply elem_of_union in Hx as [->%elem_of_singleton|Hx].
        -- destruct (Hseen current) as [|]; [right; by left|by left|right; by left].
        -- destruct (Hseen x (or_introl Hx)) as [|]; [by left|right; by left].
      * apply elem_of_app in Hx as [Hx|Hx]; [|right; by right].
        destruct (Hseen x) as [|]; [right; by right|by left|right; by left].
    + destruct Hroot as [Hr|Hr]; [left; apply elem_of_union; by right|].
      apply elem_of_cons in Hr as [->|Hr].
      * left. apply elem_of_union. left. by apply elem_of_singleton.
      * right. apply elem_of_app. by left.
Qed.
End Search.

Lemma tc_mono {A} (R1 R2 : relation A) x y :
  (∀ a b, R1 a b → R2 a b) → tc R1 x y → tc R2 x y.
Proof.
  intros Hsub H. induction H as [a b Hab|a b c Hab _ IH].
  - apply tc_once. by apply Hsub.
  - eapply tc_l; [by apply Hsub|done].
Qed.

Lemma edge_dependent_of cfg n d :
  edge (directDependents cfg) n d ↔ dependent_of cfg n d.
Proof. apply elem_of_directDependents. Qed.

Lemma tc_edge_dependent_of cfg n d :
  tc (edge (directDependents cfg)) n d ↔ tc (dependent_of cfg) n d.
Proof.
  split; apply tc_mono; intros x y; by rewrite edge_dependent_of.
Qed.

(** [findDependents] returns exactly the proper transitive dependents
    of the package, never the package itself. *)
Lemma findDependents_sound cfg p d :
  d ∈ findDependents p cfg → tc (dependent_of cfg) p d ∧ d ≠ p.
Proof.
  intros Hd. rewrite <- tc_edge_dependent_of.
  eapply (bfs_sound _ p _ _ _ _ _ (bfs_terminates cfg p)); [| | |done].
  - by intros x ->%list_elem_of_singleton.
  - by intros x ?%elem_of_nil.
  - right. by eexists.
Qed.

Lemma findDependents_complete cfg p d :
  tc (dependent_of cfg) p d → d ≠ p → d ∈ findDependents p cfg.
Proof.
  intros Hd Hne. rewrite <- tc_edge_dependent_of in Hd.
  pose proof (bfs_complete _ p _ _ _ _ _ (bfs_terminates cfg p)) as Hc.
  destruct (Hc) with (d := d) as [?|?]; try done.
  - intros x [?%elem_of_empty| ->%list_elem_of_singleton]; [done|by left].
  - right. by left.
  - by apply tc_rtc.
Qed.

(** *** Invalidation *)

Lemma Invalidate_spec fs name :
  let r := Invalidate fs name in
  source_trees r.1 = source_trees fs
  ∧ readonly r.1 = readonly fs
  ∧ (∀ other, other ≠ name → cache_files r.1 !! other = cache_files fs !! other)
  ∧ (cache_files r.1 !! name = cache_files fs !! name ∨ cache_files r.1 !! name = None)
  ∧ (r.2 = None → cache_files r.1 !! name = None).
Proof.
  unfold Invalidate. destruct (cache_files fs !! name) eqn:Hfile; simpl.
  - case_decide; simpl; repeat split; auto; try done.
    + intros. by rewrite lookup_delete_ne.
    + right. apply lookup_delete_eq.
    + intros _. apply lookup_delete_eq.
  - repeat split; auto.
Qed.

Lemma invalidate_each_spec dependents fs :
  let r := invalidate_each fs dependents in
  source_trees r.1 = source_trees fs
  ∧ readonly r.1 = readonly fs
  ∧ (∀ x, x ∉ dependents → cache_files r.1 !! x = cache_files fs !! x)
  ∧ (∀ x, cache_files r.1 !! x = cache_files fs !! x ∨ cache_files r.1 !! x = None)
  ∧ (r.2 = None → ∀ x, x ∈ dependents → cache_files r.1 !! x = None).
Proof.
  revert fs. induction dependents as [|d rest IH]; intros fs; simpl.
  { repeat split; auto. by intros _ x ?%elem_of_nil. }
  pose proof (Invalidate_spec fs d) as (Hs & Hro & Hother & Hsame & Hgone).
  destruct (Invalidate fs d) as [fs' [e|]] eqn:Hinv; simpl in *.
  { repeat split; try done.
    - intros x Hx. apply Hother. set_solver.
    - intros x. destruct (decide (x = d)) as [->|]; [done|]. left. by apply Hother. }
  specialize (IH fs') as (IHs & IHro & IHother & IHsame & IHgone).
  repeat split.
  - congruence.
  - congruence.
  - intros x Hx. rewrite IHother by set_solver. apply Hother. set_solver.
  - intros x. destruct (IHsame x) as [Hx|]; [|by right]. rewrite Hx.
    destruct (decide (x = d)) as [->|]; [done|]. left. by apply Hother.
  - intros Hok x [->|Hx]%elem_of_cons; [|by apply IHgone].
    destruct (IHsame d) as [Hd|]; [|done]. rewrite Hd. by apply Hgone.
Qed.


(** C3.  In a catalog whose dependency graph is acyclic, once
    [InvalidateDependents p] has returned without error, no
    transitive dependent of [p] has a cache file any more, and no
    source tree has been touched. *)
Theorem InvalidateDependents_clears_dependents
    (fs fs' : FS) (p : string) (cfg : Config) :
  acyclic cfg →
  InvalidateDependents fs p cfg = (fs', None) →
  (∀ d, tc (dependent_of cfg) p d → cache_files fs' !! d = None)
  ∧ source_trees fs' = source_trees fs.
Proof.
  intros Hacyclic Hrun. unfold InvalidateDependents in Hrun.
  pose proof (invalidate_each_spec (findDependents p cfg) fs)
    as (Hsrc & _ & _ & _ & Hgone).
  rewrite Hrun in *. simpl in *. split; [|done].
  intros d Hd. apply Hgone; [done|].
  apply findDependents_complete; [done|].
  intros ->. by apply (Hacyclic p).
Qed.


(** *** Concrete instances *)

(** A build directory in which [a] has been built and installed and
    [b], [c] have cache files from an earlier run. *)
Definition built_fs : FS :=
  mkFS {[ "a" := Parsed (mkInfo "http://a" "make" "make install" [] "x86_64-linux" "/sys");
          "b" := Parsed (mkInfo "http://b" "make" "make install" [] "x86_64-linux" "/sys");
          "c" := Parsed (mkInfo "http://c" "make" "make install" [] "x86_64-linux" "/sys") ]}
       {[ "a" := ["configure"; "Makefile"]; "b" := ["Makefile"] ]}
       ∅.

Definition pkg_a : Package := simple_package "a" "http://a" "make" "make install" [].



Lemma InvalidateDependents_clears_dependents_witness :
  acyclic chain_catalog
  ∧ (InvalidateDependents built_fs "a" chain_catalog).2 = None
  ∧ cache_files (InvalidateDependents built_fs "a" chain_catalog).1 !! "c" = None
  ∧ source_trees (InvalidateDependents built_fs "a" chain_catalog).1
    = source_trees built_fs.
Proof.
  assert (InvalidateDependents built_fs "a" chain_catalog
          = ((InvalidateDependents built_fs "a" chain_catalog).1, None)) as Hrun.
  { by vm_compute. }
  destruct (InvalidateDependents_clears_dependents _ _ _ _
              ConfigFacts.chain_catalog_acyclic Hrun) as [Hgone Hsrc].
  split; [exact ConfigFacts.chain_catalog_acyclic|].
  split; [by vm_compute|]. split; [|exact Hsrc].
  apply Hgone. apply (tc_l _ "a" "b" "c").
  - exists (simple_package "b" "http://b" "make" "make install" ["a"]).
    repeat split; [|by left]. right; by left.
  - apply tc_once.
    exists (simple_package "c" "http://c" "make" "make install" ["b"]).
    repeat split; [|by left]. right; right; by left.
Defined.

End CacheFacts.

(** ** Facts about the dependency resolver *)

Module BuildFacts.
Import Config Build.
Import CacheFacts.

(** *** Counting occurrences *)

Lemma occurrences_cons n d l :
  occurrences n (d :: l) = ((if decide (d = n) then 1 else 0) + occurrences n l)%nat.
Proof. unfold occurrences. rewrite filter_cons. by case_decide. Qed.

Lemma occurrences_app n l1 l2 :
  occurrences n (l1 ++ l2) = (occurrences n l1 + occurrences n l2)%nat.
Proof. unfold occurrences. by rewrite filter_app, length_app. Qed.

Lemma occurrences_replicate n k x :
  occurrences n (replicate k x) = if decide (x = n) then k else 0%nat.
Proof.
  induction k as [|k IH]; simpl; [by case_decide|].
  rewrite occurrences_cons, IH. by case_decide.
Qed.

Lemma occurrences_concat n (ls : list (list string)) :
  occurrences n (concat ls) = sum_list (occurrences n <$> ls).
Proof.
  induction ls as [|l ls IH]; csimpl; [done|]. by rewrite occurrences_app, IH.
Qed.

(** In a list with distinct names, summing a quantity over the
    packages called [Name p] picks out [p]. *)
Lemma sum_over_other_names (f : Package → nat) pkgs n :
  n ∉ Name <$> pkgs →
  sum_list ((λ p', if decide (Name p' = n) then f p' else 0%nat) <$> pkgs) = 0%nat.
Proof.
  induction pkgs as [|r pkgs IH]; csimpl; [done|].
  intros [Hne Hq]%not_elem_of_cons.
  rewrite decide_False by done. by rewrite IH.
Qed.

Lemma sum_over_name (f : Package → nat) pkgs p :
  NoDup (Name <$> pkgs) → p ∈ pkgs →
  sum_list ((λ p', if decide (Name p' = Name p) then f p' else 0%nat) <$> pkgs) = f p.
Proof.
  induction pkgs as [|q pkgs IH]; intros Hnd Hp; [by apply elem_of_nil in Hp|].
  rewrite fmap_cons in Hnd. apply NoDup_cons in Hnd as [Hq Hnd]. csimpl.
  apply elem_of_cons in Hp as [->|Hp].
  - rewrite decide_True by done. rewrite sum_over_other_names by done. lia.
  - rewrite decide_False; [by rewrite IH|].
    intros Heq. apply Hq. rewrite Heq. by apply list_elem_of_fmap_2.
Qed.

Lemma sum_indicator (d : string) (Q : list string) :
  NoDup Q →
  sum_list ((λ q, if decide (d = q) then 1%nat else 0%nat) <$> Q)
  = if decide (d ∈ Q) then 1%nat else 0%nat.
Proof.
  induction Q as [|q Q IH]; intros Hnd; csimpl; [done|].
  apply NoDup_cons in Hnd as [Hq Hnd]. rewrite IH by done.
  destruct (decide (d = q)) as [->|Hne].
  - rewrite (decide_False (P := q ∈ Q)) by done.
    rewrite decide_True; [done|by left].
  - destruct (decide (d ∈ Q)).
    + rewrite decide_True; [done|by right].
    + rewrite decide_False; [done|]. by intros [?|?]%elem_of_cons.
Qed.

(** Over a duplicate-free [Q], the occurrences in [deps] of the members
    of [Q] add up to the number of entries of [deps] that lie in [Q]. *)
Lemma sum_occurrences_members (deps Q : list string) :
  NoDup Q →
  sum_list ((λ q, occurrences q deps) <$> Q) = length (filter (λ d, d ∈ Q) deps).
Proof.
  intros Hnd. induction deps as [|d deps IH].
  - simpl. clear Hnd. induction Q as [|q Q IHQ]; csimpl; [done|]. by rewrite IHQ.
  - rewrite filter_cons.
    assert (sum_list ((λ q, occurrences q (d :: deps)) <$> Q)
            = (sum_list ((λ q, if decide (d = q) then 1%nat else 0%nat) <$> Q)
               + sum_list ((λ q, occurrences q deps) <$> Q))%nat) as ->.
    { clear. induction Q as [|q Q IHQ]; csimpl; [done|].
      rewrite IHQ, occurrences_cons. lia. }
    rewrite sum_indicator, IH by done. by case_decide.
Qed.

Lemma filter_split (P Q : list string) (l : list string) :
  (∀ d, d ∈ Q → d ∉ P) →
  (length (filter (λ d, d ∉ P ++ Q) l) + length (filter (λ d, d ∈ Q) l))%nat
  = length (filter (λ d, d ∉ P) l).
Proof.
  intros Hdisj. induction l as [|d l IH]; [done|].
  rewrite !filter_cons.
  destruct (decide (d ∈ Q)) as [HQ|HQ].
  - rewrite (decide_True (P := d ∉ P)) by by apply Hdisj.
    rewrite decide_False; [simpl; lia|].
    intros Hn. apply Hn, elem_of_app. by right.
  - destruct (decide (d ∈ P)) as [HP|HP].
    + rewrite (decide_False (P := d ∉ P)) by tauto.
      rewrite decide_False; [done|]. intros Hn. apply Hn, elem_of_app. by left.
    + rewrite (decide_True (P := d ∉ P)) by done.
      rewrite decide_True; [simpl; lia|]. by intros [?|?]%elem_of_app.
Qed.

(** *** The graph built by [GetBuildOrder] *)

Lemma add_edges_all pkgs rg deg :
  foldl add_edges (rg, deg) pkgs =
    (foldl (λ m pkg, foldl (Cache.add_dependent (Name pkg)) m (DependsOn pkg)) rg pkgs,
     foldl (λ m pkg, <[Name pkg := Z.of_nat (length (DependsOn pkg))]> m) deg pkgs).
Proof.
  revert rg deg. induction pkgs as [|p pkgs IH]; intros rg deg; simpl; [done|].
  unfold add_edges at 2. simpl. apply IH.
Qed.

(** The reverse adjacency is the one the cache computes. *)
Lemma reverseGraph_eq cfg :
  (foldl add_edges (∅, ∅) (Packages cfg)).1 = Cache.directDependents cfg.
Proof. by rewrite add_edges_all. Qed.

Lemma inDegree_from_lookup pkgs (deg : gmap string Z) n :
  foldl (λ m pkg, <[Name pkg := Z.of_nat (length (DependsOn pkg))]> m) deg pkgs !! n =
    match last (filter (λ p, Name p = n) pkgs) with
    | Some p => Some (Z.of_nat (length (DependsOn p)))
    | None => deg !! n
    end.
Proof.
  revert deg. induction pkgs as [|p pkgs IH]; intros deg; simpl; [done|].
  rewrite IH, filter_cons. case_decide as Hp.
  - destruct (filter (λ p0, Name p0 = n) pkgs) as [|q l] eqn:Hf; simpl.
    + subst n. by rewrite lookup_insert_eq.
    + destruct (last (q :: l)) eqn:Hl; [done|]. by apply last_None in Hl.
  - destruct (last (filter (λ p0, Name p0 = n) pkgs)); [done|].
    by rewrite lookup_insert_ne.
Qed.

(** With distinct names, the in-degree of a package is the length of
    its dependency list, and the keys are exactly the names. *)
Lemma inDegree_lookup cfg p :
  NoDup (names cfg) → p ∈ Packages cfg →
  (foldl add_edges (∅, ∅) (Packages cfg)).2 !! Name p
  = Some (Z.of_nat (length (DependsOn p))).
Proof.
  intros Hnd Hp. rewrite add_edges_all. simpl. rewrite inDegree_from_lookup.
  assert (filter (λ q, Name q = Name p) (Packages cfg) = [p]) as ->; [|done].
  unfold names in Hnd. induction (Packages cfg) as [|q pkgs IH]; [by apply elem_of_nil in Hp|].
  rewrite fmap_cons in Hnd. apply NoDup_cons in Hnd as [Hq Hnd].
  rewrite filter_cons. apply elem_of_cons in Hp as [->|Hp].
  - rewrite decide_True by done. f_equal.
    clear IH Hnd. induction pkgs as [|r pkgs IH]; [done|].
    rewrite fmap_cons in Hq. apply not_elem_of_cons in Hq as [Hne Hq].
    rewrite filter_cons, decide_False by done. by apply IH.
  - rewrite decide_False; [by apply IH|].
    intros Heq. apply Hq. rewrite Heq. by apply list_elem_of_fmap_2.
Qed.

Lemma inDegree_keys cfg n :
  is_Some ((foldl add_edges (∅, ∅) (Packages cfg)).2 !! n) ↔ n ∈ names cfg.
Proof.
  rewrite add_edges_all. simpl. rewrite inDegree_from_lookup. unfold names.
  destruct (last (filter (λ p, Name p = n) (Packages cfg))) as [p|] eqn:Hlast.
  - split; [intros _|by eexists].
    apply last_Some in Hlast as [l Hl].
    assert (p ∈ filter (λ p, Name p = n) (Packages cfg)) as Hp.
    { rewrite Hl. apply elem_of_app. right. by left. }
    apply list_elem_of_filter in Hp as [<- Hp]. by apply list_elem_of_fmap_2.
  - rewrite lookup_empty. split; [by intros [? ?]|].
    intros (p & -> & Hp)%list_elem_of_fmap.
    apply last_None in Hlast.
    assert (p ∈ filter (λ q, Name q = Name p) (Packages cfg)) as Hin
      by (by apply list_elem_of_filter).
    rewrite Hlast in Hin. by apply elem_of_nil in Hin.
Qed.

(** Occurrences of a package in the dependents of [q] = occurrences
    of [q] among that package's dependencies. *)
Lemma occurrences_dependents cfg p q :
  NoDup (names cfg) → p ∈ Packages cfg →
  occurrences (Name p) (Cache.directDependents cfg !!! q) = occurrences q (DependsOn p).
Proof.
  intros Hnd Hp. rewrite directDependents_lookup, occurrences_concat.
  rewrite <- list_fmap_compose.
  rewrite <- (sum_over_name (λ p', occurrences q (DependsOn p')) (Packages cfg) p Hnd Hp).
  f_equal. apply list_fmap_ext. intros _ p' _. simpl.
  by rewrite occurrences_replicate.
Qed.

(** All dependents are catalog names. *)
Lemma dependents_are_names cfg q n :
  n ∈ Cache.directDependents cfg !!! q → n ∈ names cfg.
Proof.
  intros (p & Hp & <- & _)%elem_of_directDependents. by apply list_elem_of_fmap_2.
Qed.

(** *** One round of in-degree decrements *)

Lemma relax_step deg nq d :
  relax (deg, nq) d =
    (<[d := deg !!! d - 1]> deg, nq ++ (if decide (deg !!! d = 1) then [d] else [])).
Proof.
  unfold relax. simpl. rewrite lookup_total_insert_eq.
  destruct (decide (deg !!! d = 1)) as [H1|H1].
  - rewrite decide_True by lia. done.
  - rewrite decide_False by lia. by rewrite app_nil_r.
Qed.

(** Decrementing along [ds] lowers each entry by its number of
    occurrences, and appends to the queue, once each, exactly the
    names whose positive in-degree is used up. *)
Lemma relax_all ds (deg : gmap string Z) (nq : list string) :
  ∃ added,
    (foldl relax (deg, nq) ds).2 = nq ++ added
    ∧ (∀ n, (foldl relax (deg, nq) ds).1 !!! n
            = deg !!! n - Z.of_nat (occurrences n ds))
    ∧ NoDup added
    ∧ (∀ n, n ∈ added ↔ 0 < deg !!! n ≤ Z.of_nat (occurrences n ds)).
Proof.
  revert deg nq. induction ds as [|d ds IH]; intros deg nq.
  - exists []. unfold occurrences. simpl. split; [by rewrite app_nil_r|].
    split; [intros; lia|].
    split; [constructor|]. intros n. split; [by intros ?%elem_of_nil|]. lia.
  - simpl. rewrite relax_step.
    destruct (IH (<[d := deg !!! d - 1]> deg)
                (nq ++ (if decide (deg !!! d = 1) then [d] else [])))
      as (added & Hq & Hdeg & Hnd & Hin).
    assert (∀ n, <[d := deg !!! d - 1]> deg !!! n
                 = deg !!! n - (if decide (d = n) then 1 else 0)) as Hd1.
    { intros n. destruct (decide (d = n)) as [->|Hdn].
      - by rewrite lookup_total_insert_eq.
      - rewrite lookup_total_insert_ne by done. lia. }
    exists ((if decide (deg !!! d = 1) then [d] else []) ++ added).
    split; [by rewrite Hq, app_assoc|].
    split.
    { intros n. rewrite Hdeg, Hd1, occurrences_cons. destruct (decide (d = n)); lia. }
    split.
    { destruct (decide (deg !!! d = 1)) as [H1|H1]; [|done].
      simpl. apply NoDup_cons. split; [|done].
      rewrite Hin, Hd1. rewrite decide_True by done. lia. }
    intros n. rewrite elem_of_app, Hin, Hd1, occurrences_cons.
    destruct (decide (d = n)) as [->|Hdn].
    + destruct (decide (deg !!! n = 1)) as [H1|H1].
      * rewrite list_elem_of_singleton. split; [|by left]. intros _. lia.
      * split; [intros [?%elem_of_nil|?]; [done|lia]|]. intros ?. right. lia.
    + split.
      * intros [Hn|?]; [|lia].
        destruct (decide (deg !!! d = 1)); [|by apply elem_of_nil in Hn].
        by apply list_elem_of_singleton in Hn.
      * intros ?. right. lia.
Qed.

(** The dependents met while visiting a queue, in order. *)
Definition dependents_of_queue (rg : gmap string (list string)) (queue : list string)
  : list string :=
  concat ((λ name, rg !!! name) <$> queue).

Lemma visit_all rg queue (deg : gmap string Z) (nq : list string) (k : Z) :
  foldl (visit rg) (deg, nq, k) queue =
    ((foldl relax (deg, nq) (dependents_of_queue rg queue)).1,
     (foldl relax (deg, nq) (dependents_of_queue rg queue)).2,
     k + Z.of_nat (length queue)).
Proof.
  revert deg nq k. induction queue as [|q queue IH]; intros deg nq k.
  - simpl. f_equal. lia.
  - simpl. unfold visit at 2. simpl. rewrite IH.
    unfold dependents_of_queue. csimpl. rewrite foldl_app.
    destruct (foldl relax (deg, nq) (rg !!! q)) as [deg1 nq1]. simpl.
    f_equal. lia.
Qed.

Lemma occurrences_queue cfg p Q :
  NoDup (names cfg) → p ∈ Packages cfg → NoDup Q →
  occurrences (Name p) (dependents_of_queue (Cache.directDependents cfg) Q)
  = length (filter (λ d, d ∈ Q) (DependsOn p)).
Proof.
  intros Hnd Hp HQ. unfold dependents_of_queue.
  rewrite occurrences_concat, <- list_fmap_compose.
  rewrite <- sum_occurrences_members by done.
  f_equal. apply list_fmap_ext. intros _ q _. simpl.
  by apply occurrences_dependents.
Qed.

(** *** The loop invariant

    [P] are the names already emitted, [Q] is the current queue:
    together they are duplicate-free catalog names, every in-degree
    counts the dependency entries not yet emitted, and [P ++ Q] are
    exactly the names whose in-degree is zero. *)
Definition Inv (cfg : Config) (P Q : list string) (deg : gmap string Z) : Prop :=
  NoDup (P ++ Q)
  ∧ (∀ n, n ∈ P ++ Q → n ∈ names cfg)
  ∧ (∀ p, p ∈ Packages cfg →
       deg !!! Name p = Z.of_nat (length (filter (λ d, d ∉ P) (DependsOn p))))
  ∧ (∀ n, n ∈ names cfg → n ∈ P ++ Q ↔ deg !!! n = 0).

Lemma Inv_step cfg P Q deg :
  NoDup (names cfg) →
  Inv cfg P Q deg →
  Inv cfg (P ++ Q)
      (foldl relax (deg, []) (dependents_of_queue (Cache.directDependents cfg) Q)).2
      (foldl relax (deg, []) (dependents_of_queue (Cache.directDependents cfg) Q)).1.
Proof.
  intros Hnames (Hnd & Hsub & Hdeg & Hzero).
  destruct (relax_all (dependents_of_queue (Cache.directDependents cfg) Q) deg [])
    as (added & -> & Hdeg' & Hnd' & Hin).
  simpl.
  apply NoDup_app in Hnd as (HndP & Hdisj & HndQ).
  assert (∀ d, d ∈ Q → d ∉ P) as Hdisj' by (intros d HQ HP; by apply (Hdisj d)).
  assert (∀ p, p ∈ Packages cfg →
            Z.of_nat (occurrences (Name p)
                        (dependents_of_queue (Cache.directDependents cfg) Q))
            ≤ deg !!! Name p
            ∧ (foldl relax (deg, []) (dependents_of_queue (Cache.directDependents cfg) Q)).1
                !!! Name p
              = Z.of_nat (length (filter (λ d, d ∉ P ++ Q) (DependsOn p)))) as Hp.
  { intros p Hp. rewrite Hdeg', Hdeg by done. rewrite occurrences_queue by done.
    pose proof (filter_split P Q (DependsOn p) Hdisj'). lia. }
  assert (∀ n, n ∈ added → n ∈ names cfg) as Hadded.
  { intros n Hn. apply Hin in Hn as [Hpos Hocc].
    assert (n ∈ dependents_of_queue (Cache.directDependents cfg) Q) as Hflat.
    { apply occurrences_pos. lia. }
    apply elem_of_concat in Hflat as (l & Hn & Hl).
    apply list_elem_of_fmap in Hl as (q & -> & _).
    by eapply dependents_are_names. }
  split; [|split; [|split]].
  - apply NoDup_app. split; [by apply NoDup_app|]. split; [|done].
    intros n Hn Hn'. pose proof (Hadded n Hn') as Hname.
    apply Hin in Hn' as [Hpos _]. apply Hzero in Hn; [lia|done].
  - intros n [Hn|Hn]%elem_of_app; [by apply Hsub|by apply Hadded].
  - intros p Hp'. by apply Hp.
  - intros n Hn. pose proof Hn as (p & -> & Hp')%list_elem_of_fmap.
    destruct (Hp p Hp') as [Hle Heq]. rewrite Hdeg' in *.
    rewrite elem_of_app, Hin, (Hzero _ Hn). lia.
Qed.

Lemma filter_none_length {A} (P : A → Prop) `{∀ x, Decision (P x)} (l : list A) :
  length (filter P l) = 0%nat ↔ ∀ x, x ∈ l → ¬ P x.
Proof.
  induction l as [|x l IH]; simpl.
  - split; [|done]. by intros _ x ?%elem_of_nil.
  - rewrite filter_cons. destruct (decide (P x)) as [HP|HP]; simpl.
    + split; [lia|]. intros Hall. destruct (Hall x); [by left|done].
    + rewrite IH. split.
      * intros Hall y [->|Hy]%elem_of_cons; [done|by apply Hall].
      * intros Hall y Hy. apply Hall. by right.
Qed.

Lemma filter_all {A} (P : A → Prop) `{∀ x, Decision (P x)} (l : list A) :
  (∀ x, x ∈ l → P x) → filter P l = l.
Proof.
  induction l as [|x l IH]; intros Hall; [done|].
  rewrite filter_cons, decide_True by (apply Hall; by left).
  f_equal. apply IH. intros y Hy. apply Hall. by right.
Qed.

(** A package is ready once it has not been emitted and all of its
    dependencies have. *)
Definition ready (emitted : list string) (p : Package) : Prop :=
  Name p ∉ emitted ∧ ∀ d, d ∈ DependsOn p → d ∈ emitted.

(** Under the invariant the queue holds exactly the ready packages. *)
Lemma Inv_queue_ready cfg P Q deg p :
  Inv cfg P Q deg → p ∈ Packages cfg → Name p ∈ Q ↔ ready P p.
Proof.
  intros (Hnd & Hsub & Hdeg & Hzero) Hp.
  assert (Name p ∈ names cfg) as Hn by (by apply list_elem_of_fmap_2).
  apply NoDup_app in Hnd as (_ & Hdisj & _).
  specialize (Hzero _ Hn). rewrite (Hdeg p Hp) in Hzero.
  assert (length (filter (λ d, d ∉ P) (DependsOn p)) = 0%nat
          ↔ ∀ d, d ∈ DependsOn p → d ∈ P) as Hall.
  { rewrite filter_none_length. split; intros Hall d Hd.
    - destruct (decide (d ∈ P)); [done|]. by destruct (Hall d Hd).
    - intros Hnot. by apply Hnot, Hall. }
  unfold ready. rewrite <- Hall. rewrite elem_of_app in Hzero. split.
  - intros HQ. split; [intros HP; by apply (Hdisj (Name p))|].
    assert (Z.of_nat (length (filter (λ d, d ∉ P) (DependsOn p))) = 0) by (apply Hzero; by right).
    lia.
  - intros [HnP Hlen]. destruct Hzero as [_ [|]]; [lia|done|done].
Qed.

(** The levels emitted so far are exact: level [j] is non-empty and
    holds precisely the packages that are ready once levels [0..j-1]
    are done. *)
Definition Exact (cfg : Config) (levels : list (list string)) : Prop :=
  ∀ j L, levels !! j = Some L →
    L ≠ []
    ∧ (∀ n, n ∈ L → n ∈ names cfg)
    ∧ ∀ p, p ∈ Packages cfg → Name p ∈ L ↔ ready (concat (take j levels)) p.

Lemma Exact_snoc cfg result Q deg :
  Q ≠ [] → Inv cfg (concat result) Q deg → Exact cfg result → Exact cfg (result ++ [Q]).
Proof.
  intros HQ HInv Hex j L Hj.
  apply lookup_app_Some in Hj as [Hj|[Hlen Hj]].
  - rewrite take_app_le by (apply lookup_lt_Some in Hj; lia). by apply Hex.
  - apply list_lookup_singleton_Some in Hj as [Hj <-].
    assert (j = length result) as -> by lia. rewrite take_app_length.
    split; [done|]. split.
    + intros n Hn. destruct HInv as (_ & Hsub & _). apply Hsub, elem_of_app. by right.
    + intros p Hp. by eapply Inv_queue_ready.
Qed.

Lemma Inv_length cfg P Q deg :
  Inv cfg P Q deg → (length P + length Q ≤ length (names cfg))%nat.
Proof.
  intros (Hnd & Hsub & _). rewrite <- length_app.
  apply submseteq_length, NoDup_submseteq; done.
Qed.

Lemma levels_loop_unfold fuel rg deg q Q result k :
  levels_loop (S fuel) rg deg (q :: Q) result k =
    levels_loop fuel rg
      (foldl relax (deg, []) (dependents_of_queue rg (q :: Q))).1
      (foldl relax (deg, []) (dependents_of_queue rg (q :: Q))).2
      (result ++ [q :: Q]) (k + Z.of_nat (length (q :: Q))).
Proof. cbn [levels_loop]. by rewrite visit_all. Qed.

(** Partial correctness of the loop. *)
Lemma levels_loop_spec cfg fuel deg Q result k out k' :
  NoDup (names cfg) →
  levels_loop fuel (Cache.directDependents cfg) deg Q result k = Some (out, k') →
  Inv cfg (concat result) Q deg →
  Exact cfg result →
  k = Z.of_nat (length (concat result)) →
  (∃ degf, Inv cfg (concat out) [] degf)
  ∧ Exact cfg out
  ∧ k' = Z.of_nat (length (concat out)).
Proof.
  intros Hnames. revert deg Q result k.
  induction fuel as [|fuel IH]; intros deg Q result k Hrun HInv Hex Hk;
    destruct Q as [|q Q]; try done.
  1,2: simpl in Hrun; injection Hrun as <- <-; split; [by exists deg|done].
  rewrite levels_loop_unfold in Hrun.
  apply IH in Hrun; [done| | |].
  - rewrite concat_app. simpl concat. rewrite app_nil_r. by apply Inv_step.
  - by eapply Exact_snoc.
  - rewrite concat_app, length_app. simpl concat. rewrite app_nil_r. lia.
Qed.

(** The loop returns within its budget. *)
Lemma levels_loop_total cfg fuel deg Q result k :
  NoDup (names cfg) →
  Inv cfg (concat result) Q deg →
  (length (names cfg) + 1 ≤ fuel + length (concat result))%nat →
  is_Some (levels_loop fuel (Cache.directDependents cfg) deg Q result k).
Proof.
  intros Hnames. revert deg Q result k.
  induction fuel as [|fuel IH]; intros deg Q result k HInv Hfuel;
    destruct Q as [|q Q]; try (by eexists).
  - apply Inv_length in HInv. simpl in *. lia.
  - rewrite levels_loop_unfold. apply IH.
    + rewrite concat_app. simpl concat. rewrite app_nil_r. by apply Inv_step.
    + rewrite concat_app, length_app. simpl concat. rewrite app_nil_r. simpl. lia.
Qed.

(** *** Cycles *)

Lemma tc_tc {A} (R : relation A) x y : tc (tc R) x y → tc R x y.
Proof.
  intros H. induction H as [a b Hab|a b c Hab _ IH]; [done|].
  by eapply tc_trans.
Qed.

Lemma tc_flip {A} (R : relation A) x y : tc (flip R) x y → tc R y x.
Proof.
  intros H. induction H as [a b Hab|a b c Hab _ IH]; [by apply tc_once|].
  eapply tc_r; [exact IH|exact Hab].
Qed.

(** In a finite non-empty set in which every element has a successor
    inside the set, some element lies on a cycle. *)
Lemma cycle_in_closed_list {A} `{EqDecision A} (l : list A) (R : relation A) :
  l ≠ [] →
  (∀ x, x ∈ l → ∃ y, y ∈ l ∧ R x y) →
  ∃ x, x ∈ l ∧ tc R x x.
Proof.
  revert R. induction l as [|x l IH]; intros R Hne Hsucc; [done|].
  destruct (Hsucc x) as (y & Hy & Hxy); [by left|].
  apply elem_of_cons in Hy as [->|Hy].
  { exists x. split; [by left|by apply tc_once]. }
  destruct (IH (tc R)) as (z & Hz & Hzz).
  - intros ->. by apply elem_of_nil in Hy.
  - intros z Hz. destruct (Hsucc z) as (w & Hw & Hzw); [by right|].
    apply elem_of_cons in Hw as [->|Hw].
    + exists y. split; [done|]. eapply tc_l; [exact Hzw|by apply tc_once].
    + exists w. split; [done|by apply tc_once].
  - exists z. split; [by right|by apply tc_tc].
Qed.

(** Every node on a dependency path into [b] is a catalog name. *)
Lemma dependent_of_name cfg a b : dependent_of cfg a b → b ∈ names cfg.
Proof. intros (p & Hp & <- & _). by apply list_elem_of_fmap_2. Qed.

Lemma tc_dependent_of_name cfg a b : tc (dependent_of cfg) a b → b ∈ names cfg.
Proof.
  intros H. induction H as [x y Hxy|x y z _ _ IH]; [by eapply dependent_of_name|done].
Qed.

Lemma elem_of_concat_take (levels : list (list string)) j x :
  x ∈ concat (take j levels) ↔ ∃ i L, (i < j)%nat ∧ levels !! i = Some L ∧ x ∈ L.
Proof.
  rewrite elem_of_concat. split.
  - intros (L & Hx & HL). apply elem_of_take in HL as (i & Hi & Hlt). by exists i, L.
  - intros (i & L & Hlt & Hi & Hx). exists L. split; [done|].
    apply elem_of_take. by exists i.
Qed.

(** Exact levels certify acyclicity: a dependency always sits in a
    strictly earlier level. *)
Lemma Exact_earlier cfg levels a b j L :
  Exact cfg levels → dependent_of cfg a b → levels !! j = Some L → b ∈ L →
  ∃ i Li, (i < j)%nat ∧ levels !! i = Some Li ∧ a ∈ Li.
Proof.
  intros Hex (p & Hp & <- & Ha) Hj Hb.
  destruct (Hex j L Hj) as (_ & _ & Hready).
  apply (Hready p Hp) in Hb as [_ Hdeps].
  apply elem_of_concat_take. by apply Hdeps.
Qed.

Lemma Exact_tc_earlier cfg levels a b :
  Exact cfg levels → tc (dependent_of cfg) a b →
  ∀ j L, levels !! j = Some L → b ∈ L →
  ∃ i Li, (i < j)%nat ∧ levels !! i = Some Li ∧ a ∈ Li.
Proof.
  intros Hex H. induction H as [x y Hxy|x y z Hxy _ IH]; intros j L Hj Hb.
  - by eapply Exact_earlier.
  - destruct (IH j L Hj Hb) as (i & Li & Hlt & Hi & Hy).
    destruct (Exact_earlier cfg levels x y i Li Hex Hxy Hi Hy) as (i' & Li' & ? & ? & ?).
    exists i', Li'. split; [lia|done].
Qed.

Lemma Exact_acyclic cfg levels :
  Exact cfg levels → (∀ n, n ∈ names cfg → n ∈ concat levels) → acyclic cfg.
Proof.
  intros Hex Hall n Hcyc.
  assert (∀ j L, levels !! j = Some L → n ∈ L → False) as Hdesc.
  { intros j. induction (lt_wf j) as [j _ IH]. intros L Hj Hn.
    destruct (Exact_tc_earlier cfg levels n n Hex Hcyc j L Hj Hn) as (i & Li & Hlt & Hi & Hn').
    by apply (IH i Hlt Li). }
  pose proof (Hall n (tc_dependent_of_name _ _ _ Hcyc)) as Hn.
  apply elem_of_concat in Hn as (L & Hn & HL).
  apply list_elem_of_lookup in HL as [j Hj]. by apply (Hdesc j L).
Qed.

(** When the queue runs dry in an acyclic catalog with defined
    dependencies, every name has been emitted. *)
Lemma Inv_final_complete cfg P deg :
  deps_defined cfg → acyclic cfg → Inv cfg P [] deg →
  ∀ n, n ∈ names cfg → n ∈ P.
Proof.
  intros Hdef Hacyc HInv n Hn.
  destruct (decide (n ∈ P)) as [|HnP]; [done|]. exfalso.
  set (U := filter (λ x, x ∉ P) (names cfg)).
  destruct (cycle_in_closed_list U (flip (dependent_of cfg))) as (x & _ & Hx).
  - intros HU. assert (n ∈ U) as HnU by (by apply list_elem_of_filter).
    rewrite HU in HnU. by apply elem_of_nil in HnU.
  - intros x [HxP Hx]%list_elem_of_filter.
    pose proof Hx as (p & -> & Hp)%list_elem_of_fmap.
    destruct HInv as (_ & _ & Hdeg & Hzero).
    specialize (Hzero _ Hx). rewrite app_nil_r, (Hdeg p Hp) in Hzero.
    destruct (filter (λ d, d ∉ P) (DependsOn p)) as [|d rest] eqn:Hf.
    { destruct HxP. by apply Hzero. }
    assert (d ∈ filter (λ d, d ∉ P) (DependsOn p)) as Hd by (rewrite Hf; by left).
    apply list_elem_of_filter in Hd as [HdP Hd].
    exists d. split.
    + apply list_elem_of_filter. split; [done|]. by apply (Hdef p d).
    + by exists p.
  - by apply tc_flip, Hacyc in Hx.
Qed.

(** *** The validation pass *)

Lemma pkgMap_from_lookup pkgs (m : gmap string Package) n :
  is_Some (foldl (λ m p, <[Name p := p]> m) m pkgs !! n)
  ↔ is_Some (m !! n) ∨ n ∈ Name <$> pkgs.
Proof.
  revert m. induction pkgs as [|p pkgs IH]; intros m; csimpl.
  - split; [by left|]. by intros [?|?%elem_of_nil].
  - rewrite IH, elem_of_cons. destruct (decide (Name p = n)) as [<-|Hne].
    + rewrite lookup_insert_eq. split; [intros _; right; by left|]. intros _. left. by eexists.
    + rewrite lookup_insert_ne by done. split; [intros [?|?]; auto|].
      intros [?|[?|?]]; auto. by destruct Hne.
Qed.

Lemma pkgMap_lookup cfg n : is_Some (pkgMap cfg !! n) ↔ n ∈ names cfg.
Proof.
  unfold pkgMap. rewrite pkgMap_from_lookup, lookup_empty.
  split; [by intros [[? ?]|?]|by right].
Qed.

Lemma pkgMap_lookup_None cfg n : pkgMap cfg !! n = None ↔ n ∉ names cfg.
Proof. rewrite <- pkgMap_lookup, eq_None_not_Some. done. Qed.

(** The validation pass finds nothing exactly when every dependency
    is defined. *)
Lemma find_missing_None pm pkgs :
  find_missing pm pkgs = None
  ↔ ∀ p d, p ∈ pkgs → d ∈ DependsOn p → pm !! d ≠ None.
Proof.
  induction pkgs as [|p pkgs IH]; simpl.
  - split; [|done]. by intros _ p d ?%elem_of_nil.
  - destruct (list_find (λ d, pm !! d = None) (DependsOn p)) as [[i d]|] eqn:Hfind.
    + split; [done|]. intros Hall. apply list_find_Some in Hfind as (Hd & Hnone & _).
      destruct (Hall p d); [by left| |done]. by eapply list_elem_of_lookup_2.
    + rewrite IH. apply list_find_None in Hfind. rewrite Forall_forall in Hfind. split.
      * intros Hall q d [->|Hq]%elem_of_cons Hd; [by apply Hfind|by eapply Hall].
      * intros Hall q d Hq Hd. apply (Hall q d); [by right|done].
Qed.

(** What it reports is the first undefined dependency in declaration
    order. *)
Lemma find_missing_Some pm pkgs n d :
  find_missing pm pkgs = Some (n, d) →
  ∃ before p after depsBefore depsAfter,
    pkgs = before ++ p :: after
    ∧ Name p = n
    ∧ DependsOn p = depsBefore ++ d :: depsAfter
    ∧ pm !! d = None
    ∧ (∀ q e, q ∈ before → e ∈ DependsOn q → pm !! e ≠ None)
    ∧ (∀ e, e ∈ depsBefore → pm !! e ≠ None).
Proof.
  induction pkgs as [|p pkgs IH]; simpl; [done|].
  destruct (list_find (λ d, pm !! d = None) (DependsOn p)) as [[i d']|] eqn:Hfind.
  - intros [= <- <-]. apply list_find_Some in Hfind as (Hd & Hnone & Hfirst).
    exists [], p, pkgs, (take i (DependsOn p)), (drop (S i) (DependsOn p)).
    split; [done|]. split; [done|]. split; [by rewrite take_drop_middle|].
    split; [done|]. split; [by intros q e ?%elem_of_nil|].
    intros e (j & He & Hj)%elem_of_take. by eapply Hfirst.
  - intros Hrest. destruct (IH Hrest)
      as (before & q & after & db & da & -> & Hq & Hdeps & Hnone & Hb & Hdb).
    exists (p :: before), q, after, db, da.
    split; [done|]. split; [done|]. split; [done|]. split; [done|]. split; [|done].
    apply list_find_None in Hfind. rewrite Forall_forall in Hfind.
    intros r e [->|Hr]%elem_of_cons He; [by apply Hfind|by eapply Hb].
Qed.

Lemma find_missing_defined cfg :
  find_missing (pkgMap cfg) (Packages cfg) = None ↔ deps_defined cfg.
Proof.
  rewrite find_missing_None. unfold deps_defined. split.
  - intros Hall p d Hp Hd. apply pkgMap_lookup. specialize (Hall p d Hp Hd).
    by destruct (pkgMap cfg !! d); [eexists|].
  - intros Hall p d Hp Hd. apply (Hall p d Hp), pkgMap_lookup in Hd as [? ->]. done.
Qed.

Section ResolverFacts.
Variable range_keys : gmap string Z → list (string * Z).
(** Go enumerates every entry of the map exactly once, in some order. *)
Hypothesis range_keys_perm : ∀ m, range_keys m ≡ₚ map_to_list m.

(** The initial queue: the keys of in-degree zero, without repetition. *)
Lemma initial_queue (deg : gmap string Z) :
  NoDup (filter (λ kv : string * Z, kv.2 = 0) (range_keys deg)).*1
  ∧ ∀ n, n ∈ (filter (λ kv : string * Z, kv.2 = 0) (range_keys deg)).*1
         ↔ deg !! n = Some 0.
Proof.
  split.
  - eapply sublist_NoDup; [|apply fmap_sublist, sublist_filter].
    rewrite range_keys_perm. apply NoDup_fst_map_to_list.
  - intros n. rewrite list_elem_of_fmap. split.
    + intros ([n' v] & -> & [Hv Hin]%list_elem_of_filter). simpl in *. subst v.
      rewrite range_keys_perm in Hin. by apply elem_of_map_to_list in Hin.
    + intros Hn. exists (n, 0). split; [done|]. apply list_elem_of_filter.
      split; [done|]. rewrite range_keys_perm. by apply elem_of_map_to_list.
Qed.

Lemma Inv_initial cfg :
  NoDup (names cfg) →
  Inv cfg []
      (filter (λ kv : string * Z, kv.2 = 0)
         (range_keys (foldl add_edges (∅, ∅) (Packages cfg)).2)).*1
      (foldl add_edges (∅, ∅) (Packages cfg)).2.
Proof.
  intros Hnames.
  destruct (initial_queue (foldl add_edges (∅, ∅) (Packages cfg)).2) as [Hnd Hin].
  assert (∀ p, p ∈ Packages cfg →
            (foldl add_edges (∅, ∅) (Packages cfg)).2 !!! Name p
            = Z.of_nat (length (DependsOn p))) as Hdeg.
  { intros p Hp. apply lookup_total_correct. by apply inDegree_lookup. }
  split; [done|]. split; [|split].
  - intros n Hn. simpl in Hn. apply Hin in Hn. apply inDegree_keys. by eexists.
  - intros p Hp. rewrite (Hdeg p Hp). do 2 f_equal.
    symmetry. apply filter_all. intros d _. by intros ?%elem_of_nil.
  - intros n Hn. simpl. rewrite Hin.
    pose proof Hn as (p & -> & Hp)%list_elem_of_fmap.
    rewrite (Hdeg p Hp), (inDegree_lookup cfg p Hnames Hp).
    split; [by intros [= ->]|by intros ->].
Qed.

(** *** What [GetBuildOrder] returns *)

(** On a catalog with distinct names the loop finishes within its
    budget, having emitted exact levels. *)
Lemma GetBuildOrder_run cfg :
  NoDup (names cfg) →
  ∃ out degf,
    levels_loop (S (length (Packages cfg)))
      (foldl add_edges (∅, ∅) (Packages cfg)).1
      (foldl add_edges (∅, ∅) (Packages cfg)).2
      (filter (λ kv : string * Z, kv.2 = 0)
         (range_keys (foldl add_edges (∅, ∅) (Packages cfg)).2)).*1
      [] 0
    = Some (out, Z.of_nat (length (concat out)))
    ∧ Inv cfg (concat out) [] degf
    ∧ Exact cfg out.
Proof.
  intros Hnames. rewrite reverseGraph_eq.
  pose proof (Inv_initial cfg Hnames) as HInv.
  destruct (levels_loop_total cfg (S (length (Packages cfg))) _ _ [] 0 Hnames HInv)
    as [[out k] Hrun].
  { unfold names. rewrite length_fmap. simpl. lia. }
  destruct (levels_loop_spec cfg _ _ _ _ _ _ _ Hnames Hrun HInv)
    as ([degf Hf] & Hex & ->); [by intros j L ?| done |].
  exists out, degf. by rewrite Hrun.
Qed.

Lemma emitted_all_iff cfg out degf :
  NoDup (names cfg) → Inv cfg (concat out) [] degf →
  Z.of_nat (length (concat out)) = Z.of_nat (length (Packages cfg))
  ↔ concat out ≡ₚ names cfg.
Proof.
  intros Hnames (Hnd & Hsub & _). rewrite app_nil_r in *.
  split.
  - intros Hlen. apply submseteq_length_Permutation.
    + by apply NoDup_submseteq.
    + unfold names. rewrite length_fmap. lia.
  - intros Hperm. rewrite Hperm. unfold names. by rewrite length_fmap.
Qed.

(** Levels that are returned satisfy [Exact], and then the catalog
    is well formed. *)
Lemma GetBuildOrder_returned cfg levels :
  NoDup (names cfg) →
  GetBuildOrder range_keys cfg = (Some levels, None) →
  deps_defined cfg ∧ acyclic cfg ∧ concat levels ≡ₚ names cfg ∧ Exact cfg levels.
Proof.
  intros Hnames. unfold GetBuildOrder.
  destruct (find_missing (pkgMap cfg) (Packages cfg)) as [[p d]|] eqn:Hmiss; [done|].
  apply find_missing_defined in Hmiss.
  destruct (GetBuildOrder_run cfg Hnames) as (out & degf & Hrun & HInv & Hex).
  cbn zeta. rewrite Hrun. case_decide as Hlen; [done|]. intros [= <-].
  assert (concat out ≡ₚ names cfg) as Hperm.
  { eapply emitted_all_iff; [done..|]. lia. }
  split; [done|]. split; [|done].
  apply (Exact_acyclic cfg out Hex). intros n Hn. by rewrite Hperm.
Qed.

(** On an acyclic catalog the loop emits every package. *)
Lemma GetBuildOrder_acyclic_returns cfg :
  NoDup (names cfg) → deps_defined cfg → acyclic cfg →
  ∃ levels, GetBuildOrder range_keys cfg = (Some levels, None).
Proof.
  intros Hnames Hdef Hacyc. unfold GetBuildOrder.
  apply find_missing_defined in Hdef as Hmiss. rewrite Hmiss.
  destruct (GetBuildOrder_run cfg Hnames) as (out & degf & Hrun & HInv & Hex).
  cbn zeta. rewrite Hrun. exists out. rewrite decide_False; [done|].
  intros Hne. apply Hne. apply (emitted_all_iff cfg out degf Hnames HInv).
  apply NoDup_Permutation; [|done|].
  - destruct HInv as (Hnd & _). by rewrite app_nil_r in Hnd.
  - intros n. split.
    + destruct HInv as (_ & Hsub & _). intros Hn. apply Hsub. by rewrite app_nil_r.
    + by eapply Inv_final_complete.
Qed.

(** X1.  Whenever [GetBuildOrder] returns levels for a catalog with
    distinct names, all dependencies are defined, the graph is acyclic,
    the levels together are a permutation of the catalog names, no
    level is empty, and level [j] holds exactly the packages that are
    not in an earlier level and whose dependencies all are. *)
Theorem GetBuildOrder_levels_exact cfg levels :
  NoDup (names cfg) →
  GetBuildOrder range_keys cfg = (Some levels, None) →
  deps_defined cfg
  ∧ acyclic cfg
  ∧ concat levels ≡ₚ names cfg
  ∧ ∀ j L, levels !! j = Some L →
      L ≠ []
      ∧ ∀ p, p ∈ Packages cfg →
          Name p ∈ L ↔
            (Name p ∉ concat (take j levels)
             ∧ ∀ d, d ∈ DependsOn p → d ∈ concat (take j levels)).
Proof.
  intros Hnames Hrun.
  destruct (GetBuildOrder_returned cfg levels Hnames Hrun) as (Hdef & Hacyc & Hperm & Hex).
  split; [done|]. split; [done|]. split; [done|].
  intros j L Hj. destruct (Hex j L Hj) as (Hne & _ & Hready). done.
Qed.

(** X2.  On a catalog with distinct names whose dependencies are all
    defined, [GetBuildOrder] returns levels exactly when the
    dependency graph is acyclic, and the error "circular dependency
    detected" exactly when it is not. *)
Theorem GetBuildOrder_decides_acyclicity cfg :
  NoDup (names cfg) →
  deps_defined cfg →
  (acyclic cfg ↔ ∃ levels, GetBuildOrder range_keys cfg = (Some levels, None))
  ∧ (¬ acyclic cfg ↔ GetBuildOrder range_keys cfg = (None, Some CircularDependency)).
Proof.
  intros Hnames Hdef.
  assert (¬ acyclic cfg → GetBuildOrder range_keys cfg = (None, Some CircularDependency))
    as Hno.
  { intros Hcyc. unfold GetBuildOrder.
    apply find_missing_defined in Hdef as Hmiss. rewrite Hmiss.
    destruct (GetBuildOrder_run cfg Hnames) as (out & degf & Hrun & HInv & Hex).
    cbn zeta. rewrite Hrun. case_decide as Hlen; [done|]. destruct Hcyc.
    assert (concat out ≡ₚ names cfg) as Hperm.
    { eapply emitted_all_iff; [done..|]. lia. }
    apply (Exact_acyclic cfg out Hex). intros n Hn. by rewrite Hperm. }
  split; split; try done.
  - by apply GetBuildOrder_acyclic_returns.
  - intros [levels Hrun]. by apply (GetBuildOrder_returned cfg levels Hnames Hrun).
  - intros Hrun Hacyc.
    destruct (GetBuildOrder_acyclic_returns cfg Hnames Hdef Hacyc) as [levels Hl].
    congruence.
Qed.

(** X3 (the resolver's contract).  For a catalog with distinct names,
    defined dependencies and no cycle, [GetBuildOrder] returns levels
    whose concatenation is a permutation of the catalog names, and
    every dependency of every package sits in a strictly earlier
    level than the package. *)
Theorem GetBuildOrder_valid cfg :
  NoDup (names cfg) →
  deps_defined cfg →
  acyclic cfg →
  ∃ levels,
    GetBuildOrder range_keys cfg = (Some levels, None)
    ∧ concat levels ≡ₚ names cfg
    ∧ ∀ p d, p ∈ Packages cfg → d ∈ DependsOn p →
        ∃ i j Li Lj, (i < j)%nat ∧ levels !! i = Some Li ∧ levels !! j = Some Lj
                     ∧ d ∈ Li ∧ Name p ∈ Lj.
Proof.
  intros Hnames Hdef Hacyc.
  destruct (GetBuildOrder_acyclic_returns cfg Hnames Hdef Hacyc) as [levels Hrun].
  exists levels. split; [done|].
  destruct (GetBuildOrder_returned cfg levels Hnames Hrun) as (_ & _ & Hperm & Hex).
  split; [done|]. intros p d Hp Hd.
  assert (Name p ∈ concat levels) as Hin.
  { rewrite Hperm. by apply list_elem_of_fmap_2. }
  apply elem_of_concat in Hin as (Lj & Hn & HL).
  destruct (proj1 (list_elem_of_lookup _ _) HL) as [j Hj].
  destruct (Hex j Lj Hj) as (_ & _ & Hready).
  destruct (proj1 (Hready p Hp) Hn) as [_ Hdeps].
  apply Hdeps, elem_of_concat_take in Hd as (i & Li & Hlt & Hi & Hd).
  by exists i, j, Li, Lj.
Qed.

(** X4.  [GetBuildOrder] fails with a missing-dependency error exactly
    when some [depends_on] entry names no package; the error names the
    first such entry in declaration order.  No map iteration has
    happened by then, so the answer does not depend on its order. *)
Theorem GetBuildOrder_missing cfg :
  (¬ deps_defined cfg ↔
     ∃ n d, GetBuildOrder range_keys cfg = (None, Some (MissingDependency n d)))
  ∧ ∀ n d, GetBuildOrder range_keys cfg = (None, Some (MissingDependency n d)) →
      ∃ before p after depsBefore depsAfter,
        Packages cfg = before ++ p :: after
        ∧ Name p = n
        ∧ DependsOn p = depsBefore ++ d :: depsAfter
        ∧ d ∉ names cfg
        ∧ (∀ q e, q ∈ before → e ∈ DependsOn q → e ∈ names cfg)
        ∧ (∀ e, e ∈ depsBefore → e ∈ names cfg).
Proof.
  unfold GetBuildOrder.
  destruct (find_missing (pkgMap cfg) (Packages cfg)) as [[n d]|] eqn:Hmiss.
  - split.
    + split; [intros _; by exists n, d|]. intros _ Hdef.
      apply find_missing_defined in Hdef. congruence.
    + intros n' d' [= <- <-].
      destruct (find_missing_Some _ _ _ _ Hmiss)
        as (before & p & after & db & da & Hpk & Hn & Hdeps & Hnone & Hb & Hdb).
      exists before, p, after, db, da. repeat split; try done.
      * by apply pkgMap_lookup_None.
      * intros q e Hq He. apply pkgMap_lookup. specialize (Hb q e Hq He).
        by destruct (pkgMap cfg !! e); [eexists|].
      * intros e He. apply pkgMap_lookup. specialize (Hdb e He).
        by destruct (pkgMap cfg !! e); [eexists|].
  - apply find_missing_defined in Hmiss as Hdef. split.
    + split; [done|]. intros (n & d & Hrun). exfalso. cbn zeta in Hrun.
      destruct (levels_loop _ _ _ _ _ _) as [[result processed]|]; [|done].
      by case_decide.
    + intros n d Hrun. exfalso. cbn zeta in Hrun.
      destruct (levels_loop _ _ _ _ _ _) as [[result processed]|]; [|done].
      by case_decide.
Qed.
End ResolverFacts.

(** *** Concrete instances *)

Lemma chain_catalog_names : NoDup (names chain_catalog).
Proof. apply (bool_decide_unpack _). by vm_compute. Qed.

Lemma chain_catalog_defined : deps_defined chain_catalog.
Proof. apply ConfigFacts.deps_definedb_true. reflexivity. Qed.

Lemma map_to_list_enumerates (m : gmap string Z) : map_to_list m ≡ₚ map_to_list m.
Proof. reflexivity. Qed.

Lemma GetBuildOrder_valid_witness :
  (∀ m : gmap string Z, map_to_list m ≡ₚ map_to_list m)
  ∧ NoDup (names chain_catalog)
  ∧ deps_defined chain_catalog
  ∧ acyclic chain_catalog
  ∧ ∃ levels,
      GetBuildOrder map_to_list chain_catalog = (Some levels, None)
      ∧ concat levels ≡ₚ names chain_catalog
      ∧ ∀ p d, p ∈ Packages chain_catalog → d ∈ DependsOn p →
          ∃ i j Li Lj, (i < j)%nat ∧ levels !! i = Some Li ∧ levels !! j = Some Lj
                       ∧ d ∈ Li ∧ Name p ∈ Lj.
Proof.
  split; [exact map_to_list_enumerates|].
  split; [exact chain_catalog_names|].
  split; [exact chain_catalog_defined|].
  split; [exact ConfigFacts.chain_catalog_acyclic|].
  exact (GetBuildOrder_valid map_to_list map_to_list_enumerates chain_catalog
           chain_catalog_names chain_catalog_defined ConfigFacts.chain_catalog_acyclic).
Defined.

Lemma GetBuildOrder_levels_exact_witness :
  GetBuildOrder map_to_list chain_catalog = (Some [["a"]; ["b"]; ["c"]], None)
  ∧ acyclic chain_catalog
  ∧ concat [["a"]; ["b"]; ["c"]] ≡ₚ names chain_catalog.
Proof.
  assert (GetBuildOrder map_to_list chain_catalog = (Some [["a"]; ["b"]; ["c"]], None))
    as Hrun by (by vm_compute).
  split; [exact Hrun|].
  destruct (GetBuildOrder_levels_exact map_to_list map_to_list_enumerates chain_catalog
              [["a"]; ["b"]; ["c"]] chain_catalog_names Hrun) as (_ & Hacyc & Hperm & _).
  exact (conj Hacyc Hperm).
Defined.

Lemma GetBuildOrder_decides_acyclicity_witness :
  NoDup (names chain_catalog)
  ∧ deps_defined chain_catalog
  ∧ (acyclic chain_catalog
     ↔ ∃ levels, GetBuildOrder map_to_list chain_catalog = (Some levels, None)).
Proof.
  split; [exact chain_catalog_names|]. split; [exact chain_catalog_defined|].
  exact (proj1 (GetBuildOrder_decides_acyclicity map_to_list map_to_list_enumerates
                  chain_catalog chain_catalog_names chain_catalog_defined)).
Defined.

End BuildFacts.

(** ** Facts about the string functions *)

Module StringsFacts.
Import Strings.

(* Let [simpl] compute appends to literal prefixes. *)
Local Arguments String.append !_ _ / : simpl nomatch.

(** Induction on the length of a string. *)
Lemma string_length_ind (P : string → Prop) :
  (∀ s, (∀ t, (String.length t < String.length s)%nat → P t) → P s) → ∀ s, P s.
Proof.
  intros Hstep s. remember (String.length s) as n eqn:Hn.
  revert s Hn. induction (lt_wf n) as [n _ IH]. intros s ->.
  apply Hstep. intros t Ht. by apply (IH (String.length t)).
Qed.

Lemma append_length (a b : string) :
  String.length (a +:+ b) = (String.length a + String.length b)%nat.
Proof. induction a as [|c a IH]; simpl; [done|]. by rewrite IH. Qed.

Lemma append_assoc (a b c : string) : (a +:+ b) +:+ c = a +:+ (b +:+ c).
Proof. induction a as [|x a IH]; simpl; [done|]. by f_equal. Qed.

Lemma append_nil_r (a : string) : a +:+ "" = a.
Proof. induction a as [|x a IH]; simpl; [done|]. by f_equal. Qed.

(** [c] occurs in [s]. *)
Fixpoint occurs (c : ascii) (s : string) : Prop :=
  match s with
  | EmptyString => False
  | String x s' => x = c ∨ occurs c s'
  end.

Lemma occurs_append c a b : occurs c (a +:+ b) ↔ occurs c a ∨ occurs c b.
Proof. induction a as [|x a IH]; simpl; [tauto|]. rewrite IH. tauto. Qed.

(** *** Splitting at the first separator *)

Lemma cut_app sep a b :
  ¬ occurs sep a → cut sep (a +:+ String sep b) = Some (a, b).
Proof.
  induction a as [|c a IH]; simpl; intros Hno.
  - by rewrite decide_True.
  - rewrite decide_False by tauto. rewrite IH by tauto. done.
Qed.

Lemma cut_inv sep s a b :
  cut sep s = Some (a, b) → s = a +:+ String sep b ∧ ¬ occurs sep a.
Proof.
  revert a. induction s as [|c s IH]; intros a; simpl; [done|].
  destruct (decide (c = sep)) as [->|Hne].
  - intros [= <- <-]. simpl. tauto.
  - destruct (cut sep s) as [[a' b']|] eqn:Hcut; [|done].
    intros [= <- <-]. destruct (IH a' eq_refl) as [-> Hno].
    simpl. split; [done|]. tauto.
Qed.

Lemma cut_Some sep s a b :
  cut sep s = Some (a, b) ↔ s = a +:+ String sep b ∧ ¬ occurs sep a.
Proof.
  split; [apply cut_inv|]. intros [-> Hno]. by apply cut_app.
Qed.

Lemma cut_None sep s : cut sep s = None ↔ ¬ occurs sep s.
Proof.
  induction s as [|c s IH]; simpl; [tauto|].
  destruct (decide (c = sep)) as [->|Hne]; [split; [done|tauto]|].
  destruct (cut sep s) as [[a b]|]; [|tauto].
  split; [done|]. intros Hno. assert (@None (string * string) = Some (a, b)) as Hbad.
  { symmetry. apply IH. tauto. }
  done.
Qed.

(** Splitting [key=value] gives back the key and the value when the
    key has no [=]. *)
Lemma cut_key_value key value :
  ¬ occurs "="%char key → cut "=" (key +:+ "=" +:+ value) = Some (key, value).
Proof. intros Hno. by apply cut_Some. Qed.

(** *** The substitution scan *)

Lemma until_close_cut s : until_close s = cut "}" s.
Proof. induction s as [|c s IH]; simpl; [done|]. by rewrite IH. Qed.

Lemma until_close_Some s name rest :
  until_close s = Some (name, rest)
  ↔ s = name +:+ String "}" rest ∧ ¬ occurs "}"%char name.
Proof. rewrite until_close_cut. apply cut_Some. Qed.

Lemma until_close_None s : until_close s = None ↔ ¬ occurs "}"%char s.
Proof. rewrite until_close_cut. apply cut_None. Qed.

Lemma match_head_dollar c s : c ≠ "$"%char → match_head (String c s) = None.
Proof.
  intros Hc. unfold match_head.
  destruct c as [[] [] [] [] [] [] [] []]; try done.
Qed.

Lemma match_head_brace c s : c ≠ "{"%char → match_head (String "$" (String c s)) = None.
Proof.
  intros Hc. unfold match_head.
  destruct c as [[] [] [] [] [] [] [] []]; try done.
Qed.

Lemma match_head_Some s name rest :
  match_head s = Some (name, rest)
  ↔ s = "${" +:+ name +:+ String "}" rest ∧ name ≠ "" ∧ ¬ occurs "}"%char name.
Proof.
  split.
  - destruct s as [|c1 s]; [done|].
    destruct (decide (c1 = "$"%char)) as [->|H1]; [|by rewrite match_head_dollar].
    destruct s as [|c2 s]; [done|].
    destruct (decide (c2 = "{"%char)) as [->|H2]; [|by rewrite match_head_brace].
    unfold match_head.
    destruct (until_close s) as [[n r]|] eqn:Hu; [|done].
    destruct (decide (n = "")); [done|]. intros [= <- <-].
    apply until_close_Some in Hu as [-> ?]. done.
  - intros (-> & Hne & Hno). simpl.
    rewrite (proj2 (until_close_Some (name +:+ String "}" rest) name rest)) by done.
    by rewrite decide_False.
Qed.

Lemma varName_match name : varName ("${" +:+ name +:+ "}") = name.
Proof.
  unfold varName. simpl. rewrite append_length. simpl.
  replace (String.length name + 1 - 1)%nat with (String.length name) by lia.
  induction name as [|c name IH]; simpl; [done|]. by rewrite IH.
Qed.

Section Scan.
Context {S : Type} (f : string → S → string * S).

Lemma replace_scan_skip name rest st :
  replace_scan f (Datatypes.S (String.length name)) (name +:+ String "}" rest) st
  = replace_scan f 0 rest st.
Proof. induction name as [|c name IH]; simpl; [done|]. apply IH. Qed.

(** At a match the callback's output replaces the match and the scan
    resumes after it. *)
Lemma replace_at_match s name rest st :
  match_head s = Some (name, rest) →
  ReplaceAllStringFunc f s st =
    ((f ("${" +:+ name +:+ "}") st).1
       +:+ (ReplaceAllStringFunc f rest (f ("${" +:+ name +:+ "}") st).2).1,
     (ReplaceAllStringFunc f rest (f ("${" +:+ name +:+ "}") st).2).2).
Proof.
  intros Hm. pose proof Hm as (-> & Hne & Hno)%match_head_Some.
  unfold ReplaceAllStringFunc. simpl in Hm |- *. rewrite Hm.
  simpl. by rewrite replace_scan_skip.
Qed.

(** Elsewhere the byte is copied. *)
Lemma replace_no_match c s st :
  match_head (String c s) = None →
  ReplaceAllStringFunc f (String c s) st =
    (String c (ReplaceAllStringFunc f s st).1, (ReplaceAllStringFunc f s st).2).
Proof. intros Hm. unfold ReplaceAllStringFunc. cbn [replace_scan]. by rewrite Hm. Qed.
End Scan.

Lemma match_head_shorter s name rest :
  match_head s = Some (name, rest) → (String.length rest < String.length s)%nat.
Proof.
  intros (-> & _ & _)%match_head_Some. simpl. rewrite append_length. simpl. lia.
Qed.

(** A match needs a closing brace. *)
Lemma match_head_needs_close s :
  ¬ occurs "}"%char s → match_head s = None.
Proof.
  intros Hno. destruct (match_head s) as [[name rest]|] eqn:Hm; [|done].
  apply match_head_Some in Hm as (-> & _ & _). destruct Hno. simpl.
  right. right. apply occurs_append. right. by left.
Qed.

Section ScanRel.
Context {S T : Type} (f : string → S → string * S) (g : string → T → string * T).

(** Two callbacks that return the same text produce the same text. *)
Lemma replace_fst_ext :
  (∀ m st st', (f m st).1 = (g m st').1) →
  ∀ s st st', (ReplaceAllStringFunc f s st).1 = (ReplaceAllStringFunc g s st').1.
Proof.
  intros Hfg s. induction s as [s IH] using string_length_ind. intros st st'.
  destruct s as [|c s']; [done|].
  destruct (match_head (String c s')) as [[name rest]|] eqn:Hm.
  - rewrite (replace_at_match f _ _ _ _ Hm), (replace_at_match g _ _ _ _ Hm). simpl.
    rewrite (Hfg _ st st'). f_equal. apply IH. by apply match_head_shorter in Hm.
  - rewrite (replace_no_match f _ _ _ Hm), (replace_no_match g _ _ _ Hm). simpl.
    f_equal. apply IH. simpl. lia.
Qed.
End ScanRel.

Section ScanInv.
Context {S : Type} (f : string → S → string * S) (P : S → Prop).

(** What every call of the callback preserves holds of the final state. *)
Lemma replace_state_inv :
  (∀ m st, P st → P (f m st).2) →
  ∀ s st, P st → P (ReplaceAllStringFunc f s st).2.
Proof.
  intros Hf s. induction s as [s IH] using string_length_ind. intros st Hst.
  destruct s as [|c s']; [done|].
  destruct (match_head (String c s')) as [[name rest]|] eqn:Hm.
  - rewrite (replace_at_match f _ _ _ _ Hm). simpl.
    apply IH; [by apply match_head_shorter in Hm|]. by apply Hf.
  - rewrite (replace_no_match f _ _ _ Hm). simpl. apply IH; [simpl; lia|done].
Qed.
End ScanInv.

(** *** White space *)

(** The ASCII white-space bytes: tab, line feed, vertical tab, form
    feed, carriage return and space. *)
Definition space_byte (c : ascii) : bool :=
  bool_decide (nat_of_ascii c ∈ [9; 10; 11; 12; 13; 32]%nat).

(** An ASCII byte that is not white space. *)
Definition solid (c : ascii) : bool :=
  bool_decide (nat_of_ascii c < 128)%nat && negb (space_byte c).

Definition blank (s : string) : Prop := ∀ c, occurs c s → space_byte c = true.
Definition has_solid (s : string) : Prop := ∃ c, occurs c s ∧ solid c = true.

Definition no_solid (r : string) : bool :=
  forallb (λ c, negb (solid c)) (list_ascii_of_string r).

Lemma no_solid_occurs r c : no_solid r = true → occurs c r → solid c = false.
Proof.
  unfold no_solid. induction r as [|x r IH]; simpl; [done|].
  intros [Hx Hr]%andb_prop [->|Hc]; [by apply negb_true_iff|by apply IH].
Qed.

Lemma space_runes_no_solid : Forall (λ r, no_solid r = true) space_runes.
Proof. repeat constructor. Qed.

Lemma rev_space_runes_no_solid :
  Forall (λ r, no_solid r = true) (String.rev <$> space_runes).
Proof. repeat constructor. Qed.

Lemma strip_prefix_Some pre s rest :
  strip_prefix pre s = Some rest → s = pre +:+ rest.
Proof.
  revert s. induction pre as [|a pre IH]; intros s; simpl; [by intros [= ->]|].
  destruct s as [|b s]; [done|]. destruct (decide (a = b)) as [->|]; [|done].
  intros ->%IH. done.
Qed.

Lemma strip_space_Some runes s rest :
  strip_space runes s = Some rest → ∃ r, r ∈ runes ∧ s = r +:+ rest.
Proof.
  unfold strip_space.
  destruct (list_find _ runes) as [[i r]|] eqn:Hf; [|done].
  apply list_find_Some in Hf as (Hi & _ & _). intros Hr%strip_prefix_Some.
  exists r. split; [|done]. by eapply list_elem_of_lookup_2.
Qed.

Lemma strip_space_shorter runes s rest :
  Forall (λ r, r ≠ "") runes →
  strip_space runes s = Some rest → (String.length rest < String.length s)%nat.
Proof.
  intros Hne (r & Hr & ->)%strip_space_Some. rewrite append_length.
  rewrite Forall_forall in Hne. specialize (Hne r Hr). destruct r; [done|]. simpl. lia.
Qed.

Lemma trim_left_solid rounds runes s :
  Forall (λ r, no_solid r = true) runes →
  has_solid s → has_solid (trim_left rounds runes s).
Proof.
  intros Hrunes. revert s. induction rounds as [|n IH]; intros s Hs; simpl; [done|].
  destruct (strip_space runes s) as [rest|] eqn:Hstrip; [|done].
  apply IH. apply strip_space_Some in Hstrip as (r & Hr & ->).
  destruct Hs as (c & [Hc|Hc]%occurs_append & Hsolid); [|by exists c].
  rewrite Forall_forall in Hrunes.
  rewrite (no_solid_occurs r c (Hrunes r Hr) Hc) in Hsolid. done.
Qed.

Lemma occurs_rev_app c s1 s2 :
  occurs c (String.rev_app s1 s2) ↔ occurs c s1 ∨ occurs c s2.
Proof.
  revert s2. induction s1 as [|x s1 IH]; intros s2; simpl; [tauto|].
  rewrite IH. simpl. tauto.
Qed.

Lemma occurs_rev c s : occurs c (String.rev s) ↔ occurs c s.
Proof. unfold String.rev. rewrite occurs_rev_app. simpl. tauto. Qed.

Lemma has_solid_rev s : has_solid (String.rev s) ↔ has_solid s.
Proof. unfold has_solid. by setoid_rewrite occurs_rev. Qed.

Lemma has_solid_nonempty s : has_solid s → s ≠ "".
Proof. intros (c & Hc & _) ->. done. Qed.

(** [strings.TrimSpace] keeps a string that has an ASCII byte other
    than white space from becoming empty. *)
Lemma TrimSpace_solid s : has_solid s → TrimSpace s ≠ "".
Proof.
  intros Hs. unfold TrimSpace. apply has_solid_nonempty, has_solid_rev.
  apply trim_left_solid; [apply rev_space_runes_no_solid|].
  apply has_solid_rev. apply trim_left_solid; [apply space_runes_no_solid|done].
Qed.

Lemma strip_space_byte c s :
  space_byte c = true → strip_space space_runes (String c s) = Some s.
Proof.
  unfold space_byte. intros Hc%bool_decide_eq_true.
  assert (c ∈ ascii_of_nat <$> [9; 10; 11; 12; 13; 32]%nat) as Hin.
  { apply list_elem_of_fmap. exists (nat_of_ascii c).
    split; [by rewrite ascii_nat_embedding|done]. }
  clear Hc. simpl in Hin.
  repeat (apply elem_of_cons in Hin as [->|Hin]; [done|]).
  by apply elem_of_nil in Hin.
Qed.

Lemma trim_left_blank rounds s :
  (String.length s ≤ rounds)%nat → blank s → trim_left rounds space_runes s = "".
Proof.
  revert s. induction rounds as [|n IH]; intros s Hlen Hs.
  - destruct s; [done|simpl in Hlen; lia].
  - destruct s as [|c s]; [done|]. cbn [trim_left].
    rewrite strip_space_byte by (apply Hs; by left).
    apply IH; [simpl in Hlen; lia|]. intros x Hx. apply Hs. by right.
Qed.

(** [strings.TrimSpace] empties a string of ASCII white space. *)
Lemma TrimSpace_blank s : blank s → TrimSpace s = "".
Proof. intros Hs. unfold TrimSpace. by rewrite trim_left_blank. Qed.

End StringsFacts.
(** ** Facts about pkg/env *)

Module EnvFacts.
Import Config Strings Filepath Env StringsFacts.

Local Arguments String.append !_ _ / : simpl nomatch.

(** *** Substitution *)

Lemma Subst_nil e : Subst e "" = "".
Proof. done. Qed.

(** At a reference the value of the variable is written, or the
    reference itself when the variable is not defined. *)
Lemma Subst_match e s name rest :
  match_head s = Some (name, rest) →
  Subst e s = default ("${" +:+ name +:+ "}") (e !! name) +:+ Subst e rest.
Proof.
  intros Hm. unfold Subst. rewrite (replace_at_match _ _ _ _ _ Hm).
  cbn [fst snd]. unfold subst_var at 1 3. rewrite varName_match. unfold Get.
  destruct (e !! name) as [v|]; cbn [fst snd default]; done.
Qed.

Lemma Subst_no_match e c s :
  match_head (String c s) = None → Subst e (String c s) = String c (Subst e s).
Proof. intros Hm. unfold Subst. by rewrite (replace_no_match _ _ _ _ Hm). Qed.

(** Leading text without a dollar sign is copied. *)
Lemma Subst_plain_prefix e v t :
  ¬ occurs "$"%char v → Subst e (v +:+ t) = v +:+ Subst e t.
Proof.
  induction v as [|c v IH]; simpl; intros Hno; [done|].
  rewrite Subst_no_match by (apply match_head_dollar; tauto).
  rewrite IH by tauto. done.
Qed.

(** Text without a closing brace has no reference. *)
Lemma Subst_no_close e s : ¬ occurs "}"%char s → Subst e s = s.
Proof.
  induction s as [|c s IH]; simpl; intros Hno; [done|].
  rewrite Subst_no_match.
  - rewrite IH by tauto. done.
  - apply match_head_needs_close. simpl. tauto.
Qed.

(** X5 (Manager.Subst).  Text before the first dollar sign is copied,
    and a reference [${name}] that follows it, with a non-empty name
    free of closing braces, is replaced by the value of [name], or kept
    as it is when [name] is not defined; the scan then goes on behind
    the reference, so the inserted value is not scanned again. *)
Theorem Subst_reference e a name b :
  ¬ occurs "$"%char a → name ≠ "" → ¬ occurs "}"%char name →
  Subst e (a +:+ "${" +:+ name +:+ "}" +:+ b)
  = a +:+ default ("${" +:+ name +:+ "}") (e !! name) +:+ Subst e b.
Proof.
  intros Ha Hne Hno. rewrite Subst_plain_prefix by done. f_equal.
  apply Subst_match. by apply match_head_Some.
Qed.

Lemma Subst_reference_witness :
  Subst (<["CC" := "gcc"]> ∅) ("x=" +:+ "${" +:+ "CC" +:+ "}" +:+ " ${LD}")
  = "x=" +:+ default ("${" +:+ "CC" +:+ "}") ((<["CC" := "gcc"]> ∅ : Manager) !! "CC")
         +:+ Subst (<["CC" := "gcc"]> ∅) " ${LD}".
Proof.
  apply (Subst_reference (<["CC" := "gcc"]> ∅) "x=" "CC" " ${LD}").
  - simpl. intros [?|[?|[]]]; done.
  - done.
  - simpl. intros [?|[?|[]]]; done.
Defined.

(** X6 (Manager.Subst).  Without any defined variable substitution
    returns its argument. *)
Theorem Subst_empty s : Subst ∅ s = s.
Proof.
  induction s as [s IH] using string_length_ind.
  destruct s as [|c s']; [done|].
  destruct (match_head (String c s')) as [[name rest]|] eqn:Hm.
  - rewrite (Subst_match _ _ _ _ Hm), lookup_empty. cbn [default].
    rewrite IH by (by apply match_head_shorter in Hm).
    apply match_head_Some in Hm as (-> & _ & _). simpl. do 2 f_equal.
    by rewrite append_assoc.
  - rewrite Subst_no_match by done. rewrite IH by (simpl; lia). done.
Qed.

(** X7 (Manager.SubstWarnUndefined).  The text returned is the one
    [Subst] returns, and every name reported is undefined in the
    environment. *)
Theorem SubstWarnUndefined_spec e s :
  (SubstWarnUndefined e s).1 = Subst e s
  ∧ Forall (λ name, e !! name = None) (SubstWarnUndefined e s).2.
Proof.
  split.
  - unfold SubstWarnUndefined, Subst. apply replace_fst_ext.
    intros m st st'. unfold subst_var_warn, subst_var.
    by destruct (Get e (varName m)).
  - unfold SubstWarnUndefined.
    apply (replace_state_inv _ (Forall (λ name, e !! name = None))); [|done].
    intros m st Hst. unfold subst_var_warn.
    destruct (Get e (varName m)) eqn:Hg; cbn [snd]; [done|].
    apply Forall_app. split; [done|]. by apply Forall_singleton.
Qed.

(** A value that substitution can insert without creating a new
    reference: not empty, without dollar sign, and not starting with an
    opening brace. *)
Definition plain (v : string) : Prop :=
  ¬ occurs "$"%char v ∧ match v with
                         | EmptyString => False
                         | String c _ => c ≠ "{"%char
                         end.

Definition plain_values (e : Manager) : Prop := ∀ k v, e !! k = Some v → plain v.

(** Where the text has no reference at its head, the substituted text
    has none either. *)
Lemma match_head_Subst_None e c s :
  plain_values e →
  match_head (String c s) = None → match_head (String c (Subst e s)) = None.
Proof.
  intros He Hm.
  destruct (decide (c = "$"%char)) as [->|Hc]; [|by apply match_head_dollar].
  destruct s as [|c2 s]; [done|].
  destruct (match_head (String c2 s)) as [[name rest]|] eqn:Hm2.
  - rewrite (Subst_match _ _ _ _ Hm2).
    destruct (e !! name) as [v|] eqn:Hv; cbn [default].
    + destruct (He _ _ Hv) as [_ Hhead]. destruct v as [|c3 v]; [done|].
      simpl. by apply match_head_brace.
    + done.
  - rewrite Subst_no_match by done.
    destruct (decide (c2 = "{"%char)) as [->|Hc2]; [|by apply match_head_brace].
    unfold match_head in Hm |- *.
    destruct (until_close s) as [[name rest]|] eqn:Hu.
    + destruct (decide (name = "")) as [->|]; [|done].
      apply until_close_Some in Hu as [-> _]. by simpl.
    + apply until_close_None in Hu. rewrite Subst_no_close by done.
      by rewrite (proj2 (until_close_None s)).
Qed.

(** X8 (Manager.Subst).  When every value of the environment is
    [plain], substituting twice gives what substituting once gives.
    Not so on every environment: a value that is itself a reference is
    replaced by the second pass. *)
Theorem Subst_idempotent :
  (∀ e s, plain_values e → Subst e (Subst e s) = Subst e s)
  ∧ ∃ (e : Manager) s, Subst e (Subst e s) ≠ Subst e s.
Proof.
  split.
  - intros e s He. induction s as [s IH] using string_length_ind.
    destruct s as [|c s']; [done|].
    destruct (match_head (String c s')) as [[name rest]|] eqn:Hm.
    + rewrite (Subst_match _ _ _ _ Hm).
      pose proof (match_head_shorter _ _ _ Hm) as Hlt.
      apply match_head_Some in Hm as (_ & Hne & Hno).
      destruct (e !! name) as [v|] eqn:Hv; cbn [default].
      * destruct (He _ _ Hv) as [Hd _].
        rewrite Subst_plain_prefix by done. by rewrite IH.
      * rewrite (Subst_match e _ name (Subst e rest)).
        -- rewrite Hv. cbn [default]. by rewrite IH.
        -- apply match_head_Some. split; [|done]. simpl. do 2 f_equal.
           by rewrite append_assoc.
    + rewrite Subst_no_match by done.
      rewrite Subst_no_match by (by apply match_head_Subst_None).
      rewrite IH by (simpl; lia). done.
  - exists (<["A" := "${B}"]> (<["B" := "x"]> ∅)), "${A}".
    rewrite (Subst_match _ "${A}" "A" "") by done.
    rewrite lookup_insert_eq. cbn [default]. rewrite Subst_nil. simpl.
    rewrite (Subst_match _ "${B}" "B" "") by done.
    rewrite lookup_insert_ne by done. rewrite lookup_insert_eq. cbn [default].
    rewrite Subst_nil. done.
Qed.

Lemma Subst_idempotent_witness :
  Subst (<["A" := "x"]> ∅) (Subst (<["A" := "x"]> ∅) "${A}${B}")
  = Subst (<["A" := "x"]> ∅) "${A}${B}".
Proof.
  apply (proj1 Subst_idempotent (<["A" := "x"]> ∅) "${A}${B}").
  intros k v [[_ <-]|[_ Hv]]%lookup_insert_Some; [|by rewrite lookup_empty in Hv].
  split; [|done]. simpl. intros [?|[]]. done.
Defined.

(** *** Prepending *)

(** X9 (Manager.PrependToVar).  The variable becomes
    [value + sep + existing] when it had a value with an ASCII byte
    other than white space; a value made of ASCII white space only is
    thrown away like a missing one, and the variable becomes [value].
    No other variable changes. *)
Theorem PrependToVar_spec key value sep e :
  (∀ existing, e !! key = Some existing → has_solid existing →
     PrependToVar key value sep e !! key = Some (value +:+ sep +:+ existing))
  ∧ (∀ existing, e !! key = Some existing → blank existing →
     PrependToVar key value sep e !! key = Some value)
  ∧ (e !! key = None → PrependToVar key value sep e !! key = Some value)
  ∧ (∀ other, other ≠ key → PrependToVar key value sep e !! other = e !! other).
Proof.
  unfold PrependToVar. repeat split.
  - intros existing -> Hs. rewrite decide_True by (by apply TrimSpace_solid).
    by rewrite lookup_insert_eq.
  - intros existing -> Hb. rewrite decide_False; [by rewrite lookup_insert_eq|].
    rewrite TrimSpace_blank by done. tauto.
  - intros ->. by rewrite lookup_insert_eq.
  - intros other Hne. destruct (e !! key) as [existing|]; [case_decide|];
      by rewrite lookup_insert_ne.
Qed.

Lemma PrependToVar_spec_witness :
  PrependToVar "CFLAGS" "-I/x" " " (<["CFLAGS" := "-O2"]> ∅) !! "CFLAGS"
  = Some ("-I/x" +:+ " " +:+ "-O2").
Proof.
  apply (proj1 (PrependToVar_spec "CFLAGS" "-I/x" " " (<["CFLAGS" := "-O2"]> ∅))).
  - reflexivity.
  - exists "-"%char. split; [by left|reflexivity].
Defined.

(** *** Copying maps *)

Lemma foldl_insert (l : list (string * string)) (acc : Manager) :
  foldl (λ c kv, <[kv.1 := kv.2]> c) acc l = list_to_map (reverse l) ∪ acc.
Proof.
  revert acc. induction l as [|[k v] l IH]; intros acc; simpl.
  - by rewrite (left_id_L ∅ (∪)).
  - rewrite IH, reverse_cons, list_to_map_app. simpl.
    rewrite <-(assoc_L (∪)). f_equal.
    rewrite insert_empty. by rewrite <-insert_union_singleton_l.
Qed.

Lemma filter_ext_in {A} (P Q : A → Prop) `{∀ x, Decision (P x)} `{∀ x, Decision (Q x)}
    (l : list A) :
  (∀ x, x ∈ l → P x ↔ Q x) → filter P l = filter Q l.
Proof.
  induction l as [|x l IH]; intros HPQ; [done|].
  rewrite !filter_cons. rewrite IH by (intros y Hy; apply HPQ; by right).
  destruct (decide (P x)) as [HP|HP], (decide (Q x)) as [HQ|HQ]; try done.
  - destruct HQ. apply HPQ; [by left|done].
  - destruct HP. apply HPQ; [by left|done].
Qed.

(** [key=value] *)
Definition entry (kv : string * string) : string := kv.1 +:+ "=" +:+ kv.2.

Lemma cut_entry k v : ¬ occurs "="%char k → cut "=" (entry (k, v)) = Some (k, v).
Proof. intros Hk. by apply cut_key_value. Qed.

Lemma entry_inj k1 v1 k2 v2 :
  ¬ occurs "="%char k1 → ¬ occurs "="%char k2 →
  entry (k1, v1) = entry (k2, v2) → k1 = k2 ∧ v1 = v2.
Proof.
  intros H1 H2 Heq. apply (cut_entry k1 v1) in H1. apply (cut_entry k2 v2) in H2.
  rewrite Heq in H1. rewrite H1 in H2. by injection H2.
Qed.

(** The inner loop of [mergedEnv.ToSlice] over the entries of one
    layer. *)
Lemma merge_entries (E : list (string * string)) res (seen : gset string) :
  NoDup E.*1 → Forall (λ kv, ¬ occurs "="%char kv.1) E →
  foldl merge_entry (res, seen) (entry <$> E)
  = (res ++ (entry <$> filter (λ kv, kv.1 ∉ seen) E), seen ∪ list_to_set E.*1).
Proof.
  revert res seen. induction E as [|[k v] E IH]; intros res seen Hnd Hkeys.
  - simpl. rewrite (right_id_L [] (++)). f_equal. set_solver.
  - apply NoDup_cons in Hnd as [Hk Hnd]. apply Forall_cons in Hkeys as [Hkv Hkeys].
    csimpl. unfold merge_entry at 2. rewrite cut_entry by done. cbn [fst snd].
    rewrite filter_cons. cbn [fst].
    destruct (decide (k ∈ seen)) as [Hin|Hout].
    + rewrite decide_False by tauto. rewrite IH by done. f_equal. set_solver.
    + rewrite decide_True by done. rewrite IH by done. f_equal.
      * rewrite <-(assoc_L (++)). f_equal. csimpl. do 2 f_equal.
        apply filter_ext_in. intros [k' v'] Hin'. cbn [fst].
        assert (k' ≠ k); [|set_solver].
        intros ->. apply Hk. apply list_elem_of_fmap. by exists (k, v').
      * set_solver.
Qed.

Lemma MergedGet_app envs1 envs2 key :
  MergedGet (envs1 ++ envs2) key
  = match MergedGet envs1 key with
    | Some v => Some v
    | None => MergedGet envs2 key
    end.
Proof.
  induction envs1 as [|env envs1 IH]; simpl; [done|].
  unfold Get. by destruct (env !! key).
Qed.

(** [mergedEnv.Get] finds a value exactly when some layer has the key. *)
Lemma MergedGet_Some envs key v :
  MergedGet envs key = Some v → ∃ env, env ∈ envs ∧ env !! key = Some v.
Proof.
  induction envs as [|env envs IH]; simpl; [done|]. unfold Get.
  destruct (env !! key) as [w|] eqn:Hw.
  - intros [= ->]. exists env. split; [by left|done].
  - intros (env' & Hin & Hv)%IH. exists env'. split; [by right|done].
Qed.

(** *** Package environments *)

(** The variables that the elements of a package's [env] list set. *)
Definition pkg_env_keys (pkgEnv : list string) : list string :=
  omap (λ kv, fst <$> cut "=" kv) pkgEnv.

Lemma PrependToVar_lookup_ne key value sep e other :
  other ≠ key → PrependToVar key value sep e !! other = e !! other.
Proof.
  intros Hne. unfold PrependToVar.
  destruct (e !! key) as [existing|]; [case_decide|]; by rewrite lookup_insert_ne.
Qed.

Lemma apply_pkg_env_frame pkgEnv env key :
  key ∉ pkg_env_keys pkgEnv → foldl apply_pkg_env env pkgEnv !! key = env !! key.
Proof.
  revert env. induction pkgEnv as [|kv l IH]; intros env Hkey; [done|].
  cbn [foldl]. unfold pkg_env_keys in Hkey. csimpl in Hkey. revert Hkey.
  unfold apply_pkg_env at 2. destruct (cut "=" kv) as [[k v]|]; cbn; intros Hkey.
  - apply not_elem_of_cons in Hkey as [Hne Hkey]. rewrite IH by done.
    unfold SetVar. by rewrite lookup_insert_ne.
  - by apply IH.
Qed.

Lemma apply_pkg_env_raw_frame pkgEnv env key :
  key ∉ pkg_env_keys pkgEnv → foldl apply_pkg_env_raw env pkgEnv !! key = env !! key.
Proof.
  revert env. induction pkgEnv as [|kv l IH]; intros env Hkey; [done|].
  cbn [foldl]. unfold pkg_env_keys in Hkey. csimpl in Hkey. revert Hkey.
  unfold apply_pkg_env_raw at 2. destruct (cut "=" kv) as [[k v]|]; cbn; intros Hkey.
  - apply not_elem_of_cons in Hkey as [Hne Hkey]. rewrite IH by done.
    unfold SetVar. by rewrite lookup_insert_ne.
  - by apply IH.
Qed.

(** The variables that [Manager.EnvironmentForPackage] may write. *)
Definition touched (pkgEnv : list string) (sysroot : string) (makeJobs : Z) : list string :=
  ["PKG_NAME"]
  ++ (if decide (0 < makeJobs) then ["MAKEFLAGS"] else [])
  ++ (if decide (sysroot ≠ "")
      then ["PKG_CONFIG_PATH"; "PKG_CONFIG_SYSROOT_DIR"; "CFLAGS"; "CXXFLAGS"; "LDFLAGS";
            "LIBRARY_PATH"; "LD_LIBRARY_PATH"]
      else [])
  ++ pkg_env_keys pkgEnv.

Section MapOrderFacts.
Variable range_env : gmap string string → list (string * string).
Hypothesis range_env_perm : ∀ m, range_env m ≡ₚ map_to_list m.

Lemma range_env_NoDup m : NoDup (range_env m).*1.
Proof. rewrite range_env_perm. apply NoDup_fst_map_to_list. Qed.

Lemma elem_of_range_env m k v : (k, v) ∈ range_env m ↔ m !! k = Some v.
Proof. rewrite range_env_perm. apply elem_of_map_to_list. Qed.

Lemma list_to_map_range_env m : list_to_map (reverse (range_env m)) = m.
Proof.
  rewrite <-(list_to_map_to_list m) at 2. apply list_to_map_proper.
  - rewrite reverse_Permutation. apply range_env_NoDup.
  - by rewrite reverse_Permutation.
Qed.

Lemma AddToEnv_eq (m other : Manager) : AddToEnv range_env SetVar m other = m ∪ other.
Proof. unfold AddToEnv, SetVar. by rewrite foldl_insert, list_to_map_range_env. Qed.

Lemma Clone_eq (m : Manager) : Clone range_env m = m.
Proof.
  unfold Clone. rewrite foldl_insert, list_to_map_range_env.
  by rewrite (right_id_L ∅ (∪)).
Qed.

(** Layers poured one after the other: the layer poured last wins. *)
Lemma pour_layers_lookup (layers : list Manager) (other : Manager) key :
  foldl (λ o env, AddToEnv range_env SetVar env o) other layers !! key
  = match MergedGet (reverse layers) key with
    | Some v => Some v
    | None => other !! key
    end.
Proof.
  revert other. induction layers as [|env layers IH]; intros other; [done|].
  cbn [foldl]. rewrite IH, reverse_cons, MergedGet_app, AddToEnv_eq.
  destruct (MergedGet (reverse layers) key) as [v|]; [done|].
  cbn [MergedGet]. unfold Get. destruct (env !! key) as [v|] eqn:Hv.
  - by apply lookup_union_Some_l.
  - by rewrite lookup_union_r.
Qed.

(** X10 (Manager.AddToEnv, Manager.Clone).  Pouring a manager into
    another one gives the union of the two maps in which the poured
    entries win, and a clone has the entries of its original, in
    whatever order the map is enumerated. *)
Theorem AddToEnv_union (m other : Manager) :
  AddToEnv range_env SetVar m other = m ∪ other ∧ Clone range_env m = m.
Proof.
  unfold AddToEnv, Clone, SetVar. rewrite !foldl_insert, list_to_map_range_env.
  split; [done|]. by rewrite (right_id_L ∅ (∪)).
Qed.

(** X11 (mergedEnv.AddToEnv, mergedEnv.Get).  After a stack of layers
    is poured into a manager, every key reads as [mergedEnv.Get] reads
    it on the stack, the first layer that has the key providing the
    value; keys of no layer keep what the manager had. *)
Theorem MergedAddToEnv_lookup (envs : list Manager) (other : Manager) key :
  MergedAddToEnv range_env SetVar envs other !! key
  = match MergedGet envs key with
    | Some v => Some v
    | None => other !! key
    end.
Proof.
  unfold MergedAddToEnv. by rewrite pour_layers_lookup, reverse_involutive.
Qed.

Lemma elem_of_range_keys m k :
  k ∈ (list_to_set (range_env m).*1 : gset string) ↔ is_Some (m !! k).
Proof.
  rewrite elem_of_list_to_set, list_elem_of_fmap. split.
  - intros ([k' v] & -> & Hin). apply elem_of_range_env in Hin. by exists v.
  - intros [v Hv]. exists (k, v). split; [done|]. by apply elem_of_range_env.
Qed.

Lemma merge_layer (env : Manager) res (seen : gset string) :
  (∀ k, is_Some (env !! k) → ¬ occurs "="%char k) →
  foldl merge_entry (res, seen) (ToSlice range_env env)
  = (res ++ (entry <$> filter (λ kv, kv.1 ∉ seen) (range_env env)),
     seen ∪ list_to_set (range_env env).*1).
Proof.
  intros Hkeys. apply merge_entries; [apply range_env_NoDup|].
  apply Forall_forall. intros [k v] Hin. apply Hkeys.
  apply elem_of_range_env in Hin. by exists v.
Qed.

(** The loop of [mergedEnv.ToSlice] over the layers in the order it
    visits them. *)
Lemma merge_layers (layers : list Manager) res (seen : gset string) :
  (∀ env, env ∈ layers → ∀ k, is_Some (env !! k) → ¬ occurs "="%char k) →
  let st := foldl (λ st env, foldl merge_entry st (ToSlice range_env env))
                  (res, seen) layers in
  (∀ k, k ∈ st.2 ↔ k ∈ seen ∨ is_Some (MergedGet layers k))
  ∧ (∀ kv, kv ∈ st.1 ↔
       kv ∈ res ∨ ∃ k v, kv = entry (k, v) ∧ k ∉ seen ∧ MergedGet layers k = Some v).
Proof.
  revert res seen. induction layers as [|env layers IH]; intros res seen Hkeys.
  - cbn. split.
    + intros k. split; [by left|]. intros [?|[? [=]]]. done.
    + intros kv. split; [by left|]. intros [?|(? & ? & _ & _ & [=])]. done.
  - cbn [foldl]. rewrite merge_layer by (apply Hkeys; by left).
    destruct (IH (res ++ (entry <$> filter (λ kv, kv.1 ∉ seen) (range_env env)))
                 (seen ∪ list_to_set (range_env env).*1)) as [IH1 IH2].
    { intros env' Hin. apply Hkeys. by right. }
    cbn zeta in IH1, IH2 |- *. split.
    + intros k. rewrite IH1, elem_of_union, elem_of_range_keys.
      cbn [MergedGet]. unfold Get. destruct (env !! k) as [v|] eqn:Hv.
      * split; [intros _; right; by exists v|]. intros _. left. right. by exists v.
      * split.
        -- intros [[?|[? [=]]]|?]; [by left|by right].
        -- intros [?|?]; [left; by left|by right].
    + intros kv. rewrite IH2, elem_of_app, list_elem_of_fmap. split.
      * intros [[?|([k v] & -> & [Hout Hin]%list_elem_of_filter)]
               |(k & v & -> & Hout & Hget)].
        -- by left.
        -- right. exists k, v. split; [done|]. split; [done|].
           apply elem_of_range_env in Hin. cbn [MergedGet]. unfold Get. by rewrite Hin.
        -- right. exists k, v. split; [done|].
           rewrite not_elem_of_union, elem_of_range_keys in Hout.
           destruct Hout as [Hout Hnone]. split; [done|].
           cbn [MergedGet]. unfold Get. destruct (env !! k) as [w|] eqn:Hw; [|done].
           destruct Hnone. by exists w.
      * intros [?|(k & v & -> & Hout & Hget)]; [left; by left|].
        cbn [MergedGet] in Hget. unfold Get in Hget.
        destruct (env !! k) as [w|] eqn:Hw.
        -- injection Hget as ->. left. right. exists (k, v). split; [done|].
           apply list_elem_of_filter. split; [done|]. by apply elem_of_range_env.
        -- right. exists k, v. split; [done|]. split; [|done].
           rewrite not_elem_of_union, elem_of_range_keys. split; [done|].
           rewrite Hw. by intros [? [=]].
Qed.

(** X12 (mergedEnv.ToSlice).  With keys free of [=], the slice holds
    [key=value] exactly when [value] is what the LAST layer that has
    [key] gives it, that is what [mergedEnv.Get] reads on the reversed
    stack; so each key has one entry, and it carries the value of the
    lowest layer, not the one [mergedEnv.Get] returns. *)
Theorem MergedToSlice_spec (envs : list Manager) kv :
  (∀ env, env ∈ envs → ∀ k, is_Some (env !! k) → ¬ occurs "="%char k) →
  kv ∈ MergedToSlice range_env envs
  ↔ ∃ k v, kv = k +:+ "=" +:+ v ∧ MergedGet (reverse envs) k = Some v.
Proof.
  intros Hkeys. unfold MergedToSlice. rewrite elem_of_reverse.
  destruct (merge_layers (reverse envs) [] ∅) as [_ H2].
  { intros env Hin. apply Hkeys. by apply elem_of_reverse. }
  cbn zeta in H2. rewrite H2. split.
  - intros [[]%elem_of_nil|(k & v & -> & _ & Hget)]. by exists k, v.
  - intros (k & v & -> & Hget). right. exists k, v. split; [done|]. split; [|done].
    apply not_elem_of_empty.
Qed.

(** X13 (Manager.EnvironmentForPackage).  The environment of a
    package differs from the manager it is made from only in
    [PKG_NAME], in [MAKEFLAGS] when the job count is positive, in the
    seven sysroot variables when a sysroot is given, and in the
    variables that the package's own [env] elements name. *)
Theorem EnvironmentForPackage_frame e pkgName pkgEnv sysroot makeJobs key :
  key ∉ touched pkgEnv sysroot makeJobs →
  EnvironmentForPackage range_env e pkgName pkgEnv sysroot makeJobs !! key = e !! key.
Proof.
  unfold touched, EnvironmentForPackage. rewrite Clone_eq.
  rewrite !not_elem_of_app. intros (Hname & Hjobs & Hsys & Hpkg).
  apply not_elem_of_cons in Hname as [Hname _].
  rewrite apply_pkg_env_frame by done.
  assert ((if decide (0 < makeJobs)
           then SetVar "MAKEFLAGS" ("-j" +:+ pretty makeJobs) (SetVar "PKG_NAME" pkgName e)
           else SetVar "PKG_NAME" pkgName e) !! key = e !! key) as Hbase.
  { unfold SetVar. destruct (decide (0 < makeJobs)).
    - apply not_elem_of_cons in Hjobs as [Hj _]. by rewrite !lookup_insert_ne.
    - by rewrite lookup_insert_ne. }
  destruct (decide (sysroot ≠ "")); [|done].
  repeat (apply not_elem_of_cons in Hsys as [? Hsys]).
  unfold SetVar. rewrite !PrependToVar_lookup_ne by done.
  rewrite lookup_insert_ne by done. by rewrite !PrependToVar_lookup_ne by done.
Qed.

(** X14 (mergedEnv.EnvironmentForPackage).  [PKG_NAME] is the package
    name, [SYSROOT] the sysroot when one is given and [MAKEJOBS] the
    job count when it is positive, whatever the layers and the
    package's [env] elements say; a variable that is none of these and
    that no [env] element names reads as [mergedEnv.Get] reads it, and
    where no layer has it only [PATH] is defined, with the value of the
    process environment. *)
Theorem MergedEnvironmentForPackage_spec penv envs pkgName pkgEnv sysroot makeJobs :
  let r := MergedEnvironmentForPackage range_env penv envs pkgName pkgEnv sysroot makeJobs in
  r !! "PKG_NAME" = Some pkgName
  ∧ (sysroot ≠ "" → r !! "SYSROOT" = Some sysroot)
  ∧ (0 < makeJobs → r !! "MAKEJOBS" = Some (pretty makeJobs))
  ∧ (∀ key, key ∉ ["PKG_NAME"; "SYSROOT"; "MAKEJOBS"] → key ∉ pkg_env_keys pkgEnv →
       r !! key = match MergedGet envs key with
                  | Some v => Some v
                  | None => if decide (key = "PATH") then Some (Getenv penv "PATH") else None
                  end).
Proof.
  cbn zeta. unfold MergedEnvironmentForPackage, SetVar. repeat split.
  - repeat case_decide; rewrite ?lookup_insert_ne by done; by rewrite lookup_insert_eq.
  - intros Hs. rewrite !(decide_True _ _ Hs).
    case_decide; rewrite ?lookup_insert_ne by done; by rewrite lookup_insert_eq.
  - intros Hj. rewrite (decide_True _ _ Hj). by rewrite lookup_insert_eq.
  - intros key Hkey Hpkg. repeat (apply not_elem_of_cons in Hkey as [? Hkey]).
    assert (foldl apply_pkg_env_raw
              (MergedAddToEnv range_env (λ key value e, <[key:=value]> e) envs
                 (NewManager penv)) pkgEnv !! key
            = match MergedGet envs key with
              | Some v => Some v
              | None => if decide (key = "PATH") then Some (Getenv penv "PATH") else None
              end) as Hbase.
    { rewrite apply_pkg_env_raw_frame by done. unfold MergedAddToEnv.
      rewrite (pour_layers_lookup (reverse envs)), reverse_involutive.
      destruct (MergedGet envs key); [done|]. unfold NewManager.
      destruct (decide (key = "PATH")) as [->|Hne].
      - by rewrite lookup_insert_eq.
      - by rewrite lookup_insert_ne, lookup_empty. }
    repeat case_decide; rewrite ?lookup_insert_ne by done; exact Hbase.
Qed.

End MapOrderFacts.

(** Two layers that both set [CC]. *)
Definition top_layer : Manager := <["CC" := "clang"]> ∅.
Definition base_layer : Manager := <["CC" := "gcc"]> (<["LD" := "ld"]> ∅).

Lemma map_to_list_range (m : gmap string string) : map_to_list m ≡ₚ map_to_list m.
Proof. reflexivity. Qed.

Lemma layers_keys_plain env :
  env ∈ [top_layer; base_layer] → ∀ k, is_Some (env !! k) → ¬ occurs "="%char k.
Proof.
  intros Hin k [v Hv].
  assert (k = "CC" ∨ k = "LD") as [->| ->]; [|simpl; intros [?|[?|[]]]; done..].
  apply elem_of_cons in Hin as [->|Hin]; [|apply list_elem_of_singleton in Hin as ->];
    unfold top_layer, base_layer in Hv.
  - apply lookup_insert_Some in Hv as [[<- _]|[_ Hv]]; [by left|].
    by rewrite lookup_empty in Hv.
  - apply lookup_insert_Some in Hv as [[<- _]|[_ Hv]]; [by left|].
    apply lookup_insert_Some in Hv as [[<- _]|[_ Hv]]; [by right|].
    by rewrite lookup_empty in Hv.
Qed.

Lemma AddToEnv_union_witness :
  AddToEnv map_to_list SetVar top_layer base_layer = top_layer ∪ base_layer
  ∧ Clone map_to_list top_layer = top_layer.
Proof. exact (AddToEnv_union map_to_list map_to_list_range top_layer base_layer). Defined.

Lemma MergedAddToEnv_lookup_witness :
  MergedAddToEnv map_to_list SetVar [top_layer; base_layer] ∅ !! "CC" = Some "clang".
Proof.
  exact (MergedAddToEnv_lookup map_to_list map_to_list_range
           [top_layer; base_layer] ∅ "CC").
Defined.

Lemma MergedToSlice_spec_witness :
  MergedGet [top_layer; base_layer] "CC" = Some "clang"
  ∧ "CC=gcc" ∈ MergedToSlice map_to_list [top_layer; base_layer]
  ∧ "CC=clang" ∉ MergedToSlice map_to_list [top_layer; base_layer].
Proof.
  split; [reflexivity|]. split.
  - apply (MergedToSlice_spec map_to_list map_to_list_range [top_layer; base_layer]
             "CC=gcc" layers_keys_plain).
    exists "CC", "gcc". split; reflexivity.
  - intros Hin.
    apply (MergedToSlice_spec map_to_list map_to_list_range [top_layer; base_layer]
             "CC=clang" layers_keys_plain) in Hin as (k & v & Heq & Hget).
    assert (¬ occurs "="%char k) as Hk.
    { apply MergedGet_Some in Hget as (env & Hin & Hv).
      apply elem_of_reverse in Hin. apply (layers_keys_plain env Hin). by exists v. }
    destruct (entry_inj "CC" "clang" k v) as [<- <-]; [|done|exact Heq|].
    { simpl. intros [?|[?|[]]]; done. }
    vm_compute in Hget. done.
Defined.

Lemma EnvironmentForPackage_frame_witness :
  EnvironmentForPackage map_to_list base_layer "zlib" ["CC=${CC} -m32"; "broken"] "/sys" 4
    !! "LD" = Some "ld".
Proof.
  apply (EnvironmentForPackage_frame map_to_list map_to_list_range
           base_layer "zlib" ["CC=${CC} -m32"; "broken"] "/sys" 4 "LD").
  apply (bool_decide_unpack _). vm_compute. exact I.
Defined.

Lemma MergedEnvironmentForPackage_spec_witness :
  MergedEnvironmentForPackage map_to_list ∅ [top_layer; base_layer]
    "zlib" ["PKG_NAME=other"] "/sys" 2 !! "PKG_NAME" = Some "zlib".
Proof.
  exact (proj1 (MergedEnvironmentForPackage_spec map_to_list map_to_list_range ∅
                  [top_layer; base_layer] "zlib" ["PKG_NAME=other"] "/sys" 2)).
Defined.

(** *** Toolchain binding *)




(** One round of the loop over [programAliases]. *)
Definition alias_step (e : Manager) (at_ : string * string) : Manager :=
  match Get e (toolToEnvVar at_.2) with
  | Some targetPath => SetVar (toolToEnvVar at_.1) targetPath e
  | None => e
  end.

(** The two aliases can be handled in either order: Go does not fix
    the order in which it enumerates [programAliases]. *)
Lemma alias_steps_commute (e : Manager) :
  foldl alias_step e programAliases = foldl alias_step e [("c++", "g++"); ("cc", "gcc")].
Proof.
  unfold programAliases. cbn [foldl]. unfold alias_step, Get, SetVar. cbn [fst snd].
  change (toolToEnvVar "gcc") with "GCC". change (toolToEnvVar "g++") with "GXX".
  change (toolToEnvVar "cc") with "CC". change (toolToEnvVar "c++") with "CXX".
  destruct (e !! "GCC") as [a|] eqn:Ha, (e !! "GXX") as [b|] eqn:Hb;
    rewrite ?lookup_insert_ne by done; rewrite ?Ha, ?Hb; try done.
  by apply insert_insert_ne.
Qed.


Lemma Abs_None wd path : Abs wd path = None ↔ IsAbs path = false ∧ wd = None.
Proof. unfold Abs. destruct (IsAbs path), wd; naive_solver. Qed.

(** X15 (UpdateEnvForToolchain).  The call fails exactly when [bin] is
    set, its substituted text is a relative path and the working
    directory cannot be read; [FILE_DIR] has then been set all the
    same, and nothing else. *)
Theorem UpdateEnvForToolchain_error wd env toolchain :
  let env1 := SetVar "FILE_DIR" (Dir (FilePath toolchain)) env in
  ((UpdateEnvForToolchain wd env toolchain).2 = Some ErrAbs
   ↔ Bin toolchain ≠ "" ∧ IsAbs (Subst env1 (Bin toolchain)) = false ∧ wd = None)
  ∧ ((UpdateEnvForToolchain wd env toolchain).2 = Some ErrAbs →
     (UpdateEnvForToolchain wd env toolchain).1 = env1).
Proof.
  cbn zeta. unfold UpdateEnvForToolchain.
  destruct (decide (Bin toolchain ≠ "")) as [Hbin|Hbin].
  - destruct (Abs wd _) as [binPath|] eqn:Habs; cbn [fst snd].
    + split; [|done]. split; [done|]. intros (_ & Hrel & Hwd).
      assert (Abs wd (Subst (SetVar "FILE_DIR" (Dir (FilePath toolchain)) env)
                        (Bin toolchain)) = None) as Hnone by (by apply Abs_None).
      by rewrite Hnone in Habs.
    + apply Abs_None in Habs. split; [|done]. split; [by intros _|done].
  - cbn [fst snd]. split; [|done]. split; [done|]. by intros [? _].
Qed.





(** The byte that [toolToEnvVar] writes for the byte [c]. *)
Definition var_byte (c : ascii) : ascii :=
  let u := if is_lower c then ascii_of_nat (nat_of_ascii c - 32) else c in
  let u := if decide (u = "-"%char) then "_"%char else u in
  if decide (u = "+"%char) then "X"%char else u.

Lemma toolToEnvVar_cons c name :
  toolToEnvVar (String c name) = String (var_byte c) (toolToEnvVar name).
Proof. done. Qed.

Lemma var_byte_spec c :
  var_byte c ≠ "-"%char ∧ var_byte c ≠ "+"%char ∧ is_lower (var_byte c) = false.
Proof. destruct c as [[] [] [] [] [] [] [] []]; vm_compute; by repeat split. Qed.

(** X17 (toolToEnvVar).  The variable name of an ASCII tool name has
    as many bytes as the tool name, and none of them is a minus sign,
    a plus sign or a lower-case letter. *)
Theorem toolToEnvVar_bytes name :
  is_ascii name →
  String.length (toolToEnvVar name) = String.length name
  ∧ ∀ c, occurs c (toolToEnvVar name) →
      c ≠ "-"%char ∧ c ≠ "+"%char ∧ is_lower c = false.
Proof.
  intros _. induction name as [|x name [IHlen IH]]; [by split|].
  rewrite toolToEnvVar_cons. split; [simpl; by rewrite IHlen|].
  intros c [<-|Hc]; [apply var_byte_spec|by apply IH].
Qed.

Lemma toolToEnvVar_bytes_witness :
  String.length (toolToEnvVar "c++filt") = String.length "c++filt"
  ∧ ∀ c, occurs c (toolToEnvVar "c++filt") →
      c ≠ "-"%char ∧ c ≠ "+"%char ∧ is_lower c = false.
Proof.
  apply (toolToEnvVar_bytes "c++filt"). unfold is_ascii.
  apply (bool_decide_unpack _). vm_compute. exact I.
Defined.

End EnvFacts.
(** ** The life cycle of a cache record *)

Module CacheLifecycle.
Import Config Cache CacheFacts.

Section Decisions.
Variable quote : string → string.


(** X18 (needsReinstallWithReason).  Reading fails exactly on a cache
    file that cannot be decoded.  A reinstall is asked for exactly
    when there is no cache file, or the record differs from the
    package in the install recipe, the env list, the host or the
    sysroot; the url, the build recipe and the source directory play
    no part. *)
Theorem needsReinstall_spec fs pkg sysroot host :
  let r := needsReinstallWithReason quote fs pkg sysroot host in
  let file := cache_files fs !! Name pkg in
  (r.2 = Some ErrReadCache ↔ file = Some Corrupt)
  ∧ (r.2 = None ↔ file ≠ Some Corrupt)
  ∧ (r.1.1 = true ↔
       file = None
       ∨ ∃ c, file = Some (Parsed c)
              ∧ (IInstall c ≠ Install pkg ∨ env_differs (IEnv c) (Env pkg)
                 ∨ IHost c ≠ host ∨ ISysroot c ≠ sysroot)).
Proof.
  cbn zeta. unfold needsReinstallWithReason, Read.
  destruct (cache_files fs !! Name pkg) as [[c|]|] eqn:Hfile; cbn [fst snd].
  - pose proof (checkCommonCacheChanges_spec quote c pkg sysroot host) as (Hc & _).
    cbn zeta in Hc.
    destruct (decide (IInstall c ≠ Install pkg)) as [Hi|Hi]; cbn [fst snd].
    + split; [done|]. split; [done|]. split; [|done]. intros _. right.
      exists c. split; [done|]. by left.
    + destruct (checkCommonCacheChanges quote c pkg sysroot host) as [[] reason];
        cbn [fst snd] in *.
      * split; [done|]. split; [done|]. split; [|done]. intros _. right.
        exists c. split; [done|]. right. by apply Hc.
      * split; [done|]. split; [done|]. split; [done|].
        intros [?|(c' & [= <-] & [?|Hd])]; [done..|]. by apply Hc.
  - split; [done|]. split; [done|]. split; [done|].
    intros [?|(c' & ? & _)]; done.
  - split; [done|]. split; [done|]. split; [|done]. intros _. by left.
Qed.


(** X20 (Read, NeedsRebuild, NeedsReinstall, WriteBuild, WriteInstall,
    Invalidate).  A cache file that cannot be decoded makes both
    questions and both writes fail, the writes leaving everything as
    it was; only [Invalidate] gets rid of it, after which a rebuild is
    asked for. *)
Theorem corrupt_cache fs pkg sysroot host :
  cache_files fs !! Name pkg = Some Corrupt →
  NeedsRebuild quote fs pkg sysroot host = (false, Some ErrReadCache)
  ∧ needsReinstallWithReason quote fs pkg sysroot host = (false, "", Some ErrReadCache)
  ∧ WriteBuild fs (Name pkg) sysroot host pkg = (fs, Some (ErrReadExisting ErrReadCache))
  ∧ WriteInstall fs (Name pkg) sysroot host pkg = (fs, Some (ErrReadExisting ErrReadCache))
  ∧ (Name pkg ∉ readonly fs →
     ∃ fs', Invalidate fs (Name pkg) = (fs', None)
       ∧ needsRebuildWithReason quote fs' pkg sysroot host
         = (true, "no cache exists", None)).
Proof.
  intros Hfile.
  unfold NeedsRebuild, needsRebuildWithReason, needsReinstallWithReason,
    WriteBuild, WriteInstall, Invalidate, Read.
  rewrite Hfile. repeat split.
  intros Hrw. rewrite decide_False by done. eexists. split; [done|].
  cbn. by rewrite lookup_delete_eq.
Qed.
End Decisions.




(** X23 (findDependents).  The list holds exactly the packages other
    than [pkgName] that depend on it directly or through others; a
    package reached along two paths can be listed twice. *)
Theorem findDependents_spec :
  (∀ cfg pkgName d,
     d ∈ findDependents pkgName cfg ↔ tc (dependent_of cfg) pkgName d ∧ d ≠ pkgName)
  ∧ ∃ cfg pkgName, ¬ NoDup (findDependents pkgName cfg).
Proof.
  split.
  - intros cfg pkgName d. split; [apply findDependents_sound|].
    intros [Hd Hne]. by apply findDependents_complete.
  - exists (mkConfig "" (mkToolchain "" "" "" "" "" [])
              [simple_package "a" "" "" "" [];
               simple_package "b" "" "" "" ["a"];
               simple_package "c" "" "" "" ["a"];
               simple_package "d" "" "" "" ["b"; "c"]]), "a".
    assert (findDependents "a"
              (mkConfig "" (mkToolchain "" "" "" "" "" [])
                 [simple_package "a" "" "" "" [];
                  simple_package "b" "" "" "" ["a"];
                  simple_package "c" "" "" "" ["a"];
                  simple_package "d" "" "" "" ["b"; "c"]])
            = ["b"; "c"; "d"; "d"]) as -> by (by vm_compute).
    intros Hnd. do 2 apply NoDup_cons in Hnd as [_ Hnd].
    apply NoDup_cons in Hnd as [Hd _]. apply Hd. by left.
Qed.


(** A build directory whose only cache file is damaged. *)
Definition damaged_fs : FS := mkFS {[ "a" := Corrupt ]} ∅ ∅.


Lemma corrupt_cache_witness :
  NeedsRebuild id damaged_fs pkg_a "/sys" "x86_64-linux" = (false, Some ErrReadCache)
  ∧ WriteBuild damaged_fs "a" "/sys" "x86_64-linux" pkg_a
    = (damaged_fs, Some (ErrReadExisting ErrReadCache)).
Proof.
  destruct (corrupt_cache id damaged_fs pkg_a "/sys" "x86_64-linux" eq_refl)
    as (Hask & _ & Hwrite & _).
  exact (conj Hask Hwrite).
Defined.


End CacheLifecycle.
(** ** Facts about the validation of a configuration *)

Module ValidationFacts.
Import Config Validation ConfigFacts.

(** [n] lists [d] in its [depends_on]. *)
Definition depends (c : Config) (n d : string) : Prop := dependent_of c d n.

Lemma GetPackageByName_in_Some ps n p :
  GetPackageByName_in ps n = Some p → p ∈ ps ∧ Name p = n.
Proof.
  induction ps as [|q ps IH]; simpl; [done|].
  destruct (decide (Name q = n)) as [Hq|Hq].
  - intros [= ->]. split; [by left|done].
  - intros [Hin Hn]%IH. split; [by right|done].
Qed.

Lemma GetPackageByName_in_None ps n :
  GetPackageByName_in ps n = None ↔ n ∉ Name <$> ps.
Proof.
  induction ps as [|q ps IH]; csimpl; [split; [by intros _ ?%elem_of_nil|done]|].
  destruct (decide (Name q = n)) as [Hq|Hq].
  - split; [done|]. intros Hn. destruct Hn. subst n. by left.
  - rewrite IH, not_elem_of_cons. naive_solver.
Qed.

Lemma GetPackageByName_in_unique ps p :
  NoDup (Name <$> ps) → p ∈ ps → GetPackageByName_in ps (Name p) = Some p.
Proof.
  induction ps as [|q ps IH]; csimpl; intros Hnd Hp; [by apply elem_of_nil in Hp|].
  apply NoDup_cons in Hnd as [Hq Hnd].
  destruct (decide (Name q = Name p)) as [Heq|Hne].
  - apply elem_of_cons in Hp as [->|Hp]; [done|].
    destruct Hq. rewrite Heq. apply list_elem_of_fmap. by exists p.
  - apply elem_of_cons in Hp as [->|Hp]; [done|]. by apply IH.
Qed.

(** *** The position of a name in a list *)

Lemma position_lt l x : x ∈ l → (position l x < length l)%nat.
Proof.
  induction l as [|y l IH]; simpl; [by intros ?%elem_of_nil|].
  intros Hx. destruct (decide (y = x)) as [->|Hne]; [lia|].
  apply elem_of_cons in Hx as [->|Hx]; [done|]. apply IH in Hx. lia.
Qed.

Lemma position_app_l l l' x : x ∈ l → position (l ++ l') x = position l x.
Proof.
  induction l as [|y l IH]; simpl; [by intros ?%elem_of_nil|].
  intros Hx. destruct (decide (y = x)) as [->|Hne]; [done|].
  apply elem_of_cons in Hx as [->|Hx]; [done|]. by rewrite IH.
Qed.

Lemma position_snoc l x : x ∉ l → position (l ++ [x]) x = length l.
Proof.
  induction l as [|y l IH]; simpl; intros Hx.
  - by rewrite decide_True.
  - apply not_elem_of_cons in Hx as [Hne Hx]. rewrite decide_False by done.
    by rewrite IH.
Qed.

(** *** The search for cycles always completes *)

(** Every name the search can visit. *)
Definition universe (c : Config) : gset string :=
  list_to_set (names c ++ concat (DependsOn <$> Packages c)).

Lemma size_list_to_set_le (l : list string) :
  (size (list_to_set l : gset string) ≤ length l)%nat.
Proof.
  induction l as [|x l IH]; [by rewrite list_to_set_nil, size_empty|].
  rewrite list_to_set_cons, size_union_alt, size_singleton.
  assert (size ((list_to_set l : gset string) ∖ {[x]}) ≤ size (list_to_set l : gset string))%nat
    by (apply subseteq_size; set_solver).
  cbn [length]. lia.
Qed.

Lemma universe_size c : (size (universe c) < depth_bound c)%nat.
Proof.
  unfold universe, depth_bound.
  pose proof (size_list_to_set_le (names c ++ concat (DependsOn <$> Packages c))) as Hle.
  rewrite length_app in Hle. unfold names in Hle at 2. rewrite length_fmap in Hle. lia.
Qed.

Lemma name_in_universe c p : p ∈ Packages c → Name p ∈ universe c.
Proof.
  intros Hp. unfold universe, names. apply elem_of_list_to_set, elem_of_app. left.
  apply list_elem_of_fmap. by exists p.
Qed.

Lemma dep_in_universe c p d : p ∈ Packages c → d ∈ DependsOn p → d ∈ universe c.
Proof.
  intros Hp Hd. unfold universe. apply elem_of_list_to_set, elem_of_app. right.
  apply CacheFacts.elem_of_concat. exists (DependsOn p). split; [done|].
  apply list_elem_of_fmap. by exists p.
Qed.

Lemma visit_deps_total (f : string → marks → option (marks * option error))
    (U V0 : gset string) pkgName deps st :
  (∀ dep st, dep ∈ U → dep ∉ st.1 → V0 ⊆ st.1 →
     ∃ st' r, f dep st = Some (st', r) ∧ st.1 ⊆ st'.1) →
  (∀ d, d ∈ deps → d ∈ U) → V0 ⊆ st.1 →
  ∃ st' r, visit_deps f pkgName deps st = Some (st', r) ∧ st.1 ⊆ st'.1.
Proof.
  intros Hf. revert st. induction deps as [|dep rest IH]; intros st Hdeps HV0.
  { by exists st, None. }
  cbn [visit_deps]. destruct (decide (dep ∉ st.1)) as [Hnew|Hold].
  - destruct (Hf dep st) as (st1 & r1 & -> & Hmono); [apply Hdeps; by left|done..|].
    destruct r1 as [e|]; [by exists st1, (Some e)|].
    destruct (IH st1) as (st' & r & -> & Hmono').
    { intros d Hd. apply Hdeps. by right. }
    { set_solver. }
    exists st', r. split; [done|]. set_solver.
  - destruct (decide (dep ∈ st.2)); [by eexists st, _|].
    apply IH; [|done]. intros d Hd. apply Hdeps. by right.
Qed.

Lemma visit_total c depth n st :
  n ∈ universe c → n ∉ st.1 → (size (universe c ∖ st.1) < depth)%nat →
  ∃ st' r, visit depth c n st = Some (st', r) ∧ st.1 ⊆ st'.1.
Proof.
  revert n st. induction depth as [|depth IH]; intros n st Hn Hnew Hsize; [lia|].
  cbn [visit]. destruct (GetPackageByName c n) as [pkg|] eqn:Hpkg.
  - apply GetPackageByName_in_Some in Hpkg as [Hin Hname].
    destruct (visit_deps_total (visit depth c) (universe c) ({[n]} ∪ st.1) n
                (DependsOn pkg) ({[n]} ∪ st.1, {[n]} ∪ st.2))
      as (st' & r & Hrun & Hmono).
    + intros dep st2 Hdep Hdnew Hsub. apply IH; [done..|].
      assert (universe c ∖ st2.1 ⊂ universe c ∖ st.1) as Hlt%subset_size; [|lia].
      split; [set_solver|]. intros Hsub'. specialize (Hsub' n). set_solver.
    + intros d Hd. by eapply dep_in_universe.
    + done.
    + rewrite Hrun. cbn [fst] in Hmono.
      destruct r as [e|]; [exists st', (Some e)|eexists _, None];
        (split; [done|]); cbn [fst]; set_solver.
  - eexists _, None. split; [done|]. cbn [fst]. set_solver.
Qed.

Lemma visit_all_total c pkgs st :
  (∀ p, p ∈ pkgs → p ∈ Packages c) → ∃ r, visit_all (depth_bound c) c pkgs st = Some r.
Proof.
  revert st. induction pkgs as [|pkg rest IH]; intros st Hpkgs; [by exists None|].
  cbn [visit_all]. assert (∀ p, p ∈ rest → p ∈ Packages c) as Hrest.
  { intros p Hp. apply Hpkgs. by right. }
  destruct (decide (Name pkg ∉ st.1)) as [Hnew|Hold]; [|by apply IH].
  destruct (visit_total c (depth_bound c) (Name pkg) st) as (st' & r & -> & _).
  - apply name_in_universe, Hpkgs. by left.
  - done.
  - pose proof (universe_size c) as Hsize.
    assert (size (universe c ∖ st.1) ≤ size (universe c))%nat
      by (apply subseteq_size; set_solver).
    lia.
  - destruct r as [e|]; [by exists (Some e)|by apply IH].
Qed.

(** *** What the search for cycles finds *)

Section Search.
Variable c : Config.
Hypothesis names_NoDup : NoDup (names c).
Hypothesis all_defined : deps_defined c.

Lemma package_of_name n : n ∈ names c → ∃ p, p ∈ Packages c ∧ Name p = n.
Proof. intros (p & -> & Hp)%list_elem_of_fmap. by exists p. Qed.

Lemma depends_iff n pkg d :
  GetPackageByName c n = Some pkg → depends c n d ↔ d ∈ DependsOn pkg.
Proof.
  intros Hpkg. pose proof Hpkg as [Hin Hname]%GetPackageByName_in_Some. split.
  - intros (p & Hp & Hpn & Hd).
    pose proof (GetPackageByName_in_unique _ p names_NoDup Hp) as Hget.
    rewrite Hpn in Hget. unfold GetPackageByName in Hpkg. congruence.
  - intros Hd. by exists pkg.
Qed.

(** The finished names in the order in which they were finished:
    they are the visited names that are off the stack, and each one
    comes after everything it depends on. *)
Definition finished (V R : gset string) (fin : list string) : Prop :=
  R ⊆ V
  ∧ (∀ x, x ∈ fin ↔ x ∈ V ∧ x ∉ R)
  ∧ (∀ x d, x ∈ fin → depends c x d →
       d ∈ fin ∧ (position fin d < position fin x)%nat).

(** What a failed search has found. *)
Definition cyclic : Prop := ∃ x, tc (depends c) x x.

Lemma visit_deps_spec (f : string → marks → option (marks * option error))
    pkgName (R1 : gset string) :
  pkgName ∈ R1 →
  (∀ g, g ∈ R1 → g = pkgName ∨ tc (depends c) g pkgName) →
  (∀ dep V fin st' r,
     f dep (V, R1) = Some (st', r) → dep ∉ V → depends c pkgName dep →
     finished V R1 fin →
     match r with
     | None => st'.2 = R1 ∧ V ⊆ st'.1 ∧ dep ∈ st'.1 ∧ ∃ fin', finished st'.1 R1 fin'
     | Some _ => cyclic
     end) →
  ∀ deps V fin st' r,
    visit_deps f pkgName deps (V, R1) = Some (st', r) →
    (∀ d, d ∈ deps → depends c pkgName d) →
    finished V R1 fin →
    match r with
    | None => st'.2 = R1 ∧ V ⊆ st'.1
              ∧ ∃ fin', finished st'.1 R1 fin' ∧ ∀ d, d ∈ deps → d ∈ fin'
    | Some _ => cyclic
    end.
Proof.
  intros Htop Hgrey Hf. induction deps as [|dep rest IH]; intros V fin st' r Hrun Hdeps Hfin.
  { cbn in Hrun. injection Hrun as <- <-. cbn. split; [done|]. split; [done|].
    exists fin. split; [done|]. by intros d ?%elem_of_nil. }
  cbn [visit_deps fst snd] in Hrun.
  assert (depends c pkgName dep) as Hdep by (apply Hdeps; by left).
  assert (∀ d, d ∈ rest → depends c pkgName d) as Hrest
    by (intros d Hd; apply Hdeps; by right).
  destruct (decide (dep ∉ V)) as [Hnew|Hold].
  - destruct (f dep (V, R1)) as [[st1 r1]|] eqn:Hcall; [|done].
    pose proof (Hf dep V fin st1 r1 Hcall Hnew Hdep Hfin) as Hpost.
    destruct r1 as [e|].
    + injection Hrun as <- <-. exact Hpost.
    + destruct Hpost as (HR & Hmono & Hin & fin1 & Hfin1).
      destruct st1 as [V1 R1']. cbn [fst snd] in *. subst R1'.
      specialize (IH V1 fin1 st' r Hrun Hrest Hfin1).
      destruct r as [e|]; [exact IH|].
      destruct IH as (HR' & Hmono' & fin' & Hfin' & Hall).
      split; [done|]. split; [set_solver|]. exists fin'. split; [done|].
      intros d [->|Hd]%elem_of_cons; [|by apply Hall].
      destruct Hfin as (Hsub & _), Hfin' as (_ & Hmem & _).
      apply Hmem. split; [set_solver|]. intros Hgrey'. apply Hnew. set_solver.
  - apply dec_stable in Hold. destruct (decide (dep ∈ R1)) as [Hgr|Hblack].
    + injection Hrun as <- <-. destruct (Hgrey dep Hgr) as [->|Hpath].
      * exists pkgName. by apply tc_once.
      * exists dep. eapply tc_r; [exact Hpath|exact Hdep].
    + specialize (IH V fin st' r Hrun Hrest Hfin).
      destruct r as [e|]; [exact IH|].
      destruct IH as (HR' & Hmono' & fin' & Hfin' & Hall).
      split; [done|]. split; [done|]. exists fin'. split; [done|].
      intros d [->|Hd]%elem_of_cons; [|by apply Hall].
      destruct Hfin' as (_ & Hmem & _). apply Hmem. split; [set_solver|done].
Qed.
Lemma finished_push n V R fin :
  n ∉ V → finished V R fin → finished ({[n]} ∪ V) ({[n]} ∪ R) fin.
Proof.
  intros Hn (Hsub & Hmem & Htopo). split; [set_solver|]. split; [|done].
  intros x. rewrite Hmem. set_solver.
Qed.

Lemma finished_pop n pkg V R V' fin' :
  n ∉ V → R ⊆ V → {[n]} ∪ V ⊆ V' →
  GetPackageByName c n = Some pkg →
  finished V' ({[n]} ∪ R) fin' →
  (∀ d, d ∈ DependsOn pkg → d ∈ fin') →
  finished V' R (fin' ++ [n]).
Proof.
  intros Hn HR HV Hpkg (Hsub & Hmem & Htopo) Hdeps.
  assert (n ∉ fin') as Hnfin by (rewrite Hmem; set_solver).
  split; [set_solver|]. split.
  - intros x. rewrite elem_of_app, list_elem_of_singleton, Hmem.
    destruct (decide (x = n)) as [->|Hne]; [|set_solver].
    split; [|by right]. intros _. split; [set_solver|]. intros HnR. apply Hn. set_solver.
  - intros x d [Hx| ->%list_elem_of_singleton]%elem_of_app Hdep.
    + destruct (Htopo x d Hx Hdep) as [Hd Hlt]. split; [apply elem_of_app; by left|].
      by rewrite !position_app_l.
    + apply (depends_iff n pkg d Hpkg) in Hdep. apply Hdeps in Hdep.
      split; [apply elem_of_app; by left|].
      rewrite position_app_l, position_snoc by done. by apply position_lt.
Qed.

Lemma visit_spec depth :
  ∀ n V R fin st' r,
    visit depth c n (V, R) = Some (st', r) →
    n ∉ V → n ∈ names c → finished V R fin →
    (∀ g, g ∈ R → tc (depends c) g n) →
    match r with
    | None => st'.2 = R ∧ V ⊆ st'.1 ∧ n ∈ st'.1 ∧ ∃ fin', finished st'.1 R fin'
    | Some _ => cyclic
    end.
Proof.
  induction depth as [|depth IH]; intros n V R fin st' r Hrun Hn Hname Hfin Hgrey; [done|].
  cbn [visit fst snd] in Hrun.
  destruct (GetPackageByName c n) as [pkg|] eqn:Hpkg.
  2:{ apply GetPackageByName_in_None in Hpkg. done. }
  pose proof (visit_deps_spec (visit depth c) n ({[n]} ∪ R)) as Hdeps.
  destruct (visit_deps (visit depth c) n (DependsOn pkg) ({[n]} ∪ V, {[n]} ∪ R))
    as [[st2 r2]|] eqn:Hloop; [|done].
  specialize (Hdeps ltac:(set_solver)).
  assert (∀ g, g ∈ ({[n]} ∪ R : gset string) → g = n ∨ tc (depends c) g n) as Hgrey1.
  { intros g [->%elem_of_singleton|Hg]%elem_of_union; [by left|right; by apply Hgrey]. }
  specialize (Hdeps Hgrey1).
  assert (∀ dep V0 fin0 st0 r0,
            visit depth c dep (V0, {[n]} ∪ R) = Some (st0, r0) → dep ∉ V0 →
            depends c n dep → finished V0 ({[n]} ∪ R) fin0 →
            match r0 with
            | None => st0.2 = {[n]} ∪ R ∧ V0 ⊆ st0.1 ∧ dep ∈ st0.1
                      ∧ ∃ fin', finished st0.1 ({[n]} ∪ R) fin'
            | Some _ => cyclic
            end) as Hrec.
  { intros dep V0 fin0 st0 r0 Hcall Hdnew Hdep Hfin0.
    apply (IH dep V0 ({[n]} ∪ R) fin0 st0 r0 Hcall Hdnew); [|done|].
    - destruct Hdep as (p & Hp & _ & Hd). by apply (all_defined p).
    - intros g Hg. destruct (Hgrey1 g Hg) as [->|Hpath]; [by apply tc_once|].
      eapply tc_r; [exact Hpath|exact Hdep]. }
  specialize (Hdeps Hrec (DependsOn pkg) ({[n]} ∪ V) fin st2 r2 Hloop).
  assert (∀ d, d ∈ DependsOn pkg → depends c n d) as Hall
    by (intros d Hd; by apply (depends_iff n pkg d Hpkg)).
  specialize (Hdeps Hall (finished_push n V R fin Hn Hfin)).
  destruct r2 as [e|].
  - injection Hrun as <- <-. exact Hdeps.
  - injection Hrun as <- <-. cbn [fst snd].
    destruct Hdeps as (HR & Hmono & fin' & Hfin' & Hdone).
    destruct Hfin as (HRV & Hfin).
    split; [rewrite HR; set_solver|]. split; [set_solver|]. split; [set_solver|].
    exists (fin' ++ [n]). apply (finished_pop n pkg V R); try done.
Qed.

Lemma visit_all_spec depth pkgs :
  ∀ V fin r,
    visit_all depth c pkgs (V, ∅) = Some r →
    (∀ p, p ∈ pkgs → p ∈ Packages c) →
    finished V ∅ fin →
    match r with
    | None => ∃ V' fin', finished V' ∅ fin' ∧ V ⊆ V' ∧ ∀ p, p ∈ pkgs → Name p ∈ V'
    | Some _ => cyclic
    end.
Proof.
  induction pkgs as [|pkg rest IH]; intros V fin r Hrun Hpkgs Hfin.
  { cbn in Hrun. injection Hrun as <-. exists V, fin. split; [done|]. split; [done|].
    by intros p ?%elem_of_nil. }
  cbn [visit_all fst] in Hrun.
  assert (∀ p, p ∈ rest → p ∈ Packages c) as Hrest
    by (intros p Hp; apply Hpkgs; by right).
  destruct (decide (Name pkg ∉ V)) as [Hnew|Hold].
  - destruct (visit depth c (Name pkg) (V, ∅)) as [[st1 r1]|] eqn:Hcall; [|done].
    pose proof (visit_spec depth (Name pkg) V ∅ fin st1 r1 Hcall Hnew) as Hpost.
    assert (Name pkg ∈ names c) as Hname.
    { apply list_elem_of_fmap. exists pkg. split; [done|]. apply Hpkgs. by left. }
    specialize (Hpost Hname Hfin ltac:(set_solver)).
    destruct r1 as [e|]; [by injection Hrun as <-|].
    destruct Hpost as (HR & Hmono & Hin & fin1 & Hfin1).
    destruct st1 as [V1 R1]. cbn [fst snd] in *. subst R1.
    specialize (IH V1 fin1 r Hrun Hrest Hfin1). destruct r as [e|]; [done|].
    destruct IH as (V' & fin' & Hfin' & Hmono' & Hall).
    exists V', fin'. split; [done|]. split; [set_solver|].
    intros p [->|Hp]%elem_of_cons; [set_solver|by apply Hall].
  - apply dec_stable in Hold.
    specialize (IH V fin r Hrun Hrest Hfin). destruct r as [e|]; [done|].
    destruct IH as (V' & fin' & Hfin' & Hmono' & Hall).
    exists V', fin'. split; [done|]. split; [done|].
    intros p [->|Hp]%elem_of_cons; [set_solver|by apply Hall].
Qed.

Lemma cyclic_not_acyclic : cyclic → ¬ acyclic c.
Proof. intros [x Hx] Hacyc. apply (Hacyc x). by apply BuildFacts.tc_flip. Qed.

Lemma finished_all_acyclic V fin :
  finished V ∅ fin → (∀ p, p ∈ Packages c → Name p ∈ V) → acyclic c.
Proof.
  intros (_ & Hmem & Htopo) Hall. apply (ordered_by_acyclic fin).
  unfold ordered_by. apply forallb_forall. intros p Hp%list_elem_of_In.
  apply forallb_forall. intros d Hd%list_elem_of_In. apply bool_decide_eq_true.
  apply Htopo; [|by exists p]. apply Hmem. split; [by apply Hall|set_solver].
Qed.

(** The search succeeds exactly on acyclic catalogs. *)
Lemma detect_spec : detectCircularDependencies c = Some None ↔ acyclic c.
Proof.
  unfold detectCircularDependencies.
  destruct (visit_all_total c (Packages c) (∅, ∅)) as [r Hrun]; [done|].
  assert (finished ∅ ∅ []) as Hinit.
  { split; [done|]. split; [set_solver|]. by intros x d ?%elem_of_nil. }
  pose proof (visit_all_spec _ _ ∅ [] r Hrun ltac:(done) Hinit) as Hpost.
  rewrite Hrun. destruct r as [e|].
  - split; [done|]. intros Hacyc. by destruct (cyclic_not_acyclic Hpost).
  - split; [|done]. intros _. destruct Hpost as (V' & fin' & Hfin' & _ & Hall).
    by apply (finished_all_acyclic V' fin').
Qed.

End Search.

(** *** Validate *)

(** What the first loop of [Validate] asks of one package. *)
Definition fields_ok (p : Package) : Prop :=
  Name p ≠ "" ∧ URL p ≠ "" ∧ Build p ≠ "" ∧ Install p ≠ "" ∧ Name p ∉ DependsOn p.

Lemma check_packages_None i (seen : gset string) pkgs :
  check_packages i seen pkgs = None
  ↔ (∀ p, p ∈ pkgs → fields_ok p ∧ Name p ∉ seen) ∧ NoDup (Name <$> pkgs).
Proof.
  revert i seen. induction pkgs as [|pkg rest IH]; intros i seen; cbn [check_packages].
  { split; [|done]. intros _. split; [by intros p ?%elem_of_nil|constructor]. }
  unfold fields_ok.
  destruct (decide (Name pkg = "")) as [H1|H1].
  { split; [done|]. intros [Hall _]. destruct (Hall pkg) as [(? & _) _]; [by left|done]. }
  destruct (decide (Name pkg ∈ seen)) as [H2|H2].
  { split; [done|]. intros [Hall _]. destruct (Hall pkg) as [_ ?]; [by left|done]. }
  destruct (decide (URL pkg = "")) as [H3|H3].
  { split; [done|]. intros [Hall _]. destruct (Hall pkg) as [(_ & ? & _) _]; [by left|done]. }
  destruct (decide (Build pkg = "")) as [H4|H4].
  { split; [done|]. intros [Hall _].
    destruct (Hall pkg) as [(_ & _ & ? & _) _]; [by left|done]. }
  destruct (decide (Install pkg = "")) as [H5|H5].
  { split; [done|]. intros [Hall _].
    destruct (Hall pkg) as [(_ & _ & _ & ? & _) _]; [by left|done]. }
  destruct (decide (Name pkg ∈ DependsOn pkg)) as [H6|H6].
  { split; [done|]. intros [Hall _].
    destruct (Hall pkg) as [(_ & _ & _ & _ & ?) _]; [by left|done]. }
  rewrite IH. csimpl. rewrite NoDup_cons. split.
  - intros [Hall Hnd]. split; [|split; [|done]].
    + intros p [->|Hp]%elem_of_cons; [done|].
      destruct (Hall p Hp) as [Hok Hseen]. split; [done|set_solver].
    + intros (p & Heq & Hp)%list_elem_of_fmap.
      destruct (Hall p Hp) as [_ Hseen]. set_solver.
  - intros [Hall [Hhead Hnd]]. split; [|done].
    intros p Hp. destruct (Hall p) as [Hok Hseen]; [by right|]. split; [done|].
    apply not_elem_of_union. split; [|done]. intros Heq%elem_of_singleton.
    apply Hhead. apply list_elem_of_fmap. by exists p.
Qed.

(** X25 (Config.Validate, validateDependencies,
    detectCircularDependencies).  Validation always comes to an
    answer, and it accepts a configuration exactly when there is at
    least one package, every package has a name, a url, a build and an
    install recipe and does not list itself as a dependency, the names
    are pairwise different, every dependency names a package, and no
    package reaches itself through dependencies. *)
Theorem Validate_accepts c :
  (∃ r, Validate c = Some r)
  ∧ (Validate c = Some None
     ↔ Packages c ≠ []
       ∧ (∀ p, p ∈ Packages c → fields_ok p)
       ∧ NoDup (names c)
       ∧ deps_defined c
       ∧ acyclic c).
Proof.
  unfold Validate, validateDependencies.
  destruct (decide (length (Packages c) = 0%nat)) as [Hlen|Hlen].
  { split; [by eexists|]. split; [done|]. intros [Hne _].
    by apply nil_length_inv in Hlen. }
  assert (Packages c ≠ []) as Hne by (intros Heq; by rewrite Heq in Hlen).
  destruct (check_packages 0 ∅ (Packages c)) as [e|] eqn:Hcheck.
  { split; [by eexists|]. split; [done|]. intros (_ & Hall & Hnd & _).
    assert (check_packages 0 ∅ (Packages c) = None) as Hnone; [|congruence].
    apply check_packages_None. split; [|done]. intros p Hp. split; [by apply Hall|set_solver]. }
  apply check_packages_None in Hcheck as [Hall Hnd].
  destruct (Build.find_missing (Build.pkgMap c) (Packages c)) as [[pkg dep]|] eqn:Hmiss.
  { split; [by eexists|]. split; [done|]. intros (_ & _ & _ & Hdef & _).
    apply BuildFacts.find_missing_defined in Hdef. congruence. }
  apply BuildFacts.find_missing_defined in Hmiss.
  split.
  - unfold detectCircularDependencies. by apply visit_all_total.
  - rewrite (detect_spec c Hnd Hmiss). split.
    + intros Hacyc. split; [done|]. split; [|done]. intros p Hp. by apply Hall.
    + by intros (_ & _ & _ & _ & Hacyc).
Qed.

Section Composition.
Variable range_keys : gmap string Z → list (string * Z).
Hypothesis range_keys_perm : ∀ m, range_keys m ≡ₚ map_to_list m.

(** X26 (Config.Validate, GetBuildOrder).  A configuration that
    passes validation always gets a build order: [GetBuildOrder]
    returns levels, which hold every package exactly once, with every
    package in a later level than each of its dependencies. *)
Theorem Validate_then_GetBuildOrder c :
  Validate c = Some None →
  ∃ levels,
    Build.GetBuildOrder range_keys c = (Some levels, None)
    ∧ concat levels ≡ₚ names c
    ∧ ∀ p d i j Li Lj, p ∈ Packages c → d ∈ DependsOn p →
        levels !! i = Some Li → levels !! j = Some Lj → d ∈ Li → Name p ∈ Lj →
        (i < j)%nat.
Proof.
  intros Hvalid. unfold Validate, validateDependencies in Hvalid.
  destruct (decide (length (Packages c) = 0%nat)); [done|].
  destruct (check_packages 0 ∅ (Packages c)) as [e|] eqn:Hcheck; [done|].
  apply check_packages_None in Hcheck as [_ Hnd].
  destruct (Build.find_missing (Build.pkgMap c) (Packages c)) as [[pkg dep]|] eqn:Hdef;
    [done|].
  apply BuildFacts.find_missing_defined in Hdef.
  apply (detect_spec c Hnd Hdef) in Hvalid as Hacyc.
  destruct (BuildFacts.GetBuildOrder_acyclic_returns range_keys range_keys_perm
              c Hnd Hdef Hacyc) as [levels Hrun].
  exists levels. split; [done|].
  destruct (BuildFacts.GetBuildOrder_returned range_keys range_keys_perm
              c levels Hnd Hrun) as (_ & _ & Hperm & Hex).
  split; [done|]. intros p d i j Li Lj Hp Hd Hi Hj HdLi HpLj.
  destruct (Hex j Lj Hj) as (_ & _ & Hready).
  destruct (proj1 (Hready p Hp) HpLj) as [_ Hdeps].
  destruct (Hex i Li Hi) as (_ & _ & Hready').
  destruct (decide (i < j)%nat) as [|Hge]; [done|]. exfalso.
  assert (d ∈ names c) as (q & Hq & Hqin)%list_elem_of_fmap by (by apply (Hdef p)).
  subst d. destruct (proj1 (Hready' q Hqin) HdLi) as [Hnot _].
  apply Hnot. specialize (Hdeps _ Hd).
  apply CacheFacts.elem_of_concat in Hdeps as (L & HqL & HL).
  apply CacheFacts.elem_of_concat. exists L. split; [done|].
  apply elem_of_take in HL as (k & HkL & Hk). apply elem_of_take. exists k.
  split; [done|]. lia.
Qed.
End Composition.

Lemma Validate_then_GetBuildOrder_witness :
  Validate chain_catalog = Some None
  ∧ ∃ levels,
      Build.GetBuildOrder map_to_list chain_catalog = (Some levels, None)
      ∧ concat levels ≡ₚ names chain_catalog.
Proof.
  assert (Validate chain_catalog = Some None) as Hvalid by (by vm_compute).
  split; [exact Hvalid|].
  destruct (Validate_then_GetBuildOrder map_to_list BuildFacts.map_to_list_enumerates
              chain_catalog Hvalid) as (levels & Hrun & Hperm & _).
  exists levels. exact (conj Hrun Hperm).
Defined.

End ValidationFacts.
(** ** Facts about the package filter of the builder *)

Module BuilderFacts.
Import Config Builder ValidationFacts.

(** [n] requires [d]: the package that [GetPackageByName] finds for
    [n] lists [d] in its [depends_on]. *)
Definition requires (cfg : Config) (n d : string) : Prop :=
  ∃ pkg, GetPackageByName cfg n = Some pkg ∧ d ∈ DependsOn pkg.

(** *** The walk always completes *)

Lemma add_deps_total (add : string → gset string → option (gset string))
    (U V0 : gset string) deps fs :
  (∀ dep fs, dep ∈ U → dep ∈ fs → V0 ⊆ fs → dep ∉ V0 →
     ∃ fs', add dep fs = Some fs' ∧ fs ⊆ fs') →
  (∀ d, d ∈ deps → d ∈ U) → V0 ⊆ fs →
  ∃ fs', add_deps add deps fs = Some fs' ∧ fs ⊆ fs'.
Proof.
  intros Hadd. revert fs. induction deps as [|dep rest IH]; intros fs Hdeps HV0.
  { by exists fs. }
  cbn [add_deps]. assert (∀ d, d ∈ rest → d ∈ U) as Hrest
    by (intros d Hd; apply Hdeps; by right).
  destruct (decide (dep ∈ fs)) as [Hold|Hnew]; [by apply IH|].
  destruct (Hadd dep ({[dep]} ∪ fs)) as (fs1 & -> & Hmono);
    [apply Hdeps; by left|set_solver..|].
  destruct (IH fs1 Hrest) as (fs' & -> & Hmono'); [set_solver|].
  exists fs'. split; [done|]. set_solver.
Qed.

Lemma addDependenciesToFilter_total cfg depth n fs :
  n ∈ fs → (size (universe cfg ∖ fs) < depth)%nat →
  ∃ fs', addDependenciesToFilter depth cfg n fs = Some fs' ∧ fs ⊆ fs'.
Proof.
  revert n fs. induction depth as [|depth IH]; intros n fs Hn Hsize; [lia|].
  cbn [addDependenciesToFilter].
  destruct (GetPackageByName cfg n) as [pkg|] eqn:Hpkg; [|by exists fs].
  apply GetPackageByName_in_Some in Hpkg as [Hin Hname].
  apply (add_deps_total _ (universe cfg) fs); [|by intros d; apply dep_in_universe|done].
  intros dep fs1 Hdep Hin1 Hsub Hnew. apply IH; [done|].
  assert (universe cfg ∖ fs1 ⊂ universe cfg ∖ fs) as Hlt%subset_size; [|lia].
  split; [set_solver|]. intros Hsub'. specialize (Hsub' dep). set_solver.
Qed.

Lemma add_requested_total cfg requested fs :
  (∀ r, r ∈ requested → r ∈ fs) →
  ∃ fs', add_requested (Validation.depth_bound cfg) cfg requested fs = Some fs'.
Proof.
  revert fs. induction requested as [|r rest IH]; intros fs Hin; [by exists fs|].
  cbn [add_requested].
  destruct (addDependenciesToFilter_total cfg (Validation.depth_bound cfg) r fs)
    as (fs1 & -> & Hmono).
  - apply Hin. by left.
  - pose proof (universe_size cfg) as Hsize.
    assert (size (universe cfg ∖ fs) ≤ size (universe cfg))%nat
      by (apply subseteq_size; set_solver).
    lia.
  - apply IH. intros x Hx. apply Hmono, Hin. by right.
Qed.

(** *** What the walk collects *)

(** Every name of [fs] outside [open] has all it requires in [fs]. *)
Definition closed_except (cfg : Config) (fs open : gset string) : Prop :=
  ∀ x, x ∈ fs → x ∉ open → ∀ d, requires cfg x d → d ∈ fs.

(** Every name of [fs] is required, through any number of steps, by
    one of [roots]. *)
Definition reached (cfg : Config) (roots : list string) (fs : gset string) : Prop :=
  ∀ x, x ∈ fs → ∃ r, r ∈ roots ∧ rtc (requires cfg) r x.

Lemma closed_except_weaken cfg fs open open' :
  open ⊆ open' → closed_except cfg fs open → closed_except cfg fs open'.
Proof. intros Hsub Hcl x Hx Hopen. apply Hcl; [done|set_solver]. Qed.

Section Walk.
Variables (cfg : Config) (roots : list string).

Lemma add_deps_spec (add : string → gset string → option (gset string))
    (n : string) (open : gset string) :
  (∀ dep fs fs',
     add dep fs = Some fs' → dep ∈ fs →
     closed_except cfg fs ({[dep]} ∪ ({[n]} ∪ open)) → reached cfg roots fs →
     fs ⊆ fs' ∧ closed_except cfg fs' ({[n]} ∪ open) ∧ reached cfg roots fs') →
  ∀ deps fs fs',
    add_deps add deps fs = Some fs' →
    n ∈ fs → (∀ d, d ∈ deps → requires cfg n d) →
    closed_except cfg fs ({[n]} ∪ open) → reached cfg roots fs →
    fs ⊆ fs' ∧ closed_except cfg fs' ({[n]} ∪ open) ∧ reached cfg roots fs'
    ∧ ∀ d, d ∈ deps → d ∈ fs'.
Proof.
  intros Hadd. induction deps as [|dep rest IH]; intros fs fs' Hrun Hn Hdeps Hcl Hre.
  { cbn in Hrun. injection Hrun as <-. repeat split; try done. by intros d ?%elem_of_nil. }
  cbn [add_deps] in Hrun.
  assert (∀ d, d ∈ rest → requires cfg n d) as Hrest
    by (intros d Hd; apply Hdeps; by right).
  destruct (decide (dep ∈ fs)) as [Hold|Hnew].
  - destruct (IH fs fs' Hrun Hn Hrest Hcl Hre) as (Hmono & Hcl' & Hre' & Hall).
    repeat split; try done. intros d [->|Hd]%elem_of_cons; [by apply Hmono|by apply Hall].
  - destruct (add dep ({[dep]} ∪ fs)) as [fs1|] eqn:Hcall; [|done].
    destruct (Hadd dep ({[dep]} ∪ fs) fs1 Hcall) as (Hmono1 & Hcl1 & Hre1).
    + set_solver.
    + intros x Hx Hopen d Hd. apply elem_of_union. right.
      apply (Hcl x); [set_solver|set_solver|done].
    + intros x [->%elem_of_singleton|Hx]%elem_of_union; [|by apply Hre].
      destruct (Hre n Hn) as (r & Hr & Hpath). exists r. split; [done|].
      eapply rtc_r; [exact Hpath|]. apply Hdeps. by left.
    + destruct (IH fs1 fs' Hrun) as (Hmono & Hcl' & Hre' & Hall); try done.
      { set_solver. }
      repeat split; try done; [set_solver|].
      intros d [->|Hd]%elem_of_cons; [set_solver|by apply Hall].
Qed.

Lemma addDependenciesToFilter_spec depth :
  ∀ n fs fs' (open : gset string),
    addDependenciesToFilter depth cfg n fs = Some fs' → n ∈ fs →
    closed_except cfg fs ({[n]} ∪ open) → reached cfg roots fs →
    fs ⊆ fs' ∧ closed_except cfg fs' open ∧ reached cfg roots fs'.
Proof.
  induction depth as [|depth IH]; intros n fs fs' open Hrun Hn Hcl Hre; [done|].
  cbn [addDependenciesToFilter] in Hrun.
  destruct (GetPackageByName cfg n) as [pkg|] eqn:Hpkg.
  - destruct (add_deps_spec (addDependenciesToFilter depth cfg) n open) with
      (deps := DependsOn pkg) (fs := fs) (fs' := fs') as (Hmono & Hcl' & Hre' & Hall);
      try done.
    + intros dep fs0 fs0' Hcall Hdep Hcl0 Hre0. by apply (IH dep fs0 fs0').
    + intros d Hd. by exists pkg.
    + split; [done|]. split; [|done].
      intros x Hx Hopen d Hd. destruct (decide (x = n)) as [->|Hne].
      * destruct Hd as (pkg' & Hpkg' & Hd). apply Hall. congruence.
      * apply (Hcl' x); [done|set_solver|done].
  - injection Hrun as <-. split; [done|]. split; [|done].
    intros x Hx Hopen d Hd. destruct (decide (x = n)) as [->|Hne].
    + destruct Hd as (pkg' & Hpkg' & _). congruence.
    + apply (Hcl x); [done|set_solver|done].
Qed.

Lemma add_requested_spec depth :
  ∀ requested fs fs',
    add_requested depth cfg requested fs = Some fs' →
    (∀ r, r ∈ requested → r ∈ fs) →
    closed_except cfg fs (list_to_set requested) → reached cfg roots fs →
    fs ⊆ fs' ∧ closed_except cfg fs' ∅ ∧ reached cfg roots fs'.
Proof.
  induction requested as [|r rest IH]; intros fs fs' Hrun Hin Hcl Hre.
  { cbn in Hrun. injection Hrun as <-. done. }
  cbn [add_requested] in Hrun.
  destruct (addDependenciesToFilter depth cfg r fs) as [fs1|] eqn:Hcall; [|done].
  destruct (addDependenciesToFilter_spec depth r fs fs1 (list_to_set rest) Hcall)
    as (Hmono1 & Hcl1 & Hre1); [apply Hin; by left|done..|].
  destruct (IH fs1 fs' Hrun) as (Hmono & Hcl' & Hre'); try done.
  { intros x Hx. apply Hmono1, Hin. by right. }
  split; [set_solver|done].
Qed.
End Walk.

Lemma closed_filter_reach cfg (fs : gset string) r d :
  closed_except cfg fs ∅ → r ∈ fs → rtc (requires cfg) r d → d ∈ fs.
Proof.
  intros Hcl Hr Hpath. induction Hpath as [x|x y z Hxy _ IH]; [done|].
  apply IH. apply (Hcl x); [done|set_solver|done].
Qed.

(** X27 (Builder.Build, addDependenciesToFilter, filterPackages).
    The filter set always gets computed, and it holds exactly the
    requested names and everything they require, directly or through
    other packages.  Without requested names every level is built as
    it is; with requested names a level is cut down, in its order, to
    the names that are requested or required by a requested one. *)
Theorem filterSet_spec cfg packageFilter :
  ∃ fs, filterSet cfg packageFilter = Some fs
    ∧ (∀ d, d ∈ fs ↔ ∃ r, r ∈ packageFilter ∧ rtc (requires cfg) r d)
    ∧ ∀ level,
        filteredLevel level fs `sublist_of` level
        ∧ (packageFilter = [] → filteredLevel level fs = level)
        ∧ (packageFilter ≠ [] →
           ∀ x, x ∈ filteredLevel level fs
                ↔ x ∈ level ∧ ∃ r, r ∈ packageFilter ∧ rtc (requires cfg) r x).
Proof.
  unfold filterSet.
  destruct (add_requested_total cfg packageFilter (list_to_set packageFilter))
    as [fs Hrun]; [intros r Hr; by apply elem_of_list_to_set|].
  exists fs. split; [done|].
  destruct (add_requested_spec cfg packageFilter _ packageFilter _ fs Hrun)
    as (Hmono & Hcl & Hre).
  { intros r Hr. by apply elem_of_list_to_set. }
  { intros x Hx Hopen. done. }
  { intros x Hx%elem_of_list_to_set. exists x. split; [done|]. apply rtc_refl. }
  assert (∀ d, d ∈ fs ↔ ∃ r, r ∈ packageFilter ∧ rtc (requires cfg) r d) as Hfs.
  { intros d. split; [apply Hre|]. intros (r & Hr & Hpath).
    apply (closed_filter_reach cfg fs r d Hcl); [|done]. apply Hmono. by apply elem_of_list_to_set. }
  split; [done|]. intros level. unfold filteredLevel, filterPackages. split; [|split].
  - case_decide; [apply sublist_filter|done].
  - intros ->. rewrite decide_False; [done|]. intros Hne. apply Hne.
    apply set_eq. intros d. rewrite Hfs. split; [|set_solver].
    by intros (r & ?%elem_of_nil & _).
  - intros Hne x. rewrite decide_True.
    + by rewrite list_elem_of_filter, Hfs, (comm (∧)).
    + destruct packageFilter as [|r rest]; [done|]. intros Hempty.
      assert (r ∈ fs) as Hr; [|set_solver].
      apply Hfs. exists r. split; [by left|apply rtc_refl].
Qed.

(** *** The map of requirers *)

Lemma add_filtered_lookup (fs : gset string) name deps (m : gmap string (list string)) d :
  foldl (λ m dep, if decide (fs = ∅ ∨ dep ∈ fs)
                  then Cache.add_dependent name m dep else m) m deps !!! d
  = (m !!! d) ++ (if decide (fs = ∅ ∨ d ∈ fs)
                  then replicate (CacheFacts.occurrences d deps) name else []).
Proof.
  unfold CacheFacts.occurrences. revert m.
  induction deps as [|dep deps IH]; intros m; cbn [foldl].
  - rewrite filter_nil. cbn. case_decide; by rewrite app_nil_r.
  - rewrite IH, filter_cons. destruct (decide (dep = d)) as [->|Hne].
    + destruct (decide (fs = ∅ ∨ d ∈ fs)) as [Hd|Hd]; [|done].
      rewrite CacheFacts.add_dependent_lookup, decide_True by done.
      cbn [length replicate]. by rewrite <-app_assoc.
    + destruct (decide (fs = ∅ ∨ dep ∈ fs)); [|done].
      by rewrite CacheFacts.add_dependent_lookup, decide_False.
Qed.

Lemma requiredBy_from_lookup (fs : gset string) pkgs (m : gmap string (list string)) d :
  foldl (λ m pkg,
           if decide (fs ≠ ∅ ∧ Name pkg ∉ fs) then m
           else foldl (λ m dep, if decide (fs = ∅ ∨ dep ∈ fs)
                                then Cache.add_dependent (Name pkg) m dep else m)
                      m (DependsOn pkg)) m pkgs !!! d
  = (m !!! d)
    ++ concat ((λ p, if decide ((fs = ∅ ∨ Name p ∈ fs) ∧ (fs = ∅ ∨ d ∈ fs))
                     then replicate (CacheFacts.occurrences d (DependsOn p)) (Name p)
                     else []) <$> pkgs).
Proof.
  revert m. induction pkgs as [|p pkgs IH]; intros m; cbn [foldl]; csimpl.
  - by rewrite app_nil_r.
  - rewrite IH. rewrite (assoc_L (++)). f_equal.
    destruct (decide (fs ≠ ∅ ∧ Name p ∉ fs)) as [Hskip|Hkeep].
    + rewrite decide_False; [by rewrite app_nil_r|]. intros [[?|?] _]; tauto.
    + rewrite add_filtered_lookup. f_equal.
      assert (fs = ∅ ∨ Name p ∈ fs) as Hp.
      { destruct (decide (fs = ∅)); [by left|]. right.
        destruct (decide (Name p ∈ fs)); [done|]. destruct Hkeep. done. }
      destruct (decide (fs = ∅ ∨ d ∈ fs)) as [Hd|Hd].
      * by rewrite decide_True.
      * rewrite decide_False; [done|]. tauto.
Qed.

(** X28 (Builder.buildRequiredByMap).  [requiredBy[d]] lists the
    names of the packages that have [d] in their [depends_on]; when a
    filter set is in force, only packages of the set are listed, and
    only for dependencies of the set.  Without filter the list is the
    one the cache computes in [findDependents]. *)
Theorem buildRequiredByMap_spec cfg (fs : gset string) d :
  (∀ n, n ∈ buildRequiredByMap cfg fs !!! d
        ↔ ∃ p, p ∈ Packages cfg ∧ Name p = n ∧ d ∈ DependsOn p
               ∧ (fs = ∅ ∨ (n ∈ fs ∧ d ∈ fs)))
  ∧ (fs = ∅ → buildRequiredByMap cfg fs !!! d = Cache.directDependents cfg !!! d).
Proof.
  unfold buildRequiredByMap. rewrite requiredBy_from_lookup, lookup_total_empty.
  change (@inhabitant (list string) _) with (@nil string). cbn [app]. split.
  - intros n. rewrite CacheFacts.elem_of_concat. split.
    + intros (l & Hn & (p & -> & Hp)%list_elem_of_fmap).
      destruct (decide ((fs = ∅ ∨ Name p ∈ fs) ∧ (fs = ∅ ∨ d ∈ fs))) as [Hc|Hc];
        [|by apply elem_of_nil in Hn].
      apply elem_of_replicate in Hn as [-> Hocc].
      exists p. split; [done|]. split; [done|]. split.
      * apply CacheFacts.occurrences_pos. lia.
      * destruct (decide (fs = ∅)); [by left|right; tauto].
    + intros (p & Hp & <- & Hd & Hfs). eexists. split; [|apply list_elem_of_fmap; eauto].
      cbn beta. rewrite decide_True by tauto.
      apply elem_of_replicate. split; [done|].
      apply CacheFacts.occurrences_pos in Hd. lia.
  - intros ->. rewrite CacheFacts.directDependents_lookup. f_equal.
Qed.

End BuilderFacts.
(** ** Facts about merging toolchain files *)

Module ToolchainFacts.
Import Config.

Lemma Toolchain_eq (a b : Toolchain) :
  FilePath a = FilePath b → Arch a = Arch b → Bin a = Bin b → THost a = THost b →
  CrossPrefix a = CrossPrefix b → ExtraPrograms a = ExtraPrograms b → a = b.
Proof. destruct a, b; simpl; by intros -> -> -> -> -> ->. Qed.

(** X29 (MergeToolchainConfig).  Merging is associative: a chain of
    overrides can be merged in any grouping.  An override without any
    setting changes nothing, and the file path is always the one of
    the base. *)
Theorem MergeToolchainConfig_assoc (a b c : Toolchain) :
  MergeToolchainConfig (MergeToolchainConfig a b) c
  = MergeToolchainConfig a (MergeToolchainConfig b c)
  ∧ (∀ path, MergeToolchainConfig a (mkToolchain path "" "" "" "" []) = a)
  ∧ FilePath (MergeToolchainConfig a b) = FilePath a.
Proof.
  split; [|split; [|done]].
  - apply Toolchain_eq; cbn [MergeToolchainConfig FilePath Arch Bin THost CrossPrefix
                               ExtraPrograms]; [done|..];
      repeat case_decide; try done; try lia.
  - intros path. by destruct a.
Qed.

End ToolchainFacts.

(** ** What a build leaves in the cache *)

Module BookkeepingFacts.
Import Config Cache Builder CacheFacts.

Section Bookkeeping.
Variable quote : string → string.




End Bookkeeping.


End BookkeepingFacts.
